(** * Speedb core subsystems: a shallow embedding and its properties

    The development follows the C++ sources:
    - [WBM]: the accounting predicates of [WriteBufferManager] and its
      flush-initiation helpers (write_buffer_manager.h);
    - [Hybrid]: the concurrency predicates of [HybridCompactionPicker], the
      running descriptor, the rearrange of a hyper-level and the
      grandparents of a compaction (compaction_picker_hybrid.cc);
    - [HashSpd]: the hash + sorted-vector memtable of hash_spd_rep.cc;
    - [Pinning]: [ScopedPinningPolicy::CheckPin] and the default policy of
      table_pinning_policy.cc;
    - [Adaptive]: [AdaptiveTableFactory::NewTableReader];
    - [IterWrapper]: [IteratorWrapperBase] (table/iterator_wrapper.h).

    Definitions come first, one module per source file; the theorems
    follow, grouped in the same order. *)

From Stdlib Require Import ZArith Bool Lia String.
From Stdlib Require Import Sorting.Sorted Sorting.Permutation.
From stdpp Require Import base list.

Local Open Scope Z_scope.

(** ** Machine integers

    [size_t] and [uint64_t] are 64 bits wide on the supported targets.
    Values are kept in [Z]; every arithmetic operation of the source is
    written with its wrap-around. *)

Module SizeT.

Definition modulus : Z := 2 ^ 64.

Definition in_range (x : Z) : Prop := 0 <= x < modulus.

Definition wrap (x : Z) : Z := x mod modulus.

Definition add (a b : Z) : Z := wrap (a + b).
Definition sub (a b : Z) : Z := wrap (a - b).
Definition mul (a b : Z) : Z := wrap (a * b).
(** Unsigned division never wraps. *)
Definition div (a b : Z) : Z := a / b.

End SizeT.

(** ** Write Buffer Manager (write_buffer_manager.h) *)

Module WBM.

(** The data members read by the inline predicates of the class.  The
    atomics are modelled by their values; [cache_res_mgr_] is kept as the
    flag "the pointer is not null". *)
Record WriteBufferManager : Type := {
  buffer_size_ : Z;
  mutable_limit_ : Z;
  memory_used_ : Z;
  memory_inactive_ : Z;
  memory_being_freed_ : Z;
  cache_res_mgr_ : bool;
  allow_stall_ : bool;
  stall_active_ : bool;
  initiate_flushes_ : bool
}.

(** Every counter is a [size_t]. *)
Definition well_formed (w : WriteBufferManager) : Prop :=
  SizeT.in_range (buffer_size_ w) /\ SizeT.in_range (mutable_limit_ w) /\
  SizeT.in_range (memory_used_ w) /\ SizeT.in_range (memory_inactive_ w) /\
  SizeT.in_range (memory_being_freed_ w).

Definition buffer_size (w : WriteBufferManager) : Z := buffer_size_ w.

Definition enabled (w : WriteBufferManager) : bool := 0 <? buffer_size w.

Definition cost_to_cache (w : WriteBufferManager) : bool := cache_res_mgr_ w.

Definition memory_usage (w : WriteBufferManager) : Z := memory_used_ w.

Definition mutable_memtable_memory_usage (w : WriteBufferManager) : Z :=
  let total := memory_usage w in
  let inactive := memory_inactive_ w in
  if total <=? inactive then 0 else SizeT.sub total inactive.

Definition immmutable_memtable_memory_usage (w : WriteBufferManager) : Z :=
  memory_inactive_ w.

Definition memtable_memory_being_freed_usage (w : WriteBufferManager) : Z :=
  memory_being_freed_ w.

Definition ShouldFlush (w : WriteBufferManager) : bool :=
  if negb (initiate_flushes_ w) && enabled w then
    if mutable_limit_ w <? mutable_memtable_memory_usage w then true
    else
      let local_size := buffer_size w in
      if (local_size <=? memory_usage w) &&
         (SizeT.div local_size 2 <=? mutable_memtable_memory_usage w)
      then true
      else false
  else false.

Definition IsStallActive (w : WriteBufferManager) : bool := stall_active_ w.

Definition IsStallThresholdExceeded (w : WriteBufferManager) : bool :=
  buffer_size_ w <=? memory_usage w.

Definition ShouldStall (w : WriteBufferManager) : bool :=
  if negb (allow_stall_ w) || negb (enabled w) then false
  else IsStallActive w || IsStallThresholdExceeded w.

(** A disabled manager ([buffer_size = 0]) with one MiB charged, stalls
    allowed and flush initiation off. *)
Definition disabled_wbm : WriteBufferManager :=
  {| buffer_size_ := 0; mutable_limit_ := 0; memory_used_ := 1048576;
     memory_inactive_ := 0; memory_being_freed_ := 0;
     cache_res_mgr_ := false; allow_stall_ := true; stall_active_ := false;
     initiate_flushes_ := false |}.

(** *** Flush initiation

    The members of the class that drive flush initiation.
    [flush_initiators_] is kept as the list of the registered initiator
    handles; all counters are [size_t], the cursor is a [uint64_t]. *)
Record FlushInitiation : Type := {
  max_num_parallel_flushes : Z;
  flush_initiators_ : list Z;
  next_candidate_initiator_idx_ : Z;
  num_flushes_to_initiate_ : Z;
  num_running_flushes_ : Z;
  additional_flush_step_size_ : Z;
  additional_flush_initiation_size_ : Z;
  min_flush_size_ : Z
}.

Definition kInvalidInitiatorIdx : Z := SizeT.modulus - 1.

Definition ShouldInitiateAnotherFlushMemOnly (w : WriteBufferManager)
    (fi : FlushInitiation) (curr_memory_used : Z) : bool :=
  (SizeT.div (additional_flush_step_size_ fi) 2 <=?
     SizeT.sub curr_memory_used (memory_being_freed_ w)) &&
  (additional_flush_initiation_size_ fi <=? curr_memory_used).

Definition ShouldInitiateAnotherFlush (w : WriteBufferManager)
    (fi : FlushInitiation) (curr_memory_used : Z) : bool :=
  (SizeT.add (num_running_flushes_ fi) (num_flushes_to_initiate_ fi) <?
     max_num_parallel_flushes fi) &&
  ShouldInitiateAnotherFlushMemOnly w fi curr_memory_used.

Definition CalcNextCandidateInitiatorIdx (fi : FlushInitiation) : Z :=
  match flush_initiators_ fi with
  | [] => 0
  | _ :: _ =>
      SizeT.add (next_candidate_initiator_idx_ fi) 1
        mod Z.of_nat (length (flush_initiators_ fi))
  end.

Definition IsInitiatorIdxValid (initiator_idx : Z) : bool :=
  negb (initiator_idx =? kInvalidInitiatorIdx).

Section SetBufferSize.

(** [MaybeEndWriteStall] and [InitFlushInitiationVars] are defined in
    write_buffer_manager.cc; [SetBufferSize] is parametric in them. *)
Variable MaybeEndWriteStall : WriteBufferManager -> WriteBufferManager.
Variable InitFlushInitiationVars :
  Z -> WriteBufferManager -> WriteBufferManager.

(** The [assert(was_enabled == enabled())] of the source is a debug check
    and has no effect on the state. *)
Definition SetBufferSize (w : WriteBufferManager) (new_size : Z)
  : WriteBufferManager :=
  let w1 :=
    {| buffer_size_ := new_size;
       mutable_limit_ := SizeT.div (SizeT.mul new_size 7) 8;
       memory_used_ := memory_used_ w;
       memory_inactive_ := memory_inactive_ w;
       memory_being_freed_ := memory_being_freed_ w;
       cache_res_mgr_ := cache_res_mgr_ w;
       allow_stall_ := allow_stall_ w;
       stall_active_ := stall_active_ w;
       initiate_flushes_ := initiate_flushes_ w |} in
  let w2 := MaybeEndWriteStall w1 in
  if enabled w2 then
    if initiate_flushes_ w2 then InitFlushInitiationVars new_size w2 else w2
  else w2.

End SetBufferSize.

(** A manager of 1000 bytes with 10 bytes used and 20 being freed, and its
    flush-initiation state: three initiators, steps of 100 bytes. *)
Definition racing_wbm : WriteBufferManager :=
  {| buffer_size_ := 1000; mutable_limit_ := 875; memory_used_ := 10;
     memory_inactive_ := 20; memory_being_freed_ := 20;
     cache_res_mgr_ := false; allow_stall_ := false; stall_active_ := false;
     initiate_flushes_ := true |}.

(** A manager of 1000 bytes that is full, with 300 bytes already scheduled
    to be freed and flush initiation off. *)
Definition full_wbm : WriteBufferManager :=
  {| buffer_size_ := 1000; mutable_limit_ := 875; memory_used_ := 1000;
     memory_inactive_ := 300; memory_being_freed_ := 0;
     cache_res_mgr_ := false; allow_stall_ := false; stall_active_ := false;
     initiate_flushes_ := false |}.

Definition sample_initiation : FlushInitiation :=
  {| max_num_parallel_flushes := 4;
     flush_initiators_ := [11; 12; 13];
     next_candidate_initiator_idx_ := 1;
     num_flushes_to_initiate_ := 0;
     num_running_flushes_ := 0;
     additional_flush_step_size_ := 100;
     additional_flush_initiation_size_ := 5;
     min_flush_size_ := 1 |}.

End WBM.

(** ** Scoped pinning policy (scoped_pinning_policy.cc) *)

Module Pinning.

(** [ScopedPinningOptions]: [capacity] is a [size_t], the two percentages
    are [uint32_t]. *)
Record ScopedPinningOptions : Type := {
  capacity : Z;
  last_level_with_data_percent : Z;
  mid_percent : Z
}.

(** The fields of [TablePinningInfo]; [level] is an [int]. *)
Record TablePinningInfo : Type := {
  level : Z;
  is_last_level_with_data : bool;
  item_owner_id : Z;
  file_size : Z;
  max_file_size_for_l0_meta_pin : Z
}.

Inductive HierarchyCategory : Type := TOP_LEVEL | PARTITION | OTHER.

(** [CacheEntryRole] is ignored by the policy; only its identity is kept. *)
Definition CacheEntryRole : Type := nat.

Definition CheckPin (options_ : ScopedPinningOptions) (tpi : TablePinningInfo)
    (category : HierarchyCategory) (role : CacheEntryRole)
    (size usage : Z) : bool :=
  let proposed := SizeT.add usage size in
  if is_last_level_with_data tpi && (0 <? last_level_with_data_percent options_)
  then
    if SizeT.div
         (SizeT.mul (capacity options_) (last_level_with_data_percent options_))
         100 <? proposed
    then false else true
  else if (0 <? level tpi) && (0 <? mid_percent options_) then
    if SizeT.div (SizeT.mul (capacity options_) (mid_percent options_)) 100
       <? proposed
    then false else true
  else if capacity options_ <? proposed then false
  else true.

(** The percentage the specification applies to a request: the one of the
    last level with data when the table is there and that percentage is
    set, else the mid one when the level is above 0 and that percentage is
    set; [None] when the whole capacity applies. *)
Definition spec_percent (options_ : ScopedPinningOptions)
    (tpi : TablePinningInfo) : option Z :=
  if is_last_level_with_data tpi && (0 <? last_level_with_data_percent options_)
  then Some (last_level_with_data_percent options_)
  else if (0 <? level tpi) && (0 <? mid_percent options_)
  then Some (mid_percent options_)
  else None.

(** The bucket of the specification, [capacity × percent / 100], in
    unbounded integers. *)
Definition spec_bucket (options_ : ScopedPinningOptions)
    (tpi : TablePinningInfo) : Z :=
  match spec_percent options_ tpi with
  | Some percent => capacity options_ * percent / 100
  | None => capacity options_
  end.

(** *** Table pinning information (table_pinning_policy.cc) *)

(** The constructor of [TablePinningInfo]: a table cannot be in the last
    level with data unless its level is above 0; the [assert] is a debug
    check, the flag is reset in every build. *)
Definition TablePinningInfo_new (_level : Z) (_is_last_level_with_data : bool)
    (_item_owner_id _file_size _max_file_size_for_l0_meta_pin : Z)
  : TablePinningInfo :=
  {| level := _level;
     is_last_level_with_data :=
       if _is_last_level_with_data then
         if _level <=? 0 then false else true
       else false;
     item_owner_id := _item_owner_id;
     file_size := _file_size;
     max_file_size_for_l0_meta_pin := _max_file_size_for_l0_meta_pin |}.

(** *** Default pinning policy (table_pinning_policy.cc) *)

(** The four tiers the [switch] of [IsPinned] distinguishes. *)
Inductive PinningTier : Type :=
  | kFallback | kNone | kFlushedAndSimilar | kAll.

Record MetadataCacheOptions : Type := {
  top_level_index_pinning : PinningTier;
  partition_pinning : PinningTier;
  unpartitioned_pinning : PinningTier
}.

Record DefaultPinningPolicy : Type := {
  cache_options_ : MetadataCacheOptions;
  pin_top_level_index_and_filter_ : bool;
  pin_l0_index_and_filter_ : bool
}.

(** [IsPinned] calls itself on [kFallback]; [fuel] bounds the depth of the
    calls and [None] reports that it ran out.  The [assert] that forbids a
    fallback to [kFallback] is a debug check. *)
Fixpoint IsPinned (fuel : nat) (tpi : TablePinningInfo)
    (pinning_tier fallback_pinning_tier : PinningTier) : option bool :=
  match fuel with
  | O => None
  | S fuel' =>
      match pinning_tier with
      | kFallback => IsPinned fuel' tpi fallback_pinning_tier kNone
      | kNone => Some false
      | kFlushedAndSimilar =>
          Some ((level tpi =? 0) &&
                (file_size tpi <=? max_file_size_for_l0_meta_pin tpi))
      | kAll => Some true
      end
  end.

Definition DefaultPinningPolicy_CheckPin (fuel : nat)
    (policy : DefaultPinningPolicy) (tpi : TablePinningInfo)
    (category : HierarchyCategory) (role : CacheEntryRole) (size limit : Z)
  : option bool :=
  if level tpi <? 0 then Some false
  else
    match category with
    | TOP_LEVEL =>
        IsPinned fuel tpi (top_level_index_pinning (cache_options_ policy))
          (if pin_top_level_index_and_filter_ policy then kAll else kNone)
    | PARTITION =>
        IsPinned fuel tpi (partition_pinning (cache_options_ policy))
          (if pin_l0_index_and_filter_ policy then kFlushedAndSimilar
           else kNone)
    | OTHER =>
        IsPinned fuel tpi (unpartitioned_pinning (cache_options_ policy))
          (if pin_l0_index_and_filter_ policy then kFlushedAndSimilar
           else kNone)
    end.

(** The tier [IsPinned] ends up deciding with: the fallback stands in for
    [kFallback], and a fallback that is [kFallback] itself stands for
    [kNone]. *)
Definition effective_tier (pinning_tier fallback_pinning_tier : PinningTier)
  : PinningTier :=
  match pinning_tier with
  | kFallback =>
      match fallback_pinning_tier with
      | kFallback => kNone
      | tier => tier
      end
  | tier => tier
  end.

(** The tier the options configure for a category. *)
Definition category_tier (policy : DefaultPinningPolicy)
    (category : HierarchyCategory) : PinningTier :=
  match category with
  | TOP_LEVEL => top_level_index_pinning (cache_options_ policy)
  | PARTITION => partition_pinning (cache_options_ policy)
  | OTHER => unpartitioned_pinning (cache_options_ policy)
  end.

(** Sample values: a scoped policy of 1000 bytes with a 10% last-level
    bucket and an 80% mid bucket, and a level-2 table. *)
Definition sample_scoped : ScopedPinningOptions :=
  {| capacity := 1000; last_level_with_data_percent := 10;
     mid_percent := 80 |}.

Definition sample_tpi : TablePinningInfo :=
  TablePinningInfo_new 2 false 1 4096 8192.

(** A policy whose capacity is half the range of [size_t], with an 80% mid
    bucket only. *)
Definition huge_scoped : ScopedPinningOptions :=
  {| capacity := 2 ^ 63; last_level_with_data_percent := 0;
     mid_percent := 80 |}.

End Pinning.

(** ** Adaptive table dispatch (adaptive_table_factory.cc) *)

Module Adaptive.

Inductive Code : Type :=
  | kOk | kNotFound | kCorruption | kNotSupported | kInvalidArgument
  | kIOError.

Record Status : Type := { code : Code; msg : string }.

Definition Status_OK : Status := {| code := kOk; msg := EmptyString |}.
Definition Status_NotSupported (m : string) : Status :=
  {| code := kNotSupported; msg := m |}.
Definition ok (s : Status) : bool :=
  match code s with kOk => true | _ => false end.

(** The five magic numbers are [extern const uint64_t] defined in the table
    format sources; the dispatch is parametric in their values. *)
Record MagicNumbers : Type := {
  kPlainTableMagicNumber : Z;
  kLegacyPlainTableMagicNumber : Z;
  kBlockBasedTableMagicNumber : Z;
  kLegacyBlockBasedTableMagicNumber : Z;
  kCuckooTableMagicNumber : Z
}.

Record Footer : Type := { table_magic_number : Z }.

Section Dispatch.

(** Opaque collaborators: the file reader, the reader object a factory
    builds, and the read/reader options. *)
Variables RandomAccessFileReader TableReader ReadOptions TableReaderOptions
  : Type.

(** The [TableFactory] interface, restricted to the two overloads of
    [NewTableReader] the dispatcher calls.  The out-parameter [table] is
    threaded: a factory receives its current content and returns the new
    one with the status. *)
Record TableFactory : Type := {
  (* NewTableReader(table_reader_options, file, file_size, table) *)
  NewTableReader :
    TableReaderOptions -> RandomAccessFileReader -> Z ->
    option TableReader -> Status * option TableReader;
  (* NewTableReader(ro, table_reader_options, file, file_size, table,
                    prefetch_index_and_filter_in_cache) *)
  NewTableReader_ro :
    ReadOptions -> TableReaderOptions -> RandomAccessFileReader -> Z ->
    option TableReader -> bool -> Status * option TableReader
}.

Record AdaptiveTableFactory : Type := {
  table_factory_to_write_ : TableFactory;
  block_based_table_factory_ : TableFactory;
  plain_table_factory_ : TableFactory;
  cuckoo_table_factory_ : TableFactory
}.

Variable magic : MagicNumbers.

(** [ReadFooterFromFile] belongs to table/format; it yields a status and,
    when the status is OK, the decoded footer. *)
Variable ReadFooterFromFile : RandomAccessFileReader -> Z -> Status * Footer.

Definition Adaptive_NewTableReader (f : AdaptiveTableFactory)
    (ro : ReadOptions) (table_reader_options : TableReaderOptions)
    (file : RandomAccessFileReader) (file_size : Z)
    (table : option TableReader)
    (prefetch_index_and_filter_in_cache : bool)
  : Status * option TableReader :=
  let '(s, footer) := ReadFooterFromFile file file_size in
  if negb (ok s) then (s, table)
  else if (table_magic_number footer =? kPlainTableMagicNumber magic) ||
          (table_magic_number footer =? kLegacyPlainTableMagicNumber magic)
  then NewTableReader (plain_table_factory_ f)
         table_reader_options file file_size table
  else if (table_magic_number footer =? kBlockBasedTableMagicNumber magic) ||
          (table_magic_number footer =?
             kLegacyBlockBasedTableMagicNumber magic)
  then NewTableReader_ro (block_based_table_factory_ f) ro
         table_reader_options file file_size table
         prefetch_index_and_filter_in_cache
  else if table_magic_number footer =? kCuckooTableMagicNumber magic
  then NewTableReader (cuckoo_table_factory_ f)
         table_reader_options file file_size table
  else (Status_NotSupported "Unidentified table format", table).

End Dispatch.

Arguments NewTableReader {_ _ _ _} _ _ _ _ _.
Arguments NewTableReader_ro {_ _ _ _} _ _ _ _ _ _ _.
Arguments plain_table_factory_ {_ _ _ _} _.
Arguments block_based_table_factory_ {_ _ _ _} _.
Arguments cuckoo_table_factory_ {_ _ _ _} _.
Arguments table_factory_to_write_ {_ _ _ _} _.
Arguments Adaptive_NewTableReader {_ _ _ _} _ _ _ _ _ _ _ _ _.

(** The magic numbers the dispatcher recognizes. *)
Definition recognized (magic : MagicNumbers) (m : Z) : bool :=
  (m =? kPlainTableMagicNumber magic) ||
  (m =? kLegacyPlainTableMagicNumber magic) ||
  (m =? kBlockBasedTableMagicNumber magic) ||
  (m =? kLegacyBlockBasedTableMagicNumber magic) ||
  (m =? kCuckooTableMagicNumber magic).

(** Sample values for the examples: five distinct 64-bit constants. *)
Definition sample_magic : MagicNumbers :=
  {| kPlainTableMagicNumber := 0x8242229663bf9564;
     kLegacyPlainTableMagicNumber := 0x4f3418eb7a8f13b0;
     kBlockBasedTableMagicNumber := 0x88e241b785f4cff7;
     kLegacyBlockBasedTableMagicNumber := 0xdb4775248b80fb57;
     kCuckooTableMagicNumber := 0x926789d0c5f17873 |}.

(** A factory over trivial collaborators: readers are numbered, and the
    factory installs reader [id] with an OK status. *)
Definition sample_factory (id : nat) : TableFactory unit nat unit unit :=
  {| NewTableReader := fun _ _ _ _ => (Status_OK, Some id);
     NewTableReader_ro := fun _ _ _ _ _ _ => (Status_OK, Some id) |}.

Definition sample_adaptive : AdaptiveTableFactory unit nat unit unit :=
  {| table_factory_to_write_ := sample_factory 1;
     block_based_table_factory_ := sample_factory 1;
     plain_table_factory_ := sample_factory 2;
     cuckoo_table_factory_ := sample_factory 3 |}.

End Adaptive.

(** ** Hybrid compaction picker (compaction_picker_hybrid.cc) *)

Module Hybrid.

(** The cursor of a hyper-level: where the previous sub-compaction wrote
    and the key it stopped at. *)
Record PrevPlace : Type := { outputLevel : Z; lastKey : string }.

(** One entry of the running descriptor; [nCompactions] is an unsigned
    counter. *)
Record HybridCompactionDescriptor : Type := {
  nCompactions : nat;
  startLevel : Z;
  hasRearange : bool
}.

(** [HybridComactionsDescribtors]: a vector of per-hyper-level entries with
    two global flags. *)
Record HybridComactionsDescribtors : Type := {
  entries : list HybridCompactionDescriptor;
  rearangeRunning : bool;
  manualComapctionRunning : bool
}.

Record FileMetaData : Type := {
  file_number : Z;
  smallest : string;
  largest : string
}.

(** [VersionStorageInfo], restricted to the per-level file lists. *)
Record VersionStorageInfo : Type := { files_ : list (list FileMetaData) }.

(** [LevelFiles(int level)] indexes the vector of levels; an index outside
    the vector has no defined result. *)
Definition LevelFiles (vstorage : VersionStorageInfo) (level : Z)
  : option (list FileMetaData) :=
  if level <? 0 then None else files_ vstorage !! Z.to_nat level.

(** The members of the picker read by the concurrency predicates. *)
Record HybridCompactionPicker : Type := {
  curNumOfHyperLevels_ : Z;
  prevSubCompaction_ : list PrevPlace
}.

(** [uint] is 32 bits wide. *)
Definition uint_add (a b : Z) : Z := (a + b) mod 2 ^ 32.

(** Conversion of a [uint] argument to the [int] parameter of
    [LevelFiles]. *)
Definition int_of_uint (a : Z) : Z := if a <? 2 ^ 31 then a else a - 2 ^ 32.

Section Picker.

(** Declared in compaction_picker_hybrid.h: the last physical level of a
    hyper-level, and the test for an unset cursor. *)
Variable LastLevelInHyper : Z -> Z.
Variable PrevPlace_empty : PrevPlace -> bool.

(** [LastLevelInHyper(hyperLevelNum) + 1], the level right below the
    hyper-level, as passed to [LevelFiles]. *)
Definition level_below (hyperLevelNum : Z) : Z :=
  int_of_uint (uint_add (LastLevelInHyper hyperLevelNum) 1).

Definition MayRunCompaction (p : HybridCompactionPicker) (hyperLevelNum : Z)
    (running : HybridComactionsDescribtors) : option bool :=
  d ← entries running !! Z.to_nat hyperLevelNum;
  if negb (Nat.eqb (nCompactions d) 0) then Some false
  else if hyperLevelNum =? curNumOfHyperLevels_ p then Some true
  else
    d' ← entries running !! Z.to_nat (uint_add hyperLevelNum 1);
    Some (negb (hasRearange d')).

Definition MayRunRearange (p : HybridCompactionPicker) (hyperLevelNum : Z)
    (running : HybridComactionsDescribtors) : option bool :=
  if negb (0 <? hyperLevelNum) then Some false
  else if rearangeRunning running then Some false
  else
    d ← entries running !! Z.to_nat hyperLevelNum;
    Some (Nat.eqb (nCompactions d) 0).

(** [None] stands for an access outside [running], [prevSubCompaction_] or
    the levels of [vstorage]. *)
Definition MayStartLevelCompaction (p : HybridCompactionPicker)
    (hyperLevelNum : Z) (running : HybridComactionsDescribtors)
    (vstorage : VersionStorageInfo) : option bool :=
  d ← entries running !! Z.to_nat hyperLevelNum;
  if Nat.ltb 0 (nCompactions d) then Some false
  else if negb (hyperLevelNum =? curNumOfHyperLevels_ p) then
    prev ← prevSubCompaction_ p !! Z.to_nat hyperLevelNum;
    if PrevPlace_empty prev then
      files ← LevelFiles vstorage (level_below hyperLevelNum);
      match files with
      | _ :: _ => Some false
      | [] => Some true
      end
    else Some true
  else Some true.

End Picker.

(** An instance of the two header declarations for the examples: four
    physical levels per hyper-level, and a cursor that is unset when its
    output level is [-1u]. *)
Definition sample_LastLevelInHyper (hyperLevelNum : Z) : Z :=
  4 * hyperLevelNum.
Definition sample_empty (prev : PrevPlace) : bool :=
  outputLevel prev =? 2 ^ 32 - 1.

Definition idle : HybridCompactionDescriptor :=
  {| nCompactions := 0; startLevel := 2 ^ 32 - 1; hasRearange := false |}.

Definition unset_cursor : PrevPlace :=
  {| outputLevel := 2 ^ 32 - 1; lastKey := EmptyString |}.

Definition sample_file : FileMetaData :=
  {| file_number := 7; smallest := "a"; largest := "m" |}.

(** Two hyper-levels below level 0, nothing running, both cursors unset,
    and one file in level 5, the level right below hyper-level 1. *)
Definition sample_picker : HybridCompactionPicker :=
  {| curNumOfHyperLevels_ := 2;
     prevSubCompaction_ := [unset_cursor; unset_cursor; unset_cursor] |}.
Definition sample_running : HybridComactionsDescribtors :=
  {| entries := [idle; idle; idle; idle];
     rearangeRunning := false; manualComapctionRunning := false |}.
Definition sample_vstorage : VersionStorageInfo :=
  {| files_ := [[]; []; []; []; []; [sample_file]; []; []; []; []] |}.

(** *** Rearranging a hyper-level *)

Definition uint_sub (a b : Z) : Z := (a - b) mod 2 ^ 32.

(** [std::vector::empty()] on the files of a level. *)
Definition files_empty (files : list FileMetaData) : bool :=
  match files with
  | [] => true
  | _ :: _ => false
  end.

(** One element of the [inputs] handed to [new Compaction]. *)
Record CompactionInputFiles : Type := {
  input_level : Z;
  input_files : list FileMetaData
}.

Section Rearange.

(** Declared in compaction_picker_hybrid.h: the first and the last physical
    level of a hyper-level, and the test for an unset cursor. *)
Variable FirstLevelInHyper : Z -> Z.
Variable LastLevelInHyper : Z -> Z.
Variable PrevPlace_empty : PrevPlace -> bool.

(** The loop of [LevelNeedsRearange] from [level], a [uint] counter.
    [fuel] bounds the number of iterations; [None] stands for a run that
    reads a level outside [vstorage] or does not end within [fuel]. *)
Fixpoint LevelNeedsRearange_loop (fuel : nat) (vstorage : VersionStorageInfo)
    (level lastLevel : Z) (foundNonEmpty : bool) : option bool :=
  match fuel with
  | O => None
  | S fuel' =>
      if level <=? lastLevel then
        files ← LevelFiles vstorage (int_of_uint level);
        let isEmpty := files_empty files in
        if negb foundNonEmpty then
          LevelNeedsRearange_loop fuel' vstorage (uint_add level 1) lastLevel
            (negb isEmpty)
        else if isEmpty then Some true
        else
          LevelNeedsRearange_loop fuel' vstorage (uint_add level 1) lastLevel
            foundNonEmpty
      else Some false
  end.

Definition LevelNeedsRearange (fuel : nat) (hyperLevelNum : Z)
    (vstorage : VersionStorageInfo) (firstLevel : Z) : option bool :=
  if hyperLevelNum =? 0 then Some false
  else
    LevelNeedsRearange_loop fuel vstorage firstLevel
      (LastLevelInHyper hyperLevelNum) false.

(** The inner loop of [RearangeLevel]: the non-empty levels from
    [inputLevel] up to, and not including, [outputLevel]. *)
Fixpoint RearangeLevel_inputs (fuel : nat) (vstorage : VersionStorageInfo)
    (inputLevel outputLevel : Z) : option (list CompactionInputFiles) :=
  match fuel with
  | O => None
  | S fuel' =>
      if inputLevel <? outputLevel then
        files ← LevelFiles vstorage (int_of_uint inputLevel);
        rest ← RearangeLevel_inputs fuel' vstorage (uint_add inputLevel 1)
                 outputLevel;
        Some (if negb (files_empty files)
              then {| input_level := int_of_uint inputLevel;
                      input_files := files |} :: rest
              else rest)
      else Some []
  end.

(** The outer loop of [RearangeLevel], downwards from [outputLevel].  The
    inner [option] is the returned pointer: [Some (inputs, outputLevel)]
    for the compaction built from these inputs to this output level,
    [None] for the null pointer. *)
Fixpoint RearangeLevel_loop (fuel : nat) (vstorage : VersionStorageInfo)
    (firstLevelInHyper outputLevel : Z)
  : option (option (list CompactionInputFiles * Z)) :=
  match fuel with
  | O => None
  | S fuel' =>
      if firstLevelInHyper <=? outputLevel then
        files ← LevelFiles vstorage (int_of_uint outputLevel);
        if files_empty files then
          inputs ← RearangeLevel_inputs fuel' vstorage firstLevelInHyper
                     outputLevel;
          match inputs with
          | [] => Some None
          | _ :: _ => Some (Some (inputs, outputLevel))
          end
        else
          RearangeLevel_loop fuel' vstorage firstLevelInHyper
            (uint_sub outputLevel 1)
      else Some None
  end.

Definition RearangeLevel (fuel : nat) (p : HybridCompactionPicker)
    (hyperLevelNum : Z) (vstorage : VersionStorageInfo)
  : option (option (list CompactionInputFiles * Z)) :=
  let firstLevelInHyper := FirstLevelInHyper hyperLevelNum in
  let lastLevelInHyper := LastLevelInHyper hyperLevelNum in
  prev ← prevSubCompaction_ p !! Z.to_nat (uint_sub hyperLevelNum 1);
  if negb (PrevPlace_empty prev) then
    let firstLevelInHyper := uint_add (outputLevel prev) 1 in
    if lastLevelInHyper <=? firstLevelInHyper then Some None
    else RearangeLevel_loop fuel vstorage firstLevelInHyper lastLevelInHyper
  else RearangeLevel_loop fuel vstorage firstLevelInHyper lastLevelInHyper.

(** The loop of [MoveSstToLastLevel], downwards from [level]; the result
    is read as for [RearangeLevel_loop]: the single input and the output
    level of the compaction, or the null pointer. *)
Fixpoint MoveSstToLastLevel_loop (fuel : nat) (vstorage : VersionStorageInfo)
    (lastLevelInPrevHyper level : Z)
  : option (option (CompactionInputFiles * Z)) :=
  match fuel with
  | O => None
  | S fuel' =>
      if lastLevelInPrevHyper <? level then
        files ← LevelFiles vstorage (int_of_uint level);
        if files_empty files then
          inputFiles ← LevelFiles vstorage (int_of_uint lastLevelInPrevHyper);
          Some (Some ({| input_level := int_of_uint lastLevelInPrevHyper;
                         input_files := inputFiles |}, level))
        else
          MoveSstToLastLevel_loop fuel' vstorage lastLevelInPrevHyper
            (uint_sub level 1)
      else Some None
  end.

Definition MoveSstToLastLevel (fuel : nat) (p : HybridCompactionPicker)
    (vstorage : VersionStorageInfo)
  : option (option (CompactionInputFiles * Z)) :=
  let lastLevelInPrevHyper :=
    LastLevelInHyper (uint_sub (curNumOfHyperLevels_ p) 1) in
  let level := LastLevelInHyper (uint_sub (curNumOfHyperLevels_ p) 1) in
  MoveSstToLastLevel_loop fuel vstorage lastLevelInPrevHyper level.

End Rearange.

(** *** Compactions in progress *)

(** The values of [CompactionReason] the picker names; the others are kept
    as [kOtherReason]. *)
Inductive CompactionReason : Type :=
  | kManualCompaction
  | kFIFOTtl
  | kLevelL0FilesNum
  | kLevelMaxLevelSize
  | kFIFOReduceNumFiles
  | kOtherReason.

Definition kRearangeCompaction : CompactionReason := kFIFOTtl.

Definition CompactionReason_eqb (a b : CompactionReason) : bool :=
  match a, b with
  | kManualCompaction, kManualCompaction
  | kFIFOTtl, kFIFOTtl
  | kLevelL0FilesNum, kLevelL0FilesNum
  | kLevelMaxLevelSize, kLevelMaxLevelSize
  | kFIFOReduceNumFiles, kFIFOReduceNumFiles
  | kOtherReason, kOtherReason => true
  | _, _ => false
  end.

(** A compaction in progress, as [BuildCompactionDescriptors] reads it:
    [compaction_reason()] and [start_level()], an [int]. *)
Record Compaction : Type := {
  compaction_reason : CompactionReason;
  start_level : Z
}.

(** Conversion of an [int] to [uint]. *)
Definition uint_of_int (a : Z) : Z := a mod 2 ^ 32.

Section Descriptors.

(** Declared in compaction_picker_hybrid.h: the hyper-level of a physical
    level, and [LastLevel()]. *)
Variable GetHyperLevelNum : Z -> Z.
Variable LastLevel : Z.

(** The body of the loop over the compactions in progress.  [None] stands
    for an index outside [out]. *)
Definition BuildCompactionDescriptors_step (p : HybridCompactionPicker)
    (out : HybridComactionsDescribtors) (compact : Compaction)
  : option HybridComactionsDescribtors :=
  let out1 :=
    if CompactionReason_eqb (compaction_reason compact) kManualCompaction
    then {| entries := entries out;
            rearangeRunning := rearangeRunning out;
            manualComapctionRunning := true |}
    else out in
  let startLevel := uint_of_int (start_level compact) in
  if negb (startLevel =? 0) then
    let hyperLevelNum :=
      if LastLevel <=? startLevel then curNumOfHyperLevels_ p
      else GetHyperLevelNum startLevel in
    d ← entries out1 !! Z.to_nat hyperLevelNum;
    let rearange :=
      CompactionReason_eqb (compaction_reason compact) kRearangeCompaction in
    Some {| entries :=
              <[Z.to_nat hyperLevelNum :=
                  {| nCompactions :=
                       Z.to_nat (uint_add (Z.of_nat (nCompactions d)) 1);
                     startLevel := startLevel;
                     hasRearange := if rearange then true else hasRearange d |}]>
                (entries out1);
            rearangeRunning :=
              if rearange then true else rearangeRunning out1;
            manualComapctionRunning := manualComapctionRunning out1 |}
  else Some out1.

Fixpoint BuildCompactionDescriptors_loop (p : HybridCompactionPicker)
    (out : HybridComactionsDescribtors)
    (compactionInProgress : list Compaction)
  : option HybridComactionsDescribtors :=
  match compactionInProgress with
  | [] => Some out
  | compact :: rest =>
      out' ← BuildCompactionDescriptors_step p out compact;
      BuildCompactionDescriptors_loop p out' rest
  end.

(** [level0_compactions_in_progress] is the size of the set of that name,
    [compactions_in_progress] the set itself in iteration order. *)
Definition BuildCompactionDescriptors (p : HybridCompactionPicker)
    (level0_compactions_in_progress : Z)
    (compactions_in_progress : list Compaction)
    (out : HybridComactionsDescribtors) : option HybridComactionsDescribtors :=
  let reset :=
    (fun _ : HybridCompactionDescriptor =>
       {| nCompactions := 0; startLevel := 2 ^ 32 - 1;
          hasRearange := false |}) <$> entries out in
  d ← reset !! 0%nat;
  let out0 :=
    {| entries :=
         <[0%nat :=
             {| nCompactions :=
                  Z.to_nat (level0_compactions_in_progress mod 2 ^ 32);
                startLevel := startLevel d;
                hasRearange := hasRearange d |}]> reset;
       rearangeRunning := false;
       manualComapctionRunning := false |} in
  BuildCompactionDescriptors_loop p out0 compactions_in_progress.

End Descriptors.

(** The compaction is a rearrange that did not start at level 0. *)
Definition counted_rearange (compact : Compaction) : bool :=
  CompactionReason_eqb (compaction_reason compact) kRearangeCompaction &&
  negb (uint_of_int (start_level compact) =? 0).

(** The compaction did not start at level 0. *)
Definition counted (compact : Compaction) : bool :=
  negb (uint_of_int (start_level compact) =? 0).

Definition total_compactions (ds : list HybridCompactionDescriptor) : Z :=
  foldr (fun d s => Z.of_nat (nCompactions d) + s) 0 ds.

(** Two compactions in progress: a rearrange started at level 5 and a
    level compaction started at level 1. *)
Definition sample_in_progress : list Compaction :=
  [{| compaction_reason := kFIFOTtl; start_level := 5 |};
   {| compaction_reason := kLevelMaxLevelSize; start_level := 1 |}].
Definition sample_GetHyperLevelNum (level : Z) : Z := (level + 3) / 4.

(** The level holds at least one file. *)
Definition level_nonempty (vstorage : VersionStorageInfo) (level : Z) : Prop :=
  exists f files, LevelFiles vstorage level = Some (f :: files).

(** *** Grandparents of a last-level compaction *)

Section Grandparents.

(** [File] stands for [FileMetaData*] and [fd_file_size f] for
    [f->fd.file_size], a [uint64_t]. *)
Context {File : Type} (fd_file_size : File -> Z).

(** The loop of [buildGrandparents]; [accSize] is a [size_t]. *)
Fixpoint buildGrandparents_loop (grandparents lastLevlfiles : list File)
    (minSize accSize : Z) : list File :=
  match lastLevlfiles with
  | [] => grandparents
  | f :: rest =>
      let accSize := SizeT.add accSize (fd_file_size f) in
      if minSize <? accSize then
        buildGrandparents_loop (grandparents ++ [f]) rest minSize 0
      else buildGrandparents_loop grandparents rest minSize accSize
  end.

Definition buildGrandparents (grandparents lastLevlfiles : list File)
    (desiredSize : Z) : list File :=
  let minSize := SizeT.div (SizeT.mul desiredSize 3) 5 in
  buildGrandparents_loop grandparents lastLevlfiles minSize 0.

End Grandparents.

(** *** Locating a file by key *)

(** The contract of the user comparator [ucmp_]: the sign of [Compare] is a
    total preorder on user keys. *)
Record UserOrder (Compare : string -> string -> Z) : Prop := {
  ucmp_refl : forall a, Compare a a = 0;
  ucmp_antisym : forall a b, 0 < Compare a b -> Compare b a < 0;
  ucmp_le_lt : forall a b c,
    Compare a b <= 0 -> Compare b c < 0 -> Compare a c < 0;
  ucmp_lt_le : forall a b c,
    Compare a b < 0 -> Compare b c <= 0 -> Compare a c < 0
}.

Section Locate.

(** [Compare a b] is [ucmp_->Compare(a, b)]; keys are the [user_key()] of
    the bounds of a file. *)
Variable Compare : string -> string -> Z.

(** The loop of [locateFile] over the files from [iter] on; iterators are
    positions in [filesList], [length filesList] standing for [end()]. *)
Fixpoint locateFile_loop (files : list FileMetaData) (key : string)
    (iter : nat) : nat :=
  match files with
  | [] => iter
  | f :: rest =>
      if 0 <=? Compare (largest f) key then iter
      else locateFile_loop rest key (S iter)
  end.

(** [start] is a position of [filesList], at most [end()]. *)
Definition locateFile (filesList : list FileMetaData) (key : string)
    (start : nat) : nat :=
  if negb (Nat.eqb (String.length key) 0) then
    locateFile_loop (drop start filesList) key start
  else start.

(** [Intersecting(const FileMetaData* f1, const std::vector<...>& f2)]. *)
Definition Intersecting_file (f1 : FileMetaData) (f2 : list FileMetaData)
  : bool :=
  let iter := locateFile f2 (smallest f1) 0 in
  match f2 !! iter with
  | Some f => 0 <? Compare (smallest f) (largest f1)
  | None => false
  end.

(** [Intersecting(const std::vector<...>& f1, const std::vector<...>& f2)]. *)
Definition Intersecting (f1 f2 : list FileMetaData) : bool :=
  existsb (fun f => Intersecting_file f f2) f1.

(** Some user key lies in the key range of both files. *)
Definition overlap (f g : FileMetaData) : Prop :=
  exists k, Compare (smallest f) k <= 0 /\ Compare k (largest f) <= 0 /\
            Compare (smallest g) k <= 0 /\ Compare k (largest g) <= 0.

(** The files of a level: each with its bounds in order, and every file
    entirely below the files after it. *)
Definition level_sorted (files : list FileMetaData) : Prop :=
  Forall (fun f => Compare (smallest f) (largest f) <= 0) files /\
  StronglySorted (fun f g => Compare (largest f) (smallest g) < 0) files.

End Locate.

(** A comparator for the examples: keys ordered by length. *)
Definition length_Compare (a b : string) : Z :=
  Z.of_nat (String.length a) - Z.of_nat (String.length b).

Definition file_bb_ccc : FileMetaData :=
  {| file_number := 1; smallest := "bb"; largest := "ccc" |}.
Definition file_dddd_eeeee : FileMetaData :=
  {| file_number := 2; smallest := "dddd"; largest := "eeeee" |}.
Definition file_a_a : FileMetaData :=
  {| file_number := 3; smallest := "a"; largest := "a" |}.

(** Ten levels: levels 1 to 4 form hyper-level 1; levels 1 and 3 hold a
    file, levels 2 and 4 are empty. *)
Definition gapped_vstorage : VersionStorageInfo :=
  {| files_ := [[]; [sample_file]; []; [sample_file]; []; []; []; []; [];
                []] |}.
Definition sample_FirstLevelInHyper (hyperLevelNum : Z) : Z :=
  4 * (hyperLevelNum - 1) + 1.

End Hybrid.

(** ** Hash + sorted-vector memtable (hash_spd_rep.cc) *)

Module HashSpd.

(** What the memtable needs from the injected [MemTableRep::KeyComparator]:
    [comparator a b] is [operator()(a, b)], an [int] whose sign orders the
    two encoded keys, and [bucket_hash k] is
    [GetHash(UserKeyWithoutTimestamp(decode_key(k), comparator))], the
    [size_t] that selects the bucket. *)
Class KeyComparator (Key : Type) : Type := {
  comparator : Key -> Key -> Z;
  bucket_hash : Key -> Z
}.

(** The contract of the comparator: the sign of [comparator] is a total
    preorder on keys. *)
Record ComparatorOrder {Key : Type} (KC : KeyComparator Key) : Prop := {
  cmp_refl : forall a, comparator a a = 0;
  cmp_eq_sym : forall a b, comparator a b = 0 -> comparator b a = 0;
  cmp_antisym : forall a b, 0 < comparator a b -> comparator b a < 0;
  cmp_trans : forall a b c,
    comparator a b < 0 -> comparator b c < 0 -> comparator a c < 0;
  cmp_lt_eq : forall a b c,
    comparator a b < 0 -> comparator b c = 0 -> comparator a c < 0
}.

(** The contract of the hash: keys that compare equal have the same user
    key, hence the same hash. *)
Definition HashRespectsComparator {Key : Type} (KC : KeyComparator Key)
  : Prop :=
  forall a b, comparator a b = 0 -> bucket_hash a = bucket_hash b.

Definition kMergedVectorsMax : nat := 8.

(** The accumulator of [std::accumulate] in [Merge] is an [int]. *)
Definition to_int (z : Z) : Z :=
  let r := z mod 2 ^ 32 in if r <? 2 ^ 31 then r else r - 2 ^ 32.

Section Rep.

Context {Key : Type} {KC : KeyComparator Key}.

(** *** Buckets

    A bucket is the chain of [SpdbKeyHandle]s reachable from [items_]
    through [next]; the list holds the keys of the chain in link order. *)
Record BucketHeader : Type := { items_ : list Key }.

Fixpoint Contains_from (k : list Key) (check_key : Key) : bool :=
  match k with
  | [] => false
  | e :: next =>
      let cmp_res := comparator e check_key in
      if cmp_res =? 0 then true
      else if 0 <? cmp_res then false
      else Contains_from next check_key
  end.

Definition BucketHeader_Contains (b : BucketHeader) (check_key : Key) : bool :=
  Contains_from (items_ b) check_key.

(** The walk of [Add] over [loc]: [None] is the early [return false],
    [Some chain] the chain after [val] has been linked at [*loc]. *)
Fixpoint Add_from (loc : list Key) (val : Key) : option (list Key) :=
  match loc with
  | [] => Some [val]
  | e :: next =>
      let cmp_res := comparator e val in
      if cmp_res =? 0 then None
      else if 0 <? cmp_res then Some (val :: e :: next)
      else cons e <$> Add_from next val
  end.

Definition BucketHeader_Add (b : BucketHeader) (val : Key)
  : bool * BucketHeader :=
  match Add_from (items_ b) val with
  | None => (false, b)
  | Some chain => (true, {| items_ := chain |})
  end.

(** *** Hash table *)
Record SpdbHashTable : Type := {
  buckets_ : list BucketHeader;
  n_mutexes_ : nat
}.

Definition SpdbHashTable_new (n_buckets n_mutexes : nat) : SpdbHashTable :=
  {| buckets_ := replicate n_buckets {| items_ := [] |};
     n_mutexes_ := n_mutexes |}.

(** [hash % buckets_.size()]. *)
Definition bucket_index (t : SpdbHashTable) (key : Key) : nat :=
  Z.to_nat (bucket_hash key mod Z.of_nat (length (buckets_ t))).

(** With no bucket at all the source divides by zero; the table is then
    left as it is. *)
Definition SpdbHashTable_Add (t : SpdbHashTable) (val : Key)
  : bool * SpdbHashTable :=
  let i := bucket_index t val in
  match buckets_ t !! i with
  | Some bucket =>
      let '(r, bucket') := BucketHeader_Add bucket val in
      (r, {| buckets_ := <[i := bucket']> (buckets_ t);
             n_mutexes_ := n_mutexes_ t |})
  | None => (false, t)
  end.

Definition SpdbHashTable_Contains (t : SpdbHashTable) (check_key : Key)
  : bool :=
  match buckets_ t !! bucket_index t check_key with
  | Some bucket => BucketHeader_Contains bucket check_key
  | None => false
  end.

(** First loop of [Get]: skip the entries below the lookup key. *)
Fixpoint Get_seek (iter : list Key) (k : Key) : list Key :=
  match iter with
  | [] => []
  | e :: next => if 0 <=? comparator e k then iter else Get_seek next k
  end.

(** Second loop of [Get]: feed the entries to the callback until it
    declines.  The callback's argument is threaded as a state. *)
Fixpoint Get_emit {A : Type} (callback_func : A -> Key -> A * bool)
    (callback_args : A) (iter : list Key) : A :=
  match iter with
  | [] => callback_args
  | e :: next =>
      let '(args', continue) := callback_func callback_args e in
      if continue then Get_emit callback_func args' next else args'
  end.

Definition SpdbHashTable_Get {A : Type} (t : SpdbHashTable) (k : Key)
    (callback_args : A) (callback_func : A -> Key -> A * bool) : A :=
  match buckets_ t !! bucket_index t k with
  | Some bucket =>
      Get_emit callback_func callback_args (Get_seek (items_ bucket) k)
  | None => callback_args
  end.

(** A callback instrumented to record the keys it is called with, in
    call order. *)
Definition traced {A : Type} (callback_func : A -> Key -> A * bool)
  : A * list Key -> Key -> (A * list Key) * bool :=
  fun st e =>
    let '(args', continue) := callback_func (fst st) e in
    ((args', snd st ++ [e]), continue).

(** *** Sorted vectors

    [vec_items_] is the slot array [items_] ([None] is a slot never
    written), [n_elements_] the atomic counter, [sorted_] the seal. *)
Record SpdbVector : Type := {
  vec_items_ : list (option Key);
  n_elements_ : Z;
  sorted_ : bool
}.

(** Modelled from the spec: spdb_sorted_vector.h is missing.  A fresh
    sorted vector is a fixed-capacity array of key pointers with count 0
    and not sealed. *)
Definition SpdbVector_new (switch_spdb_vector_limit : Z) : SpdbVector :=
  {| vec_items_ := replicate (Z.to_nat switch_spdb_vector_limit) None;
     n_elements_ := 0;
     sorted_ := false |}.

(** Modelled from the spec: spdb_sorted_vector.h is missing.  The vector
    built by a merge holds the merged keys, counts them, and is sealed as
    soon as it holds a key. *)
Definition SpdbVector_of (items : list Key) (n : Z) : SpdbVector :=
  let n' := Z.min n (Z.of_nat (length items)) in
  {| vec_items_ := Some <$> items; n_elements_ := n'; sorted_ := 0 <? n' |}.

(** Modelled from the spec: spdb_sorted_vector.h is missing.  [Size] reads
    the count of the vector. *)
Definition Size (v : SpdbVector) : Z := n_elements_ v.

(** Modelled from the spec: spdb_sorted_vector.h is missing.  A vector is
    empty when its count is 0. *)
Definition IsEmpty (v : SpdbVector) : bool := n_elements_ v =? 0.

Definition SpdbVector_Add (v : SpdbVector) (key : Key) : bool * SpdbVector :=
  let location := n_elements_ v in
  let n' := SizeT.add (n_elements_ v) 1 in
  if location <? Z.of_nat (length (vec_items_ v)) then
    (true, {| vec_items_ := <[Z.to_nat location := Some key]> (vec_items_ v);
              n_elements_ := n';
              sorted_ := sorted_ v |})
  else
    (false, {| vec_items_ := vec_items_ v; n_elements_ := n';
               sorted_ := sorted_ v |}).

(** [Compare(comparator)] on two slots.  Comparing a slot never written
    dereferences a null pointer in the source. *)
Definition slot_less (a b : option Key) : bool :=
  match a, b with
  | Some x, Some y => comparator x y <? 0
  | _, _ => false
  end.

(** [std::sort]: an insertion sort stands for it; the order it gives to
    slots that compare equal is one of those [std::sort] may give. *)
Fixpoint sort_insert {A : Type} (less : A -> A -> bool) (x : A) (l : list A)
  : list A :=
  match l with
  | [] => [x]
  | y :: l' => if less y x then y :: sort_insert less x l' else x :: y :: l'
  end.

Definition std_sort {A : Type} (less : A -> A -> bool) (l : list A) : list A :=
  foldr (sort_insert less) [] l.

Definition SpdbVector_Sort (v : SpdbVector) : bool * SpdbVector :=
  if n_elements_ v =? 0 then (false, v)
  else if sorted_ v then (true, v)
  else
    let size := Z.of_nat (length (vec_items_ v)) in
    let num_elements := Z.min (n_elements_ v) size in
    let items :=
      if num_elements <? size then take (Z.to_nat num_elements) (vec_items_ v)
      else vec_items_ v in
    (true, {| vec_items_ := std_sort slot_less items;
              n_elements_ := num_elements;
              sorted_ := true |}).

(** [std::lower_bound(items_.begin(), items_.end(), *seek_key,
    Compare(comparator))] as a position in [items_]: on a range the
    comparison partitions, the first position whose entry is not below
    the key, [length items_] standing for [end()]. *)
Fixpoint lower_bound (items : list (option Key)) (seek_key : Key) : nat :=
  match items with
  | [] => 0%nat
  | e :: rest =>
      if slot_less e (Some seek_key) then S (lower_bound rest seek_key)
      else 0%nat
  end.

(** [Seek(comparator, seek_key)]: iterators are positions in [items_];
    [seek_key = None] is the null pointer.  [None] as a result stands for
    reading [front()] or [back()] of an empty array or a slot never
    written. *)
Definition SpdbVector_Seek (v : SpdbVector) (seek_key : option Key)
  : option nat :=
  let items := vec_items_ v in
  if negb (IsEmpty v) then
    match seek_key with
    | None => Some 0%nat
    | Some k =>
        front ← head items ≫= id;
        if 0 <=? comparator front k then Some 0%nat
        else
          back ← last items ≫= id;
          if 0 <=? comparator back k then Some (lower_bound items k)
          else Some (length items)
    end
  else Some (length items).

(** [SeekBackword(comparator, seek_key)].  [std::prev(items_.end())] of an
    empty array and [--ret] at [begin()] have no defined result. *)
Definition SpdbVector_SeekBackword (v : SpdbVector) (seek_key : option Key)
  : option nat :=
  let items := vec_items_ v in
  if negb (IsEmpty v) then
    match seek_key with
    | None =>
        match items with
        | [] => None
        | _ :: _ => Some (pred (length items))
        end
    | Some k =>
        back ← last items ≫= id;
        if comparator back k <=? 0 then Some (pred (length items))
        else
          front ← head items ≫= id;
          if comparator front k <=? 0 then
            let ret := lower_bound items k in
            e ← items !! ret ≫= id;
            if 0 <? comparator e k then
              match ret with
              | O => None
              | S ret' => Some ret'
              end
            else Some ret
          else Some (length items)
    end
  else Some (length items).

Inductive SeekOption : Type :=
  | SEEK_INIT_FORWARD_OP
  | SEEK_INIT_BACKWARD_OP
  | SEEK_SWITCH_FORWARD_OP
  | SEEK_SWITCH_BACKWARD_OP.

Definition SpdbVector_Seek_op (v : SpdbVector) (seek_key : option Key)
    (seek_op : SeekOption) : option nat :=
  match seek_op with
  | SEEK_INIT_FORWARD_OP | SEEK_SWITCH_FORWARD_OP => SpdbVector_Seek v seek_key
  | SEEK_INIT_BACKWARD_OP | SEEK_SWITCH_BACKWARD_OP =>
      SpdbVector_SeekBackword v seek_key
  end.

(** The keys a vector holds: its written slots. *)
Definition vector_keys (v : SpdbVector) : list Key := omap id (vec_items_ v).

(** Modelled from the spec: the class [SpdbVectorIterator] of
    spdb_sorted_vector.h is missing.  A forward traversal ([SeekToFirst]
    then [Next] until invalid) seals every anchored vector that holds a key
    ([SeekIter]) and yields the keys of those vectors in comparator
    order. *)
Definition SpdbVectorIterator_forward (anchors : list SpdbVector) : list Key :=
  std_sort (fun a b => comparator a b <? 0)
    (concat ((fun v => let '(ok, v') := SpdbVector_Sort v in
                       if ok then vector_keys v' else []) <$> anchors)).

(** *** Vector container

    Iterators into the [std::list] of vectors are positions in the list.
    [sort_iter_anchor] is the local cursor of [SortThread], which lives as
    long as the container. *)
Record SpdbVectorContainer : Type := {
  spdb_vectors_ : list SpdbVector;
  switch_spdb_vector_limit_ : Z;
  num_elements_ : Z;
  immutable_ : bool;
  sort_iter_anchor : nat
}.

Definition set_vectors (c : SpdbVectorContainer) (vs : list SpdbVector)
  : SpdbVectorContainer :=
  {| spdb_vectors_ := vs;
     switch_spdb_vector_limit_ := switch_spdb_vector_limit_ c;
     num_elements_ := num_elements_ c;
     immutable_ := immutable_ c;
     sort_iter_anchor := sort_iter_anchor c |}.

Definition set_anchor (c : SpdbVectorContainer) (a : nat)
  : SpdbVectorContainer :=
  {| spdb_vectors_ := spdb_vectors_ c;
     switch_spdb_vector_limit_ := switch_spdb_vector_limit_ c;
     num_elements_ := num_elements_ c;
     immutable_ := immutable_ c;
     sort_iter_anchor := a |}.

(** Modelled from the spec: spdb_sorted_vector.h is missing.  A new
    container is mutable and holds one empty, unsealed tail vector. *)
Definition SpdbVectorContainer_new (switch_spdb_vector_limit : Z)
  : SpdbVectorContainer :=
  {| spdb_vectors_ := [SpdbVector_new switch_spdb_vector_limit];
     switch_spdb_vector_limit_ := switch_spdb_vector_limit;
     num_elements_ := 0;
     immutable_ := false;
     sort_iter_anchor := 0%nat |}.

(** [spdb_vectors_.back()->Add(key)]. *)
Definition InternalInsert (c : SpdbVectorContainer) (key : Key)
  : bool * SpdbVectorContainer :=
  match last (spdb_vectors_ c) with
  | Some back =>
      let '(r, back') := SpdbVector_Add back key in
      (r, set_vectors c
            (<[pred (length (spdb_vectors_ c)) := back']> (spdb_vectors_ c)))
  | None => (false, c)
  end.

Definition SpdbVectorContainer_Insert (c : SpdbVectorContainer) (key : Key)
  : SpdbVectorContainer :=
  let c0 :=
    {| spdb_vectors_ := spdb_vectors_ c;
       switch_spdb_vector_limit_ := switch_spdb_vector_limit_ c;
       num_elements_ := SizeT.add (num_elements_ c) 1;
       immutable_ := immutable_ c;
       sort_iter_anchor := sort_iter_anchor c |} in
  let '(r1, c1) := InternalInsert c0 key in
  if r1 then c1
  else
    let '(r2, c2) := InternalInsert c1 key in
    if r2 then c2
    else
      let spdb_vector := SpdbVector_new (switch_spdb_vector_limit_ c2) in
      let c3 := set_vectors c2 (spdb_vectors_ c2 ++ [spdb_vector]) in
      (* a failure of this last attempt trips [assert(false)] *)
      snd (InternalInsert c3 key).

Definition SpdbVectorContainer_IsEmpty (c : SpdbVectorContainer) : bool :=
  num_elements_ c =? 0.

(** [InitIterator(iter_anchor)]: the anchors are the vectors before
    [last_iter]. *)
Definition InitIterator (c : SpdbVectorContainer)
  : SpdbVectorContainer * list SpdbVector :=
  let vs := spdb_vectors_ c in
  if immutable_ c then (c, vs)
  else
    match last vs with
    | Some back =>
        if negb (IsEmpty back) then
          (set_vectors c (vs ++ [SpdbVector_new (switch_spdb_vector_limit_ c)]),
           vs)
        else (c, take (pred (length vs)) vs)
    | None => (c, [])
    end.

(** [std::accumulate] with the [int] initial value [0]. *)
Definition Merge_num_elements (range : list SpdbVector) : Z :=
  SizeT.wrap
    (foldl (fun n vec => to_int (SizeT.add (SizeT.wrap n) (Size vec))) 0 range).

(** [Merge(begin, end)] replaces the vectors at positions
    [begin .. end - 1] by their merge. *)
Definition Merge (c : SpdbVectorContainer) (begin end_ : nat)
  : SpdbVectorContainer :=
  let vs := spdb_vectors_ c in
  let range := take (end_ - begin) (drop begin vs) in
  if 0 <? Merge_num_elements range then
    let merged := SpdbVectorIterator_forward range in
    let new_vector := SpdbVector_of merged (Z.of_nat (length merged)) in
    set_vectors c (take begin vs ++ new_vector :: drop end_ vs)
  else c.

Definition merge_threshold (c : SpdbVectorContainer) : Z :=
  SizeT.div (SizeT.mul (switch_spdb_vector_limit_ c) 75) 100.

(** The loop of [TryMergeVectors] from position [s], over the vectors
    [vs] found from [s] up to [last]; the result is the final
    [(start, last, count)]. *)
Fixpoint TryMergeVectors_loop (threshold : Z) (vs : list SpdbVector)
    (s start count last : nat) : nat * nat * nat :=
  match vs with
  | [] => (start, last, count)
  | v :: rest =>
      if threshold <? Size v then
        if Nat.ltb 1 count then (start, s, count)
        else TryMergeVectors_loop threshold rest (S s) (S s) 0 last
      else
        let count := S count in
        if Nat.eqb count kMergedVectorsMax then (start, S s, count)
        else TryMergeVectors_loop threshold rest (S s) start count last
  end.

(** [Some (start, last)] stands for [true] and names the range handed to
    [Merge]; [None] stands for [false]. *)
Definition TryMergeVectors (c : SpdbVectorContainer) (last : nat)
  : option (nat * nat) * SpdbVectorContainer :=
  let '(start, last', count) :=
    TryMergeVectors_loop (merge_threshold c) (take last (spdb_vectors_ c))
      0 0 0 last in
  if Nat.ltb 1 count then (Some (start, last'), Merge c start last')
  else (None, c).

(** The sorting loop of [SortThread]: seal the vectors at positions
    [anchor .. last - 1]. *)
Definition sort_range (vs : list SpdbVector) (anchor last : nat)
  : list SpdbVector :=
  imap (fun i v =>
          if bool_decide (anchor <= i < last)%nat then snd (SpdbVector_Sort v)
          else v) vs.

Definition SortThread_sort (c : SpdbVectorContainer) (last : nat)
  : SpdbVectorContainer :=
  set_anchor
    (set_vectors c (sort_range (spdb_vectors_ c) (sort_iter_anchor c) last))
    last.

(** One turn of the loop of [SortThread] after [sort_thread_cv_.wait]
    returns.  The second component reports the range a merge was run on. *)
Definition SortThread_wake (c : SpdbVectorContainer)
  : SpdbVectorContainer * option (nat * nat) :=
  if immutable_ c then (c, None)
  else
    let last := pred (length (spdb_vectors_ c)) in
    if Nat.eqb last (sort_iter_anchor c) then (c, None)
    else
      let c1 := SortThread_sort c last in
      if Nat.ltb kMergedVectorsMax (length (spdb_vectors_ c1)) then
        match TryMergeVectors c1 last with
        | (Some range, c2) => (set_anchor c2 0, Some range)
        | (None, c2) => (c2, None)
        end
      else (c1, None).

(** *** The memtable *)
Record HashSpdRep : Type := {
  spdb_hash_table_ : SpdbHashTable;
  spdb_vectors_cont_ : SpdbVectorContainer
}.

Definition HashSpdRep_new (bucket_size : nat) (add_list_limit_size : Z)
  : HashSpdRep :=
  {| spdb_hash_table_ := SpdbHashTable_new bucket_size 1024;
     spdb_vectors_cont_ := SpdbVectorContainer_new add_list_limit_size |}.

(** [Allocate]: the number of bytes requested from the allocator for a
    key of [len] bytes.  [sizeof_handle] is [sizeof(SpdbKeyHandle)] and
    [offsetof_key] is [offsetof(SpdbKeyHandle, key)]; the returned buffer
    starts [offsetof_key] bytes into the allocation. *)
Definition Allocate_alloc_size (sizeof_handle offsetof_key len : Z) : Z :=
  let kInlineDataSize := SizeT.sub sizeof_handle offsetof_key in
  SizeT.add (SizeT.sub (Z.max len kInlineDataSize) kInlineDataSize)
    sizeof_handle.

Definition InsertKey (rep : HashSpdRep) (handle : Key) : bool * HashSpdRep :=
  let '(added, table) := SpdbHashTable_Add (spdb_hash_table_ rep) handle in
  if negb added then (false, rep)
  else
    (true,
     {| spdb_hash_table_ := table;
        spdb_vectors_cont_ :=
          SpdbVectorContainer_Insert (spdb_vectors_cont_ rep) handle |}).

Definition Contains (rep : HashSpdRep) (key : Key) : bool :=
  SpdbHashTable_Contains (spdb_hash_table_ rep) key.

Definition ApproximateMemoryUsage (rep : HashSpdRep) : Z := 0.

Definition Get {A : Type} (rep : HashSpdRep) (k : Key) (callback_args : A)
    (callback_func : A -> Key -> A * bool) : A :=
  SpdbHashTable_Get (spdb_hash_table_ rep) k callback_args callback_func.

(** The two iterator classes [GetIterator] chooses between. *)
Inductive Iterator : Type :=
  | SpdbVectorIteratorEmpty
  | SpdbVectorIterator (anchors : list SpdbVector).

(** Modelled from the spec: the constructor of [SpdbVectorIterator] is in
    the missing spdb_sorted_vector.h.  Constructing the iterator runs
    [InitIterator], which appends a new empty tail when the memtable is
    still mutable. *)
Definition GetIterator (rep : HashSpdRep) : HashSpdRep * Iterator :=
  if SpdbVectorContainer_IsEmpty (spdb_vectors_cont_ rep) then
    (rep, SpdbVectorIteratorEmpty)
  else
    let '(c, anchors) := InitIterator (spdb_vectors_cont_ rep) in
    ({| spdb_hash_table_ := spdb_hash_table_ rep; spdb_vectors_cont_ := c |},
     SpdbVectorIterator anchors).

(** The keys a forward traversal of the iterator yields, in order. *)
Definition Iterator_keys (it : Iterator) : list Key :=
  match it with
  | SpdbVectorIteratorEmpty => []
  | SpdbVectorIterator anchors => SpdbVectorIterator_forward anchors
  end.

(** *** Executions

    The calls that reach a memtable between its creation and
    [MarkReadOnly]: inserts from the writers, turns of the sort thread,
    and iterator constructions. *)
Inductive Op : Type :=
  | OpInsertKey (handle : Key)
  | OpSortThread
  | OpGetIterator.

Definition step (rep : HashSpdRep) (op : Op) : HashSpdRep :=
  match op with
  | OpInsertKey handle => snd (InsertKey rep handle)
  | OpSortThread =>
      {| spdb_hash_table_ := spdb_hash_table_ rep;
         spdb_vectors_cont_ := fst (SortThread_wake (spdb_vectors_cont_ rep)) |}
  | OpGetIterator => fst (GetIterator rep)
  end.

Definition run (ops : list Op) (rep : HashSpdRep) : HashSpdRep :=
  foldl step rep ops.

(** *** Representation invariants *)

Definition key_lt (a b : Key) : Prop := comparator a b < 0.
Definition key_le (a b : Key) : Prop := comparator a b <= 0.

(** A chain is strictly sorted when every entry is below all the entries
    linked after it. *)
Definition bucket_sorted (b : BucketHeader) : Prop :=
  StronglySorted key_lt (items_ b).

(** The keys linked in the buckets, and the keys written in the vectors. *)
Definition table_keys (t : SpdbHashTable) : list Key :=
  concat (items_ <$> buckets_ t).

Definition container_keys (c : SpdbVectorContainer) : list Key :=
  concat (vector_keys <$> spdb_vectors_ c).

(** The written slots of a vector are a prefix of its array; the count is
    the length of that prefix, or runs ahead of it once the array is full
    (failed [Add]s still increment [n_elements_]). *)
Definition vec_wf (v : SpdbVector) : Prop :=
  exists (ks : list Key) (m : nat),
    vec_items_ v = (Some <$> ks) ++ replicate m None /\
    Z.of_nat (length ks) <= n_elements_ v /\
    (m = 0%nat \/ n_elements_ v = Z.of_nat (length ks)).

(** A sealed vector holds its keys in ascending order, one in each
    slot, and counts them. *)
Definition sealed_ok (v : SpdbVector) : Prop :=
  sorted_ v = true ->
  exists ks : list Key,
    vec_items_ v = Some <$> ks /\
    n_elements_ v = Z.of_nat (length ks) /\
    StronglySorted key_le ks.

(** Every sealed vector is in order, and the tail is not sealed. *)
Definition sealed_inv (vs : list SpdbVector) : Prop :=
  Forall sealed_ok vs /\
  exists back, last vs = Some back /\ sorted_ back = false.

(** Between two calls the tail vector has not overflowed, and its array is
    no longer than the configured limit. *)
Definition tail_ok (limit : Z) (v : SpdbVector) : Prop :=
  n_elements_ v <= Z.of_nat (length (vec_items_ v)) /\
  Z.of_nat (length (vec_items_ v)) <= limit.

(** The part of the invariant that concerns the container alone. *)
Definition cont_ok (limit : Z) (c : SpdbVectorContainer) : Prop :=
  switch_spdb_vector_limit_ c = limit /\
  immutable_ c = false /\
  Forall vec_wf (spdb_vectors_ c) /\
  exists back, last (spdb_vectors_ c) = Some back /\ tail_ok limit back.

Record Inv (limit : Z) (rep : HashSpdRep) : Prop := {
  inv_sorted : Forall bucket_sorted (buckets_ (spdb_hash_table_ rep));
  inv_home : forall i b e,
    buckets_ (spdb_hash_table_ rep) !! i = Some b -> e ∈ items_ b ->
    bucket_index (spdb_hash_table_ rep) e = i;
  inv_keys :
    table_keys (spdb_hash_table_ rep) ≡ₚ
    container_keys (spdb_vectors_cont_ rep);
  inv_limit : switch_spdb_vector_limit_ (spdb_vectors_cont_ rep) = limit;
  inv_mutable : immutable_ (spdb_vectors_cont_ rep) = false;
  inv_wf : Forall vec_wf (spdb_vectors_ (spdb_vectors_cont_ rep));
  inv_tail : exists back,
    last (spdb_vectors_ (spdb_vectors_cont_ rep)) = Some back /\
    tail_ok limit back;
  inv_count :
    num_elements_ (spdb_vectors_cont_ rep) =
    SizeT.wrap (Z.of_nat (length (container_keys (spdb_vectors_cont_ rep))))
}.

(** The key is linked in the bucket its hash selects. *)
Definition linked (t : SpdbHashTable) (k : Key) : Prop :=
  exists b, buckets_ t !! bucket_index t k = Some b /\ k ∈ items_ b.

End Rep.

Arguments BucketHeader Key : clear implicits.
Arguments SpdbHashTable Key : clear implicits.
Arguments SpdbVector Key : clear implicits.
Arguments SpdbVectorContainer Key : clear implicits.
Arguments HashSpdRep Key : clear implicits.
Arguments Iterator Key : clear implicits.
Arguments Op Key : clear implicits.

(** A concrete comparator for examples: integer keys ordered by value, the
    key itself as hash. *)
Definition Z_KeyComparator : KeyComparator Z :=
  {| comparator := fun a b => a - b; bucket_hash := fun k => k |}.

(** A comparator that tells fewer keys apart than their bytes do, as a
    user comparator that ignores case does: integer keys ordered by their
    tens, the key itself as hash. *)
Definition tens_KeyComparator : KeyComparator Z :=
  {| comparator := fun a b => a / 10 - b / 10; bucket_hash := fun k => k |}.

(** Sample executions over integer keys.  [dup_ops1] and [dup_ops2] are run
    before and after a first insert of key 9 in a memtable of 2 buckets and
    vectors of 3 slots. *)
Definition dup_ops1 : list (Op Z) := [OpInsertKey 5; OpInsertKey 3].
Definition dup_ops2 : list (Op Z) :=
  [OpInsertKey 1; OpSortThread; OpGetIterator; OpInsertKey 7; OpInsertKey 11].

(** Three inserts, then an iterator construction that retires the tail
    with three keys in it. *)
Definition batch (n : Z) : list (Op Z) :=
  [OpInsertKey (3 * n); OpInsertKey (3 * n + 1); OpInsertKey (3 * n + 2);
   OpGetIterator].

(** Nine such batches and one more insert: ten vectors of 4 slots, the
    first nine holding 3 keys each. *)
Definition merge_ops : list (Op Z) :=
  concat (batch <$> [0; 1; 2; 3; 4; 5; 6; 7; 8]) ++ [OpInsertKey 100].

Definition merge_sample : SpdbVectorContainer Z :=
  Eval vm_compute in
    spdb_vectors_cont_
      (run (KC := Z_KeyComparator) merge_ops (HashSpdRep_new 3 4)).

(** An unsealed vector of three slots holding two keys, and a sealed
    vector holding three keys in ascending order. *)
Definition unsealed_sample : SpdbVector Z :=
  {| vec_items_ := [Some 3; Some 1; None]; n_elements_ := 2;
     sorted_ := false |}.
Definition sealed_sample : SpdbVector Z :=
  {| vec_items_ := [Some 1; Some 3; Some 5]; n_elements_ := 3;
     sorted_ := true |}.

(** The same shape at the capacity the factory passes (10000): nine
    sealed vectors of 7500 keys each and a tail with one key. *)
Definition retired (n : Z) : SpdbVector Z :=
  {| vec_items_ := Some <$> seqZ (7500 * n) 7500;
     n_elements_ := 7500;
     sorted_ := true |}.

Definition factory_sample : SpdbVectorContainer Z :=
  {| spdb_vectors_ :=
       (retired <$> seqZ 0 9) ++
       [{| vec_items_ := Some 100000 :: replicate (Z.to_nat 9999) None;
           n_elements_ := 1; sorted_ := false |}];
     switch_spdb_vector_limit_ := 10000;
     num_elements_ := 67501;
     immutable_ := false;
     sort_iter_anchor := 9%nat |}.

End HashSpd.

(** ** Iterator wrapper (table/iterator_wrapper.h) *)

Module IterWrapper.

(** Declared in table/internal_iterator.h: the result block an iterator
    fills, with the three fields the wrapper reads and writes. *)
Inductive IterBoundCheck : Type := kUnknown | kOutOfBound | kInbound.

Record IterateResult (Key : Type) : Type := {
  key : Key;
  bound_check_result : IterBoundCheck;
  value_prepared : bool
}.

Arguments key {Key} _.
Arguments bound_check_result {Key} _.
Arguments value_prepared {Key} _.

(** The part of the interface [InternalIteratorBase<TValue>] the wrapper
    calls.  [Iter] is the state of the iterator object; a method that
    changes the object returns its new state. *)
Class InternalIteratorBase (Iter Key : Type) : Type := {
  iter_Valid : Iter -> bool;
  iter_key : Iter -> Key;
  iter_PrepareValue : Iter -> Iter * bool;
  (* NextAndGetResult(IterateResult* result) *)
  iter_NextAndGetResult :
    Iter -> IterateResult Key -> Iter * IterateResult Key * bool;
  iter_Prev : Iter -> Iter;
  iter_Seek : Key -> Iter -> Iter;
  iter_SeekForPrev : Key -> Iter -> Iter;
  iter_SeekToFirst : Iter -> Iter;
  iter_SeekToLast : Iter -> Iter
}.

(** What the wrapper's [assert]s expect of an iterator:
    [NextAndGetResult] reports the validity of the new position and, when
    valid, its key; a successful [PrepareValue] does not move the iterator
    and a failed one leaves it invalid. *)
Record IteratorContract {Iter Key : Type} (II : InternalIteratorBase Iter Key)
  : Prop := {
  next_reports : forall it r,
    let '(it', r', valid) := iter_NextAndGetResult it r in
    valid = iter_Valid it' /\ (valid = true -> key r' = iter_key it');
  prepare_keeps : forall it,
    let '(it', prepared) := iter_PrepareValue it in
    if prepared then
      iter_Valid it' = iter_Valid it /\ iter_key it' = iter_key it
    else iter_Valid it' = false
}.

Section Wrapper.

Context {Iter Key : Type} {II : InternalIteratorBase Iter Key}.

(** [iter_ = None] is the null pointer. *)
Record IteratorWrapperBase : Type := {
  iter_ : option Iter;
  result_ : IterateResult Key;
  valid_ : bool
}.

(** [Update()], on the iterator [it] that [iter_] points to. *)
Definition Update (w : IteratorWrapperBase) (it : Iter) : IteratorWrapperBase :=
  if iter_Valid it then
    {| iter_ := Some it;
       result_ := {| key := iter_key it; bound_check_result := kUnknown;
                     value_prepared := false |};
       valid_ := true |}
  else {| iter_ := Some it; result_ := result_ w; valid_ := false |}.

(** [Set(_iter)]: the new wrapper and the previous underlying iterator. *)
Definition Set_ (w : IteratorWrapperBase) (_iter : option Iter)
  : IteratorWrapperBase * option Iter :=
  let old_iter := iter_ w in
  match _iter with
  | None =>
      ({| iter_ := None; result_ := result_ w; valid_ := false |}, old_iter)
  | Some it => (Update w it, old_iter)
  end.

Definition Valid (w : IteratorWrapperBase) : bool := valid_ w.

Definition wrapper_key (w : IteratorWrapperBase) : Key := key (result_ w).

Definition IsValuePrepared (w : IteratorWrapperBase) : bool :=
  value_prepared (result_ w).

Definition UpperBoundCheckResult (w : IteratorWrapperBase) : IterBoundCheck :=
  bound_check_result (result_ w).

(** The methods below dereference [iter_]; [None] stands for the call on a
    null pointer. *)
Definition PrepareValue (w : IteratorWrapperBase)
  : option (IteratorWrapperBase * bool) :=
  if value_prepared (result_ w) then Some (w, true)
  else
    it ← iter_ w;
    let '(it', prepared) := iter_PrepareValue it in
    if prepared then
      Some ({| iter_ := Some it';
               result_ := {| key := key (result_ w);
                             bound_check_result :=
                               bound_check_result (result_ w);
                             value_prepared := true |};
               valid_ := valid_ w |}, true)
    else
      Some ({| iter_ := Some it'; result_ := result_ w; valid_ := false |},
            false).

Definition Next (w : IteratorWrapperBase) : option IteratorWrapperBase :=
  it ← iter_ w;
  let '(it', result, valid) := iter_NextAndGetResult it (result_ w) in
  Some {| iter_ := Some it'; result_ := result; valid_ := valid |}.

Definition NextAndGetResult (w : IteratorWrapperBase)
  : option (IteratorWrapperBase * IterateResult Key * bool) :=
  it ← iter_ w;
  let '(it', result, valid) := iter_NextAndGetResult it (result_ w) in
  Some ({| iter_ := Some it'; result_ := result; valid_ := valid |},
        result, valid).

Definition Prev (w : IteratorWrapperBase) : option IteratorWrapperBase :=
  it ← iter_ w; Some (Update w (iter_Prev it)).

Definition Seek (w : IteratorWrapperBase) (k : Key)
  : option IteratorWrapperBase :=
  it ← iter_ w; Some (Update w (iter_Seek k it)).

Definition SeekForPrev (w : IteratorWrapperBase) (k : Key)
  : option IteratorWrapperBase :=
  it ← iter_ w; Some (Update w (iter_SeekForPrev k it)).

Definition SeekToFirst (w : IteratorWrapperBase) : option IteratorWrapperBase :=
  it ← iter_ w; Some (Update w (iter_SeekToFirst it)).

Definition SeekToLast (w : IteratorWrapperBase) : option IteratorWrapperBase :=
  it ← iter_ w; Some (Update w (iter_SeekToLast it)).

(** *** Uses of a wrapper *)
Inductive Op : Type :=
  | OpSet (it : Iter)
  | OpPrepareValue
  | OpNext
  | OpNextAndGetResult
  | OpPrev
  | OpSeek (k : Key)
  | OpSeekForPrev (k : Key)
  | OpSeekToFirst
  | OpSeekToLast.

Definition step (w : IteratorWrapperBase) (op : Op)
  : option IteratorWrapperBase :=
  match op with
  | OpSet it => Some (fst (Set_ w (Some it)))
  | OpPrepareValue => fst <$> PrepareValue w
  | OpNext => Next w
  | OpNextAndGetResult => (fun r => fst (fst r)) <$> NextAndGetResult w
  | OpPrev => Prev w
  | OpSeek k => Seek w k
  | OpSeekForPrev k => SeekForPrev w k
  | OpSeekToFirst => SeekToFirst w
  | OpSeekToLast => SeekToLast w
  end.

Fixpoint run (ops : list Op) (w : IteratorWrapperBase)
  : option IteratorWrapperBase :=
  match ops with
  | [] => Some w
  | op :: rest => w' ← step w op; run rest w'
  end.

(** The cache agrees with the underlying iterator. *)
Definition coherent (w : IteratorWrapperBase) : Prop :=
  exists it, iter_ w = Some it /\
             Valid w = iter_Valid it /\
             (Valid w = true -> wrapper_key w = iter_key it).

End Wrapper.

Arguments IteratorWrapperBase Iter Key : clear implicits.
Arguments Op Iter Key : clear implicits.

(** An iterator for the examples: a cursor in an ascending list of integer
    keys; its values are always ready. *)
Definition cursor_key (it : list Z * nat) : Z := nth (snd it) (fst it) 0.
Definition cursor_valid (it : list Z * nat) : bool :=
  Nat.ltb (snd it) (length (fst it)).

#[local] Instance cursor_iterator : InternalIteratorBase (list Z * nat) Z :=
  {| iter_Valid := cursor_valid;
     iter_key := cursor_key;
     iter_PrepareValue := fun it => (it, cursor_valid it);
     iter_NextAndGetResult := fun it r =>
       let it' := (fst it, S (snd it)) in
       (it',
        if cursor_valid it' then
          {| key := cursor_key it'; bound_check_result := kUnknown;
             value_prepared := false |}
        else r,
        cursor_valid it');
     iter_Prev := fun it =>
       (fst it,
        match snd it with
        | O => length (fst it)
        | S position => position
        end);
     iter_Seek := fun k it =>
       (fst it, length (filter (fun e => e < k) (fst it)));
     iter_SeekForPrev := fun k it =>
       (fst it,
        match length (filter (fun e => e <= k) (fst it)) with
        | O => length (fst it)
        | S position => position
        end);
     iter_SeekToFirst := fun it => (fst it, 0%nat);
     iter_SeekToLast := fun it => (fst it, pred (length (fst it))) |}.

Definition blank_wrapper : IteratorWrapperBase (list Z * nat) Z :=
  {| iter_ := None;
     result_ := {| key := 0; bound_check_result := kUnknown;
                   value_prepared := true |};
     valid_ := false |}.

End IterWrapper.

(** Closed arithmetic side conditions are settled by evaluation. *)
Ltac by_evaluation :=
  repeat split; vm_compute; first [reflexivity | discriminate | lia].

(** * Properties *)

(** ** Machine integers *)

Lemma SizeT_wrap_small (x : Z) : SizeT.in_range x -> SizeT.wrap x = x.
Proof. unfold SizeT.in_range, SizeT.wrap. intros Hx. now apply Z.mod_small. Qed.

(** ** Write Buffer Manager *)

Section WBMFacts.

Import WBM.

Lemma ShouldFlush_disabled (w : WriteBufferManager) :
  buffer_size_ w = 0 -> ShouldFlush w = false.
Proof.
  intros Hb. unfold ShouldFlush, enabled, buffer_size. rewrite Hb. simpl.
  now rewrite andb_false_r.
Qed.

(** C1: with [buffer_size = 0] the guard [enabled()] of [ShouldFlush] fails
    and the function falls through to [return false]; the header comment
    of the constructor promises [true].  Evaluated here on a disabled
    manager, with and without flush initiation. *)
Theorem ShouldFlush_disabled_returns_false :
  enabled disabled_wbm = false /\
  ShouldFlush disabled_wbm = false /\
  ShouldFlush
    {| buffer_size_ := 0; mutable_limit_ := 0; memory_used_ := 1048576;
       memory_inactive_ := 0; memory_being_freed_ := 0;
       cache_res_mgr_ := true; allow_stall_ := false; stall_active_ := false;
       initiate_flushes_ := true |} = false.
Proof. repeat split; reflexivity. Qed.

(** C2, as stated, fails on a disabled manager: stalls are allowed and
    [used >= buffer_size] holds (both are 0 or more against 0), yet
    [ShouldStall] answers [false]. *)
Lemma ShouldStall_claim_fails_when_disabled :
  (allow_stall_ disabled_wbm = true /\
   (stall_active_ disabled_wbm = true \/
    buffer_size_ disabled_wbm <= memory_used_ disabled_wbm)) /\
  ShouldStall disabled_wbm = false.
Proof.
  split; [split; [reflexivity | right; simpl; lia] | reflexivity].
Qed.

(** C2, amended: [ShouldStall] is true exactly when stalls are allowed, the
    manager is enabled ([buffer_size > 0]), and a stall is active or
    [used >= buffer_size]. *)
Theorem ShouldStall_iff (w : WriteBufferManager) :
  ShouldStall w = true <->
  allow_stall_ w = true /\ 0 < buffer_size_ w /\
  (stall_active_ w = true \/ buffer_size_ w <= memory_used_ w).
Proof.
  unfold ShouldStall, enabled, buffer_size, IsStallActive,
    IsStallThresholdExceeded, memory_usage.
  destruct (allow_stall_ w); simpl.
  - destruct (Z.ltb_spec 0 (buffer_size_ w)) as [Hpos | Hnpos]; simpl.
    + rewrite orb_true_iff, Z.leb_le. intuition.
    + split; [discriminate | intros (_ & Hlt & _); lia].
  - split; [discriminate | intros (Hf & _); discriminate].
Qed.

(** C10: [mutable_memtable_memory_usage] is [used - inactive] when
    [inactive < used] and 0 otherwise, and the subtraction it performs
    stays inside [size_t]. *)
Theorem mutable_memtable_memory_usage_no_wrap (w : WriteBufferManager) :
  SizeT.in_range (memory_used_ w) ->
  SizeT.in_range (memory_inactive_ w) ->
  mutable_memtable_memory_usage w =
    (if memory_inactive_ w <? memory_used_ w
     then memory_used_ w - memory_inactive_ w else 0) /\
  SizeT.in_range (mutable_memtable_memory_usage w) /\
  (memory_inactive_ w < memory_used_ w ->
   SizeT.sub (memory_used_ w) (memory_inactive_ w) =
     memory_used_ w - memory_inactive_ w).
Proof.
  intros Hu Hi. unfold mutable_memtable_memory_usage, memory_usage.
  assert (Hsub : memory_inactive_ w < memory_used_ w ->
                 SizeT.sub (memory_used_ w) (memory_inactive_ w) =
                   memory_used_ w - memory_inactive_ w).
  { intros Hlt. unfold SizeT.sub. apply SizeT_wrap_small.
    unfold SizeT.in_range in *. lia. }
  destruct (Z.leb_spec (memory_used_ w) (memory_inactive_ w)) as [Hle | Hlt].
  - destruct (Z.ltb_spec (memory_inactive_ w) (memory_used_ w)); [lia |].
    repeat split; try assumption; unfold SizeT.modulus; lia.
  - destruct (Z.ltb_spec (memory_inactive_ w) (memory_used_ w)); [| lia].
    rewrite Hsub by assumption.
    repeat split; try assumption; unfold SizeT.in_range in *; lia.
Qed.

(** The counters of a manager whose inactive bytes exceed the used ones. *)
Lemma mutable_memtable_memory_usage_no_wrap_witness :
  mutable_memtable_memory_usage
    {| buffer_size_ := 100; mutable_limit_ := 87; memory_used_ := 10;
       memory_inactive_ := 20; memory_being_freed_ := 0;
       cache_res_mgr_ := false; allow_stall_ := false;
       stall_active_ := false; initiate_flushes_ := false |} = 0.
Proof.
  refine (proj1 (mutable_memtable_memory_usage_no_wrap
    {| buffer_size_ := 100; mutable_limit_ := 87; memory_used_ := 10;
       memory_inactive_ := 20; memory_being_freed_ := 0;
       cache_res_mgr_ := false; allow_stall_ := false;
       stall_active_ := false; initiate_flushes_ := false |} _ _));
    unfold SizeT.in_range, SizeT.modulus; simpl; lia.
Defined.

End WBMFacts.

(** ** Scoped pinning policy *)

Section PinningFacts.

Import Pinning.

(** C7, as stated, fails when the arithmetic of [size_t] wraps around.
    With a capacity of [2^63] and a mid percentage of 80 the bucket of the
    specification holds more than [7 * 10^18] bytes, yet a pin of 1 byte at
    usage 0 is refused: the product wraps to 0.  And at usage [2^64 - 1] a
    pin of 2 bytes is accepted by the sample policy of 1000 bytes: the sum
    wraps to 1. *)
Lemma CheckPin_claim_fails_on_overflow :
  (0 + 1 <= spec_bucket huge_scoped sample_tpi /\
   7 * 10 ^ 18 < spec_bucket huge_scoped sample_tpi /\
   CheckPin huge_scoped sample_tpi OTHER 0%nat 1 0 = false) /\
  (CheckPin sample_scoped sample_tpi OTHER 0%nat 2 (2 ^ 64 - 1) = true /\
   ~ (2 ^ 64 - 1 + 2 <= spec_bucket sample_scoped sample_tpi)).
Proof.
  assert (Hhuge : spec_bucket huge_scoped sample_tpi = 2 ^ 63 * 80 / 100)
    by reflexivity.
  assert (Hsample : spec_bucket sample_scoped sample_tpi = 800)
    by reflexivity.
  rewrite Hhuge, Hsample.
  split; [split; [| split] | split];
    first [by_evaluation | vm_compute; intros H; now apply H].
Qed.

(** C7, amended: as long as neither [usage + size] nor the product of the
    capacity by the applicable percentage leaves [size_t], [CheckPin]
    accepts a pin exactly when [usage + size] is within the one bucket that
    applies to the request: [capacity × percent / 100] for the last-level
    percentage when the table is in the last level with data and that
    percentage is set, else for the mid percentage when the level is above
    0 and that percentage is set, else the whole capacity.  The bucket is
    computed in unbounded integers; being within it is the same as
    [100 × (usage + size) <= capacity × percent]. *)
Theorem CheckPin_iff_within_spec_bucket
    (options_ : ScopedPinningOptions) (tpi : TablePinningInfo)
    (category : HierarchyCategory) (role : CacheEntryRole) (size usage : Z) :
  0 <= capacity options_ -> 0 <= usage -> 0 <= size ->
  usage + size < SizeT.modulus ->
  (forall percent, spec_percent options_ tpi = Some percent ->
                   capacity options_ * percent < SizeT.modulus) ->
  (CheckPin options_ tpi category role size usage = true <->
   usage + size <= spec_bucket options_ tpi) /\
  (forall percent, spec_percent options_ tpi = Some percent ->
     (usage + size <= spec_bucket options_ tpi <->
      100 * (usage + size) <= capacity options_ * percent)).
Proof.
  intros Hc Hu Hs Hsum Hproduct. split.
  - unfold CheckPin, spec_bucket. unfold spec_percent in *.
    unfold SizeT.add. rewrite (SizeT_wrap_small (usage + size))
      by (unfold SizeT.in_range; lia).
    destruct (is_last_level_with_data tpi &&
              (0 <? last_level_with_data_percent options_)) eqn:Hlast;
      [| destruct ((0 <? level tpi) && (0 <? mid_percent options_)) eqn:Hmid].
    + apply andb_true_iff in Hlast as [_ Hpos]. apply Z.ltb_lt in Hpos.
      specialize (Hproduct _ eq_refl).
      unfold SizeT.mul, SizeT.div.
      rewrite SizeT_wrap_small by (unfold SizeT.in_range; nia).
      destruct (Z.ltb_spec
                  (capacity options_ * last_level_with_data_percent options_
                   / 100) (usage + size));
        split; (discriminate || lia || reflexivity).
    + apply andb_true_iff in Hmid as [_ Hpos]. apply Z.ltb_lt in Hpos.
      specialize (Hproduct _ eq_refl).
      unfold SizeT.mul, SizeT.div.
      rewrite SizeT_wrap_small by (unfold SizeT.in_range; nia).
      destruct (Z.ltb_spec (capacity options_ * mid_percent options_ / 100)
                  (usage + size));
        split; (discriminate || lia || reflexivity).
    + destruct (Z.ltb_spec (capacity options_) (usage + size));
        split; (discriminate || lia || reflexivity).
  - intros percent Hpercent. unfold spec_bucket. rewrite Hpercent.
    split; intros Hle.
    + pose proof (Z.mul_div_le (capacity options_ * percent) 100). lia.
    + apply Z.div_le_lower_bound; lia.
Qed.

(** A level-2 table against the sample policy: the mid bucket is 800 bytes,
    so 500 bytes on top of 300 are accepted. *)
Lemma CheckPin_iff_within_spec_bucket_witness :
  CheckPin sample_scoped sample_tpi OTHER 0%nat 500 300 = true <->
  300 + 500 <= spec_bucket sample_scoped sample_tpi.
Proof.
  refine (proj1 (CheckPin_iff_within_spec_bucket sample_scoped sample_tpi
                   OTHER 0%nat 500 300 _ _ _ _ _)).
  - simpl. lia.
  - lia.
  - lia.
  - unfold SizeT.modulus. lia.
  - intros percent Hpercent. vm_compute in Hpercent.
    injection Hpercent as <-. vm_compute. reflexivity.
Defined.

End PinningFacts.

(** ** Adaptive table dispatch *)

Section AdaptiveFacts.

Import Adaptive.

Context {RandomAccessFileReader TableReader ReadOptions TableReaderOptions
  : Type}.

Lemma recognized_false (magic : MagicNumbers) (m : Z) :
  recognized magic m = false <->
  m <> kPlainTableMagicNumber magic /\
  m <> kLegacyPlainTableMagicNumber magic /\
  m <> kBlockBasedTableMagicNumber magic /\
  m <> kLegacyBlockBasedTableMagicNumber magic /\
  m <> kCuckooTableMagicNumber magic.
Proof.
  unfold recognized. rewrite !orb_false_iff, !Z.eqb_neq. tauto.
Qed.

(** C8: once the footer has been read, [NewTableReader] hands the file to
    the plain factory for the plain and legacy-plain magic numbers, to the
    block-based factory for the block-based and legacy block-based ones, to
    the cuckoo factory for the cuckoo one, and for every other magic number
    it returns [NotSupported] and leaves [table] as it was: no factory is
    called. *)
Theorem NewTableReader_dispatch
    (magic : MagicNumbers)
    (ReadFooterFromFile : RandomAccessFileReader -> Z -> Status * Footer)
    (f : AdaptiveTableFactory RandomAccessFileReader TableReader ReadOptions
           TableReaderOptions)
    (ro : ReadOptions) (tro : TableReaderOptions)
    (file : RandomAccessFileReader) (file_size : Z)
    (table : option TableReader) (prefetch : bool)
    (s : Status) (footer : Footer) :
  ReadFooterFromFile file file_size = (s, footer) ->
  ok s = true ->
  let m := table_magic_number footer in
  let result :=
    Adaptive_NewTableReader magic ReadFooterFromFile f ro tro file file_size
      table prefetch in
  (m = kPlainTableMagicNumber magic \/ m = kLegacyPlainTableMagicNumber magic ->
   result = NewTableReader (plain_table_factory_ f) tro file file_size table)
  /\
  (m <> kPlainTableMagicNumber magic ->
   m <> kLegacyPlainTableMagicNumber magic ->
   m = kBlockBasedTableMagicNumber magic \/
   m = kLegacyBlockBasedTableMagicNumber magic ->
   result = NewTableReader_ro (block_based_table_factory_ f) ro tro file
              file_size table prefetch)
  /\
  (m <> kPlainTableMagicNumber magic ->
   m <> kLegacyPlainTableMagicNumber magic ->
   m <> kBlockBasedTableMagicNumber magic ->
   m <> kLegacyBlockBasedTableMagicNumber magic ->
   m = kCuckooTableMagicNumber magic ->
   result = NewTableReader (cuckoo_table_factory_ f) tro file file_size table)
  /\
  (recognized magic m = false ->
   result = (Status_NotSupported "Unidentified table format", table) /\
   code (fst result) = kNotSupported /\ snd result = table).
Proof.
  intros Hfooter Hok m result. subst result.
  unfold Adaptive_NewTableReader. rewrite Hfooter, Hok. simpl. fold m.
  split; [| split; [| split]].
  - intros [-> | ->]; rewrite Z.eqb_refl; simpl;
      [reflexivity | now rewrite orb_true_r].
  - intros Hp Hlp Hbb.
    apply Z.eqb_neq in Hp, Hlp. rewrite Hp, Hlp. simpl.
    destruct Hbb as [-> | ->]; rewrite Z.eqb_refl; simpl;
      [reflexivity | now rewrite orb_true_r].
  - intros Hp Hlp Hbb Hlbb ->.
    apply Z.eqb_neq in Hp, Hlp, Hbb, Hlbb. rewrite Hp, Hlp, Hbb, Hlbb. simpl.
    now rewrite Z.eqb_refl.
  - intros Hno.
    apply recognized_false in Hno as (Hp & Hlp & Hbb & Hlbb & Hc).
    apply Z.eqb_neq in Hp, Hlp, Hbb, Hlbb, Hc.
    rewrite Hp, Hlp, Hbb, Hlbb, Hc. simpl. repeat split.
Qed.

End AdaptiveFacts.

(** A footer whose magic number is none of the five: the open fails with
    [NotSupported] and the reader slot stays empty. *)
Lemma NewTableReader_dispatch_witness :
  Adaptive.Adaptive_NewTableReader Adaptive.sample_magic
    (fun _ _ => (Adaptive.Status_OK, {| Adaptive.table_magic_number := 42 |}))
    Adaptive.sample_adaptive tt tt tt 4096 None true =
  (Adaptive.Status_NotSupported "Unidentified table format", None).
Proof.
  refine (proj1 (proj2 (proj2 (proj2
    (NewTableReader_dispatch Adaptive.sample_magic
       (fun _ _ =>
          (Adaptive.Status_OK, {| Adaptive.table_magic_number := 42 |}))
       Adaptive.sample_adaptive tt tt tt 4096 None true
       Adaptive.Status_OK {| Adaptive.table_magic_number := 42 |}
       _ _))) _)); reflexivity.
Defined.

(** ** Hybrid compaction picker *)

Section HybridFacts.

Import Hybrid.

Variable LastLevelInHyper : Z -> Z.
Variable PrevPlace_empty : PrevPlace -> bool.

(** C3, amended: [MayStartLevelCompaction(H)] holds exactly when [H] has no
    running compaction and, when [H] is not the last hyper-level, either
    the cursor [prevSubCompaction_[H]] is not empty or level
    [LastLevelInHyper(H) + 1] is empty. *)
Theorem MayStartLevelCompaction_iff
    (p : HybridCompactionPicker) (H : Z)
    (running : HybridComactionsDescribtors) (vstorage : VersionStorageInfo) :
  MayStartLevelCompaction LastLevelInHyper PrevPlace_empty p H running vstorage
    = Some true <->
  (exists d, entries running !! Z.to_nat H = Some d /\ nCompactions d = 0%nat)
  /\
  (H <> curNumOfHyperLevels_ p ->
   exists prev, prevSubCompaction_ p !! Z.to_nat H = Some prev /\
     (PrevPlace_empty prev = false \/
      LevelFiles vstorage (level_below LastLevelInHyper H) = Some [])).
Proof.
  unfold MayStartLevelCompaction, level_below.
  destruct (entries running !! Z.to_nat H) as [d |] eqn:Hd; simpl.
  2: { split; [discriminate | intros [(d & Hd' & _) _]; discriminate]. }
  destruct (Nat.ltb_spec 0 (nCompactions d)) as [Hrun | Hidle].
  { split; [discriminate |].
    intros [(d' & [= <-] & Hz) _]. lia. }
  assert (Hz : nCompactions d = 0%nat) by lia.
  destruct (Z.eqb_spec H (curNumOfHyperLevels_ p)) as [Hlast | Hnot]; simpl.
  { split; [| reflexivity]. intros _. split; [eauto | congruence]. }
  destruct (prevSubCompaction_ p !! Z.to_nat H) as [prev |] eqn:Hprev; simpl.
  2: { split; [discriminate |].
       intros [_ Hc]. destruct (Hc Hnot) as (prev & Hp & _). discriminate. }
  destruct (PrevPlace_empty prev) eqn:Hempty.
  - destruct (LevelFiles vstorage _) as [[| file files] |] eqn:Hfiles; simpl.
    + split; [| reflexivity]. intros _. split; [eauto |].
      intros _. exists prev. split; [reflexivity | now right].
    + split; [discriminate |].
      intros [_ Hc]. destruct (Hc Hnot) as (prev' & [= <-] & [Hf | Hf]);
        congruence.
    + split; [discriminate |].
      intros [_ Hc]. destruct (Hc Hnot) as (prev' & [= <-] & [Hf | Hf]);
        congruence.
  - split; [| reflexivity]. intros _. split; [eauto |].
    intros _. exists prev. split; [reflexivity | now left].
Qed.

(** The predicate is defined whenever its three accesses are in range. *)
Lemma MayStartLevelCompaction_defined
    (p : HybridCompactionPicker) (H : Z)
    (running : HybridComactionsDescribtors) (vstorage : VersionStorageInfo) :
  is_Some (entries running !! Z.to_nat H) ->
  is_Some (prevSubCompaction_ p !! Z.to_nat H) ->
  is_Some (LevelFiles vstorage (level_below LastLevelInHyper H)) ->
  is_Some (MayStartLevelCompaction LastLevelInHyper PrevPlace_empty p H
             running vstorage).
Proof.
  unfold MayStartLevelCompaction, level_below.
  intros [d ->] [prev ->] [files ->]. simpl.
  destruct (Nat.ltb 0 (nCompactions d)); [eauto |].
  destruct (negb (H =? curNumOfHyperLevels_ p)); [| eauto].
  destruct (PrevPlace_empty prev); [| eauto].
  destruct files; eauto.
Qed.

(** Whatever the header declares, an idle hyper-level that is not the last
    one, with an unset cursor, may not start a compaction while the level
    below it holds a file. *)
Lemma MayStartLevelCompaction_unset_cursor_busy_target
    (p : HybridCompactionPicker) (H : Z)
    (running : HybridComactionsDescribtors) (vstorage : VersionStorageInfo)
    (prev : PrevPlace) (file : FileMetaData) (files : list FileMetaData) :
  H <> curNumOfHyperLevels_ p ->
  prevSubCompaction_ p !! Z.to_nat H = Some prev ->
  PrevPlace_empty prev = true ->
  LevelFiles vstorage (level_below LastLevelInHyper H) = Some (file :: files) ->
  MayStartLevelCompaction LastLevelInHyper PrevPlace_empty p H running vstorage
    <> Some true.
Proof.
  intros Hnot Hprev Hempty Hfiles. unfold MayStartLevelCompaction.
  destruct (entries running !! Z.to_nat H) as [d |]; simpl; [| discriminate].
  destruct (Nat.ltb 0 (nCompactions d)); [discriminate |].
  apply Z.eqb_neq in Hnot. rewrite Hnot, Hprev. simpl.
  rewrite Hempty, Hfiles. discriminate.
Qed.

End HybridFacts.

(** C3, as stated, fails: hyper-level 1 of two is idle and its cursor is
    empty, so the stated right-hand side holds, but level 5 right below it
    holds a file and [MayStartLevelCompaction] answers [false]. *)
Lemma MayStartLevelCompaction_claim_fails :
  ((exists d, Hybrid.entries Hybrid.sample_running !! 1%nat = Some d /\
              Hybrid.nCompactions d = 0%nat) /\
   (1 <> Hybrid.curNumOfHyperLevels_ Hybrid.sample_picker ->
    exists prev,
      Hybrid.prevSubCompaction_ Hybrid.sample_picker !! 1%nat = Some prev /\
      (Hybrid.sample_empty prev = true \/
       Hybrid.LevelFiles Hybrid.sample_vstorage
         (Hybrid.level_below Hybrid.sample_LastLevelInHyper 1) = Some []))) /\
  Hybrid.LevelFiles Hybrid.sample_vstorage
    (Hybrid.level_below Hybrid.sample_LastLevelInHyper 1) =
    Some [Hybrid.sample_file] /\
  Hybrid.MayStartLevelCompaction Hybrid.sample_LastLevelInHyper
    Hybrid.sample_empty Hybrid.sample_picker 1 Hybrid.sample_running
    Hybrid.sample_vstorage = Some false.
Proof.
  split; [split |].
  - exists Hybrid.idle. split; reflexivity.
  - intros _. exists Hybrid.unset_cursor. split; [reflexivity | now left].
  - split; reflexivity.
Qed.

(** ** Hash + sorted-vector memtable *)

Section HashSpdFacts.

Import HashSpd.

Context {Key : Type} {KC : KeyComparator Key}.
Hypothesis order : ComparatorOrder KC.

Lemma Add_from_sorted (l l' : list Key) (val : Key) :
  StronglySorted key_lt l -> Add_from l val = Some l' ->
  StronglySorted key_lt l' /\ l' ≡ₚ val :: l /\
  Forall (fun e => comparator e val <> 0) l.
Proof.
  revert l'. induction l as [| e l IH]; intros l' Hs Hadd; simpl in Hadd.
  - injection Hadd as <-. repeat split; auto. repeat constructor.
  - apply StronglySorted_inv in Hs as [Hs He].
    destruct (Z.eqb_spec (comparator e val) 0) as [Heq | Hne]; [discriminate |].
    destruct (Z.ltb_spec 0 (comparator e val)) as [Hgt | Hle].
    + injection Hadd as <-.
      assert (Hlt : key_lt val e) by (apply (cmp_antisym _ order); exact Hgt).
      split; [| split].
      * constructor; [constructor; assumption |].
        constructor; [exact Hlt |].
        eapply Forall_impl; [exact He |].
        intros x Hx. eapply (cmp_trans _ order); eassumption.
      * reflexivity.
      * constructor; [exact Hne |].
        eapply Forall_impl; [exact He |].
        intros x Hx Hx0.
        pose proof (cmp_lt_eq _ order _ _ _ Hx Hx0). lia.
    + destruct (Add_from l val) as [l'' |] eqn:Hrec; [| discriminate].
      injection Hadd as <-.
      destruct (IH l'' Hs eq_refl) as (Hs'' & Hperm & Hno).
      assert (Hev : key_lt e val) by (unfold key_lt; lia).
      split; [| split].
      * constructor; [exact Hs'' |].
        rewrite Hperm. constructor; assumption.
      * rewrite Hperm. apply perm_swap.
      * constructor; assumption.
Qed.

Lemma Add_from_None (l : list Key) (val : Key) :
  Add_from l val = None -> Exists (fun e => comparator e val = 0) l.
Proof.
  induction l as [| e l IH]; simpl; [discriminate |].
  destruct (Z.eqb_spec (comparator e val) 0) as [Heq | Hne].
  - intros _. now constructor.
  - destruct (0 <? comparator e val); [discriminate |].
    destruct (Add_from l val); [discriminate |].
    intros _. apply Exists_cons_tl. now apply IH.
Qed.

Lemma Add_from_duplicate (l : list Key) (k k' : Key) :
  StronglySorted key_lt l -> k ∈ l -> comparator k k' = 0 ->
  Add_from l k' = None.
Proof.
  intros Hs Hin Heq. induction l as [| e l IH]; [inversion Hin |].
  apply StronglySorted_inv in Hs as [Hs He]. simpl.
  destruct (Z.eqb_spec (comparator e k') 0) as [| Hne]; [reflexivity |].
  apply elem_of_cons in Hin as [-> | Hin]; [contradiction |].
  assert (Hek : key_lt e k) by (rewrite Forall_forall in He; now apply He).
  pose proof (cmp_lt_eq _ order _ _ _ Hek Heq) as Hlt.
  destruct (Z.ltb_spec 0 (comparator e k')); [lia |].
  now rewrite IH.
Qed.

Lemma Contains_from_iff (l : list Key) (k : Key) :
  StronglySorted key_lt l ->
  Contains_from l k = true <-> exists e, e ∈ l /\ comparator e k = 0.
Proof.
  intros Hs. induction l as [| e l IH]; simpl.
  - split; [discriminate | intros (x & Hx & _); inversion Hx].
  - apply StronglySorted_inv in Hs as [Hs He].
    destruct (Z.eqb_spec (comparator e k) 0) as [Heq | Hne].
    + split; [| reflexivity]. intros _. exists e. split; [left | exact Heq].
    + destruct (Z.ltb_spec 0 (comparator e k)) as [Hgt | Hle].
      * split; [discriminate |].
        intros (x & Hx & Hx0). apply elem_of_cons in Hx as [-> | Hx];
          [contradiction |].
        rewrite Forall_forall in He.
        pose proof (cmp_lt_eq _ order _ _ _ (He x Hx) Hx0). lia.
      * rewrite (IH Hs). split.
        -- intros (x & Hx & Hx0). exists x. split; [now right | exact Hx0].
        -- intros (x & Hx & Hx0). apply elem_of_cons in Hx as [-> | Hx];
             [contradiction |]. eauto.
Qed.

Lemma filter_Forall_id {A : Type} (P : A -> Prop) `{forall x, Decision (P x)}
    (l : list A) :
  Forall P l -> filter P l = l.
Proof.
  induction 1 as [| x l Hx Hl IH]; [reflexivity |].
  rewrite filter_cons_True by exact Hx. now rewrite IH.
Qed.

Lemma Get_seek_filter (l : list Key) (k : Key) :
  StronglySorted key_lt l ->
  Get_seek l k = filter (fun e => 0 <= comparator e k) l.
Proof.
  intros Hs. induction l as [| e l IH]; [reflexivity |].
  apply StronglySorted_inv in Hs as [Hs He]. simpl.
  destruct (Z.leb_spec 0 (comparator e k)) as [Hge | Hlt].
  - symmetry. apply filter_Forall_id. constructor; [exact Hge |].
    eapply Forall_impl; [exact He |].
    intros x Hx. destruct (Z.le_gt_cases 0 (comparator x k)) as [| Hxk];
      [assumption |].
    pose proof (cmp_trans _ order _ _ _ Hx Hxk). lia.
  - rewrite filter_cons_False by lia. now apply IH.
Qed.


(** *** Hash table *)

Lemma SpdbHashTable_Add_length (t t' : SpdbHashTable Key) (val : Key) (r : bool) :
  SpdbHashTable_Add t val = (r, t') ->
  length (buckets_ t') = length (buckets_ t).
Proof.
  unfold SpdbHashTable_Add.
  destruct (buckets_ t !! bucket_index t val) as [b |]; [| now intros [= _ <-]].
  destruct (BucketHeader_Add b val) as [r' b']. intros [= _ <-]. simpl.
  apply length_insert.
Qed.

Lemma SpdbHashTable_Add_index (t t' : SpdbHashTable Key) (val k : Key) (r : bool) :
  SpdbHashTable_Add t val = (r, t') -> bucket_index t' k = bucket_index t k.
Proof.
  intros Hadd. unfold bucket_index.
  now rewrite (SpdbHashTable_Add_length _ _ _ _ Hadd).
Qed.

Lemma SpdbHashTable_Add_sorted (t t' : SpdbHashTable Key) (val : Key) (r : bool) :
  Forall bucket_sorted (buckets_ t) ->
  SpdbHashTable_Add t val = (r, t') ->
  Forall bucket_sorted (buckets_ t').
Proof.
  intros Hs. unfold SpdbHashTable_Add.
  destruct (buckets_ t !! bucket_index t val) as [b |] eqn:Hb;
    [| now intros [= _ <-]].
  unfold BucketHeader_Add.
  destruct (Add_from (items_ b) val) as [chain |] eqn:Hadd;
    intros [= _ <-]; simpl; apply Forall_insert; try exact Hs.
  - apply (Add_from_sorted _ _ _ (Forall_lookup_1 _ _ _ _ Hs Hb) Hadd).
  - apply (Forall_lookup_1 _ _ _ _ Hs Hb).
Qed.

(** A successful [Add] links [val] in its home bucket and changes nothing
    else. *)
Lemma SpdbHashTable_Add_true (t t' : SpdbHashTable Key) (val : Key) :
  Forall bucket_sorted (buckets_ t) ->
  SpdbHashTable_Add t val = (true, t') ->
  exists b chain,
    buckets_ t !! bucket_index t val = Some b /\
    Add_from (items_ b) val = Some chain /\
    buckets_ t' = <[bucket_index t val := {| items_ := chain |}]> (buckets_ t) /\
    chain ≡ₚ val :: items_ b.
Proof.
  intros Hs. unfold SpdbHashTable_Add.
  destruct (buckets_ t !! bucket_index t val) as [b |] eqn:Hb;
    [| discriminate].
  unfold BucketHeader_Add.
  destruct (Add_from (items_ b) val) as [chain |] eqn:Hadd; [| discriminate].
  intros [= <-]. exists b, chain.
  split; [reflexivity | split; [exact Hadd | split; [reflexivity |]]].
  apply (Add_from_sorted _ _ _ (Forall_lookup_1 _ _ _ _ Hs Hb) Hadd).
Qed.

Lemma concat_insert_Permutation {A : Type} (ls : list (list A)) (i : nat)
    (l l' : list A) (x : A) :
  ls !! i = Some l -> l' ≡ₚ x :: l ->
  concat (<[i := l']> ls) ≡ₚ x :: concat ls.
Proof.
  revert i. induction ls as [| l0 ls IH]; intros [| i] Hi Hp;
    simpl in *; try discriminate.
  - injection Hi as ->. now rewrite Hp.
  - rewrite (IH i Hi Hp). symmetry. apply Permutation_middle.
Qed.

Lemma SpdbHashTable_Add_keys (t t' : SpdbHashTable Key) (val : Key) :
  Forall bucket_sorted (buckets_ t) ->
  SpdbHashTable_Add t val = (true, t') ->
  table_keys t' ≡ₚ val :: table_keys t.
Proof.
  intros Hs Hadd. unfold table_keys.
  destruct (SpdbHashTable_Add_true _ _ _ Hs Hadd)
    as (b & chain & Hb & _ & -> & Hp).
  rewrite list_fmap_insert. simpl.
  apply concat_insert_Permutation with (l := items_ b); [| exact Hp].
  now rewrite list_lookup_fmap, Hb.
Qed.

Lemma SpdbHashTable_Add_linked_new (t t' : SpdbHashTable Key) (val : Key) :
  Forall bucket_sorted (buckets_ t) ->
  SpdbHashTable_Add t val = (true, t') -> linked t' val.
Proof.
  intros Hs Hadd.
  destruct (SpdbHashTable_Add_true _ _ _ Hs Hadd) as (b & chain & Hb & _ & Ht' & Hp).
  unfold linked. rewrite (SpdbHashTable_Add_index _ _ _ val _ Hadd), Ht'.
  exists {| items_ := chain |}. split.
  - apply list_lookup_insert_eq. now apply lookup_lt_Some in Hb.
  - simpl. rewrite Hp. now left.
Qed.

Lemma SpdbHashTable_Add_linked (t t' : SpdbHashTable Key) (val k : Key) (r : bool) :
  Forall bucket_sorted (buckets_ t) ->
  SpdbHashTable_Add t val = (r, t') -> linked t k -> linked t' k.
Proof.
  intros Hs Hadd (b & Hb & Hin). unfold linked.
  rewrite (SpdbHashTable_Add_index _ _ _ k _ Hadd).
  destruct r.
  - destruct (SpdbHashTable_Add_true _ _ _ Hs Hadd)
      as (b0 & chain & Hb0 & _ & -> & Hp).
    destruct (decide (bucket_index t val = bucket_index t k)) as [Heq | Hne].
    + rewrite Heq in *. rewrite Hb in Hb0. injection Hb0 as <-.
      exists {| items_ := chain |}. split.
      * apply list_lookup_insert_eq. now apply lookup_lt_Some in Hb.
      * simpl. rewrite Hp. now right.
    + exists b. split; [| exact Hin]. now rewrite list_lookup_insert_ne.
  - revert Hadd. unfold SpdbHashTable_Add.
    destruct (buckets_ t !! bucket_index t val) as [b0 |] eqn:Hb0.
    + unfold BucketHeader_Add. destruct (Add_from (items_ b0) val);
        [discriminate |]. intros [= <-]. simpl.
      rewrite list_insert_id by exact Hb0. eauto.
    + intros [= <-]. eauto.
Qed.

Lemma SpdbHashTable_Add_home (t t' : SpdbHashTable Key) (val : Key) (r : bool) :
  Forall bucket_sorted (buckets_ t) ->
  (forall i b e, buckets_ t !! i = Some b -> e ∈ items_ b ->
                 bucket_index t e = i) ->
  SpdbHashTable_Add t val = (r, t') ->
  forall i b e, buckets_ t' !! i = Some b -> e ∈ items_ b ->
                bucket_index t' e = i.
Proof.
  intros Hs Hhome Hadd i b e Hb Hin.
  rewrite (SpdbHashTable_Add_index _ _ _ e _ Hadd).
  destruct r.
  - destruct (SpdbHashTable_Add_true _ _ _ Hs Hadd)
      as (b0 & chain & Hb0 & _ & Ht' & Hp).
    rewrite Ht' in Hb.
    destruct (decide (bucket_index t val = i)) as [Heq | Hne].
    + subst i. rewrite list_lookup_insert_eq in Hb
        by (now apply lookup_lt_Some in Hb0).
      injection Hb as <-. simpl in Hin. rewrite Hp in Hin.
      apply elem_of_cons in Hin as [-> | Hin]; [reflexivity |].
      now apply (Hhome _ b0).
    + rewrite list_lookup_insert_ne in Hb by exact Hne. now apply (Hhome _ b).
  - revert Hadd Hb. unfold SpdbHashTable_Add.
    destruct (buckets_ t !! bucket_index t val) as [b0 |] eqn:Hb0.
    + unfold BucketHeader_Add. destruct (Add_from (items_ b0) val);
        [discriminate |]. intros [= <-]. simpl.
      rewrite list_insert_id by exact Hb0. intros Hb. now apply (Hhome _ b).
    + intros [= <-] Hb. now apply (Hhome _ b).
Qed.

(** A key that compares equal to a linked key is refused. *)
Lemma SpdbHashTable_Add_duplicate (t : SpdbHashTable Key) (k k' : Key) :
  HashRespectsComparator KC ->
  Forall bucket_sorted (buckets_ t) ->
  linked t k -> comparator k k' = 0 ->
  fst (SpdbHashTable_Add t k') = false.
Proof.
  intros Hhash Hs (b & Hb & Hin) Heq.
  unfold SpdbHashTable_Add.
  assert (Hidx : bucket_index t k' = bucket_index t k).
  { unfold bucket_index. now rewrite (Hhash _ _ Heq). }
  rewrite Hidx, Hb. unfold BucketHeader_Add.
  rewrite (Add_from_duplicate _ k k'); [reflexivity | | exact Hin | exact Heq].
  apply (Forall_lookup_1 _ _ _ _ Hs Hb).
Qed.

Lemma SpdbHashTable_Contains_linked (t : SpdbHashTable Key) (k k' : Key) :
  HashRespectsComparator KC ->
  Forall bucket_sorted (buckets_ t) ->
  linked t k -> comparator k k' = 0 ->
  SpdbHashTable_Contains t k' = true.
Proof.
  intros Hhash Hs (b & Hb & Hin) Heq.
  unfold SpdbHashTable_Contains.
  assert (Hidx : bucket_index t k' = bucket_index t k).
  { unfold bucket_index. now rewrite (Hhash _ _ Heq). }
  rewrite Hidx, Hb. unfold BucketHeader_Contains.
  apply Contains_from_iff; [apply (Forall_lookup_1 _ _ _ _ Hs Hb) |].
  eauto.
Qed.


(** *** Sorted vectors *)

Lemma omap_id_Some (ks : list Key) : omap id (Some <$> ks) = ks.
Proof.
  induction ks as [| k ks IH]; [reflexivity |].
  simpl. f_equal. exact IH.
Qed.

Lemma omap_id_None (m : nat) : omap id (replicate m (@None Key)) = [].
Proof. induction m as [| m IH]; simpl; [reflexivity | exact IH]. Qed.

Lemma vector_keys_prefix (v : SpdbVector Key) (ks : list Key) (m : nat) :
  vec_items_ v = (Some <$> ks) ++ replicate m None -> vector_keys v = ks.
Proof.
  intros Hv. unfold vector_keys. rewrite Hv, omap_app, omap_id_Some, omap_id_None.
  apply app_nil_r.
Qed.

Lemma vector_keys_unfold (v : SpdbVector Key) :
  vector_keys v = omap id (vec_items_ v).
Proof. reflexivity. Qed.

Lemma SpdbVector_new_wf (limit : Z) : vec_wf (@SpdbVector_new Key limit).
Proof.
  exists [], (Z.to_nat limit). simpl. split; [reflexivity |]. split; [lia | now right].
Qed.

Lemma SpdbVector_new_keys (limit : Z) :
  vector_keys (@SpdbVector_new Key limit) = [].
Proof. apply (vector_keys_prefix _ [] (Z.to_nat limit)). reflexivity. Qed.

Lemma SpdbVector_Add_room (v : SpdbVector Key) (key : Key) :
  vec_wf v ->
  n_elements_ v < Z.of_nat (length (vec_items_ v)) ->
  Z.of_nat (length (vec_items_ v)) < SizeT.modulus ->
  exists v', SpdbVector_Add v key = (true, v') /\ vec_wf v' /\
    vector_keys v' = vector_keys v ++ [key] /\
    n_elements_ v' = n_elements_ v + 1 /\
    length (vec_items_ v') = length (vec_items_ v).
Proof.
  intros (ks & m & Hitems & Hn & Hm) Hroom Hsize.
  assert (Hlen : length (vec_items_ v) = (length ks + m)%nat).
  { rewrite Hitems, length_app, length_fmap, length_replicate. reflexivity. }
  assert (Hnk : n_elements_ v = Z.of_nat (length ks)) by lia.
  destruct m as [| m]; [lia |].
  unfold SpdbVector_Add.
  destruct (Z.ltb_spec (n_elements_ v) (Z.of_nat (length (vec_items_ v))));
    [| lia].
  eexists. split; [reflexivity |].
  assert (Hins : <[Z.to_nat (n_elements_ v) := Some key]> (vec_items_ v) =
                 (Some <$> (ks ++ [key])) ++ replicate m None).
  { rewrite Hitems, Hnk, Nat2Z.id.
    rewrite insert_app_r_alt by (rewrite length_fmap; lia).
    rewrite length_fmap, Nat.sub_diag. simpl.
    rewrite fmap_app. simpl. now rewrite <- app_assoc. }
  assert (Hadd : SizeT.add (n_elements_ v) 1 = n_elements_ v + 1).
  { unfold SizeT.add. apply SizeT_wrap_small. unfold SizeT.in_range. lia. }
  split; [| split; [| split]]; simpl.
  - exists (ks ++ [key]), m. simpl. split; [exact Hins |].
    rewrite Hadd, length_app. simpl. split; [lia | right; lia].
  - rewrite (vector_keys_prefix v ks (S m) Hitems).
    apply (vector_keys_prefix _ (ks ++ [key]) m). exact Hins.
  - exact Hadd.
  - apply length_insert.
Qed.

Lemma SpdbVector_Add_full (v : SpdbVector Key) (key : Key) :
  vec_wf v ->
  Z.of_nat (length (vec_items_ v)) <= n_elements_ v ->
  n_elements_ v + 1 < SizeT.modulus ->
  exists v', SpdbVector_Add v key = (false, v') /\ vec_wf v' /\
    vec_items_ v' = vec_items_ v /\
    n_elements_ v' = n_elements_ v + 1.
Proof.
  intros (ks & m & Hitems & Hn & Hm) Hfull Hsize.
  assert (Hlen : length (vec_items_ v) = (length ks + m)%nat).
  { rewrite Hitems, length_app, length_fmap, length_replicate. reflexivity. }
  unfold SpdbVector_Add.
  destruct (Z.ltb_spec (n_elements_ v) (Z.of_nat (length (vec_items_ v))));
    [lia |].
  assert (Hadd : SizeT.add (n_elements_ v) 1 = n_elements_ v + 1).
  { unfold SizeT.add. apply SizeT_wrap_small. unfold SizeT.in_range. lia. }
  eexists. split; [reflexivity |]. simpl.
  split; [| split; [reflexivity | exact Hadd]].
  exists ks, m. simpl. split; [exact Hitems |]. rewrite Hadd.
  split; [lia | left; lia].
Qed.

Lemma sort_insert_Permutation {A : Type} (less : A -> A -> bool) (x : A)
    (l : list A) :
  sort_insert less x l ≡ₚ x :: l.
Proof.
  induction l as [| y l IH]; simpl; [reflexivity |].
  destruct (less y x); [| reflexivity].
  rewrite IH. apply perm_swap.
Qed.

Lemma std_sort_Permutation {A : Type} (less : A -> A -> bool) (l : list A) :
  std_sort less l ≡ₚ l.
Proof.
  unfold std_sort. induction l as [| x l IH]; simpl; [reflexivity |].
  rewrite sort_insert_Permutation. now rewrite IH.
Qed.

Lemma Forall_is_Some_fmap (l : list (option Key)) :
  Forall is_Some l -> l = Some <$> omap id l.
Proof.
  induction 1 as [| o l [k ->] Hl IH]; [reflexivity |].
  simpl. f_equal. exact IH.
Qed.

Lemma SpdbVector_Sort_wf (v : SpdbVector Key) :
  vec_wf v ->
  vec_wf (snd (SpdbVector_Sort v)) /\
  vector_keys (snd (SpdbVector_Sort v)) ≡ₚ vector_keys v /\
  (fst (SpdbVector_Sort v) = false -> vector_keys v = []) /\
  n_elements_ (snd (SpdbVector_Sort v)) <= n_elements_ v.
Proof.
  intros Hwf. pose proof Hwf as (ks & m & Hitems & Hn & Hm).
  assert (Hlen : length (vec_items_ v) = (length ks + m)%nat).
  { rewrite Hitems, length_app, length_fmap, length_replicate. reflexivity. }
  assert (Hkeys : vector_keys v = ks) by (apply (vector_keys_prefix v ks m Hitems)).
  unfold SpdbVector_Sort.
  destruct (Z.eqb_spec (n_elements_ v) 0) as [Hz | Hnz]; simpl.
  { repeat split; try assumption; try reflexivity; try lia.
    intros _. rewrite Hkeys. destruct ks; [reflexivity | simpl in Hn; lia]. }
  destruct (sorted_ v); simpl.
  { repeat split; try assumption; try reflexivity; try lia; discriminate. }
  set (size := Z.of_nat (length (vec_items_ v))).
  set (num := Z.min (n_elements_ v) size).
  assert (Hnum : num = Z.of_nat (length ks)) by (unfold num, size; lia).
  assert (Htrunc :
    (if num <? size then take (Z.to_nat num) (vec_items_ v) else vec_items_ v)
    = Some <$> ks).
  { destruct (Z.ltb_spec num size) as [Hlt | Hge].
    - rewrite Hnum, Nat2Z.id, Hitems.
      rewrite take_app_length' by (now rewrite length_fmap). reflexivity.
    - assert (m = 0%nat) by (unfold size in Hge; lia). subst m.
      rewrite Hitems. simpl. apply app_nil_r. }
  rewrite Htrunc.
  set (sorted := std_sort slot_less (Some <$> ks)).
  assert (Hperm : sorted ≡ₚ Some <$> ks) by apply std_sort_Permutation.
  assert (Hsome : sorted = Some <$> omap id sorted).
  { apply Forall_is_Some_fmap. rewrite Hperm.
    apply Forall_fmap, Forall_true. intros k. now exists k. }
  assert (Hks' : omap id sorted ≡ₚ ks).
  { rewrite Hperm. now rewrite omap_id_Some. }
  split; [| split; [| split]].
  - exists (omap id sorted), 0%nat. simpl. rewrite app_nil_r.
    split; [exact Hsome |]. rewrite Hks'. split; [lia | now left].
  - rewrite Hkeys. unfold vector_keys. simpl. exact Hks'.
  - discriminate.
  - lia.
Qed.


(** *** Vector container *)

Lemma insert_last {A : Type} (init : list A) (x y : A) :
  <[pred (length (init ++ [x])) := y]> (init ++ [x]) = init ++ [y].
Proof.
  rewrite length_app. simpl. rewrite Nat.add_1_r. simpl.
  rewrite insert_app_r_alt by lia. now rewrite Nat.sub_diag.
Qed.

Lemma InternalInsert_snoc (c : SpdbVectorContainer Key)
    (init : list (SpdbVector Key)) (back : SpdbVector Key) (key : Key) :
  spdb_vectors_ c = init ++ [back] ->
  InternalInsert c key =
    (fst (SpdbVector_Add back key),
     set_vectors c (init ++ [snd (SpdbVector_Add back key)])).
Proof.
  intros Hvs. unfold InternalInsert. rewrite Hvs, last_snoc.
  destruct (SpdbVector_Add back key) as [r back']. simpl.
  now rewrite insert_last.
Qed.

Lemma container_keys_snoc (c : SpdbVectorContainer Key)
    (init : list (SpdbVector Key)) (back : SpdbVector Key) :
  container_keys (set_vectors c (init ++ [back])) =
  concat (vector_keys <$> init) ++ vector_keys back.
Proof.
  unfold container_keys. simpl. rewrite fmap_app, concat_app. simpl.
  now rewrite app_nil_r.
Qed.

Lemma SpdbVectorContainer_Insert_ok (limit : Z) (c : SpdbVectorContainer Key)
    (key : Key) :
  0 < limit -> limit + 2 < SizeT.modulus ->
  cont_ok limit c ->
  cont_ok limit (SpdbVectorContainer_Insert c key) /\
  container_keys (SpdbVectorContainer_Insert c key) = container_keys c ++ [key] /\
  num_elements_ (SpdbVectorContainer_Insert c key) =
    SizeT.add (num_elements_ c) 1.
Proof.
  intros Hpos Hmax (Hlimit & Hmut & Hwf & back & Hlast & Hn & Hsize).
  apply last_Some in Hlast as [init Hvs].
  rewrite Hvs in Hwf. apply Forall_app in Hwf as [Hwf_init Hwf_back].
  rewrite Forall_singleton in Hwf_back.
  assert (Hkeys : container_keys c = concat (vector_keys <$> init) ++ vector_keys back).
  { unfold container_keys. rewrite Hvs, fmap_app, concat_app. simpl.
    now rewrite app_nil_r. }
  unfold SpdbVectorContainer_Insert.
  set (c0 := {| spdb_vectors_ := spdb_vectors_ c;
                switch_spdb_vector_limit_ := switch_spdb_vector_limit_ c;
                num_elements_ := SizeT.add (num_elements_ c) 1;
                immutable_ := immutable_ c;
                sort_iter_anchor := sort_iter_anchor c |}).
  rewrite (InternalInsert_snoc c0 init back key Hvs).
  destruct (Z.lt_ge_cases (n_elements_ back)
              (Z.of_nat (length (vec_items_ back)))) as [Hroom | Hfull].
  - destruct (SpdbVector_Add_room back key Hwf_back Hroom ltac:(lia))
      as (back' & -> & Hwf' & Hk' & Hn' & Hlen').
    simpl. split; [| split].
    + split; [exact Hlimit |]. split; [exact Hmut |]. split.
      * apply Forall_app. split; [exact Hwf_init | now apply Forall_singleton].
      * exists back'. split; [apply last_snoc |].
        unfold tail_ok. rewrite Hlen', Hn'. lia.
    + rewrite container_keys_snoc, Hkeys, Hk'. now rewrite app_assoc.
    + reflexivity.
  - destruct (SpdbVector_Add_full back key Hwf_back Hfull ltac:(lia))
      as (back1 & -> & Hwf1 & Hitems1 & Hn1).
    cbn [fst snd].
    erewrite InternalInsert_snoc by reflexivity.
    destruct (SpdbVector_Add_full back1 key Hwf1
                ltac:(rewrite Hitems1, Hn1; lia) ltac:(rewrite Hn1; lia))
      as (back2 & -> & Hwf2 & Hitems2 & Hn2).
    cbn [fst snd].
    set (new := SpdbVector_new (switch_spdb_vector_limit_ _)).
    assert (Hnew : new = SpdbVector_new limit).
    { unfold new. simpl. now rewrite Hlimit. }
    clearbody new. subst new.
    assert (Hnewlen : Z.of_nat (length (vec_items_ (@SpdbVector_new Key limit)))
                      = limit).
    { simpl. rewrite length_replicate. lia. }
    erewrite InternalInsert_snoc
      by (cbn [set_vectors spdb_vectors_]; reflexivity).
    destruct (SpdbVector_Add_room (SpdbVector_new limit) key
                (SpdbVector_new_wf _)
                ltac:(rewrite Hnewlen; simpl; lia) ltac:(lia))
      as (new' & -> & Hwf' & Hk' & Hn' & Hlen').
    cbn [fst snd]. split; [| split].
    + split; [exact Hlimit |]. split; [exact Hmut |]. split.
      * cbn [set_vectors spdb_vectors_].
        repeat (apply Forall_app; split); try assumption;
          now apply Forall_singleton.
      * exists new'. split; [apply last_snoc |].
        unfold tail_ok. rewrite Hlen', Hn', Hnewlen. simpl. lia.
    + rewrite container_keys_snoc, Hkeys, Hk', fmap_app, concat_app. simpl.
      rewrite SpdbVector_new_keys, app_nil_r. simpl.
      f_equal. f_equal.
      rewrite (vector_keys_unfold back2), Hitems2, Hitems1. reflexivity.
    + reflexivity.
Qed.


(** Sealing vectors keeps the keys. *)
Lemma imap_keys (f : nat -> SpdbVector Key -> SpdbVector Key)
    (vs : list (SpdbVector Key)) :
  (forall i v, vec_wf v -> vec_wf (f i v) /\ vector_keys (f i v) ≡ₚ vector_keys v) ->
  Forall vec_wf vs ->
  Forall vec_wf (imap f vs) /\
  concat (vector_keys <$> imap f vs) ≡ₚ concat (vector_keys <$> vs).
Proof.
  intros Hf Hwf. revert f Hf.
  induction Hwf as [| v vs Hv Hvs IH]; intros f Hf.
  - split; [constructor | reflexivity].
  - rewrite imap_cons. simpl.
    destruct (IH (f ∘ S)) as [IHwf IHkeys].
    { intros i v'. apply Hf. }
    destruct (Hf 0%nat v Hv) as [Hwf0 Hk0].
    split; [now constructor |]. now rewrite Hk0, IHkeys.
Qed.

Lemma sort_range_ok (vs : list (SpdbVector Key)) (anchor last_ : nat) :
  Forall vec_wf vs ->
  Forall vec_wf (sort_range vs anchor last_) /\
  concat (vector_keys <$> sort_range vs anchor last_) ≡ₚ
    concat (vector_keys <$> vs).
Proof.
  intros Hwf. unfold sort_range. apply imap_keys; [| exact Hwf].
  intros i v Hv. destruct (bool_decide _); [| split; [exact Hv | reflexivity]].
  destruct (SpdbVector_Sort_wf v Hv) as (Hwf' & Hk & _). now split.
Qed.

Lemma sort_range_length (vs : list (SpdbVector Key)) (anchor last_ : nat) :
  length (sort_range vs anchor last_) = length vs.
Proof. apply length_imap. Qed.

Lemma sort_range_lookup_ge (vs : list (SpdbVector Key)) (anchor last_ i : nat) :
  (last_ <= i)%nat -> sort_range vs anchor last_ !! i = vs !! i.
Proof.
  intros Hi. unfold sort_range. rewrite list_lookup_imap.
  rewrite bool_decide_eq_false_2 by lia. now destruct (vs !! i).
Qed.

Lemma sort_range_last (vs : list (SpdbVector Key)) (anchor : nat) :
  last (sort_range vs anchor (pred (length vs))) = last vs.
Proof.
  rewrite !last_lookup, sort_range_length.
  now apply sort_range_lookup_ge.
Qed.

(** What a forward traversal yields is a rearrangement of the keys of the
    anchored vectors. *)
Lemma SpdbVectorIterator_forward_Permutation (anchors : list (SpdbVector Key)) :
  Forall vec_wf anchors ->
  SpdbVectorIterator_forward anchors ≡ₚ concat (vector_keys <$> anchors).
Proof.
  intros Hwf. unfold SpdbVectorIterator_forward.
  rewrite std_sort_Permutation.
  induction Hwf as [| v vs Hv Hvs IH]; [reflexivity |].
  simpl. rewrite IH. apply Permutation_app_tail.
  destruct (SpdbVector_Sort_wf v Hv) as (_ & Hk & Hempty & _).
  destruct (SpdbVector_Sort v) as [[|] v']; simpl in *.
  - exact Hk.
  - now rewrite Hempty.
Qed.

Lemma SpdbVector_of_wf (items : list Key) :
  vec_wf (SpdbVector_of items (Z.of_nat (length items))) /\
  vector_keys (SpdbVector_of items (Z.of_nat (length items))) = items.
Proof.
  split.
  - exists items, 0%nat. simpl. rewrite app_nil_r.
    split; [reflexivity |]. split; [lia | now left].
  - unfold vector_keys. simpl. apply omap_id_Some.
Qed.

Lemma Merge_ok (c : SpdbVectorContainer Key) (b e : nat) :
  (b <= e)%nat -> (e < length (spdb_vectors_ c))%nat ->
  Forall vec_wf (spdb_vectors_ c) ->
  Forall vec_wf (spdb_vectors_ (Merge c b e)) /\
  container_keys (Merge c b e) ≡ₚ container_keys c /\
  last (spdb_vectors_ (Merge c b e)) = last (spdb_vectors_ c) /\
  switch_spdb_vector_limit_ (Merge c b e) = switch_spdb_vector_limit_ c /\
  immutable_ (Merge c b e) = immutable_ c /\
  num_elements_ (Merge c b e) = num_elements_ c.
Proof.
  intros Hbe He Hwf. unfold Merge, container_keys.
  destruct (last (spdb_vectors_ c)) as [back |] eqn:Hlast.
  2: { apply last_None in Hlast. rewrite Hlast in He. simpl in He. lia. }
  apply last_Some in Hlast as [init Hinit].
  assert (Hlen : length (spdb_vectors_ c) = S (length init)).
  { rewrite Hinit, length_app. simpl. lia. }
  assert (Hpost : drop e (spdb_vectors_ c) = drop e init ++ [back]).
  { rewrite Hinit. apply drop_app_le. lia. }
  assert (Hsplit : spdb_vectors_ c =
                   take b (spdb_vectors_ c) ++
                   take (e - b) (drop b (spdb_vectors_ c)) ++
                   drop e (spdb_vectors_ c)).
  { rewrite app_assoc, take_take_drop.
    replace (b + (e - b))%nat with e by lia. symmetry. apply take_drop. }
  assert (Hwf_pre : Forall vec_wf (take b (spdb_vectors_ c)))
    by now apply Forall_take.
  assert (Hwf_post : Forall vec_wf (drop e (spdb_vectors_ c)))
    by now apply Forall_drop.
  assert (Hwf_range : Forall vec_wf (take (e - b) (drop b (spdb_vectors_ c))))
    by now apply Forall_take, Forall_drop.
  revert Hsplit Hwf_pre Hwf_post Hwf_range Hpost.
  generalize (take b (spdb_vectors_ c)) as pre.
  generalize (take (e - b) (drop b (spdb_vectors_ c))) as range.
  generalize (drop e (spdb_vectors_ c)) as post.
  intros post range pre Hsplit Hwf_pre Hwf_post Hwf_range Hpost.
  destruct (0 <? Merge_num_elements range);
    [| repeat split; auto; rewrite Hinit; apply last_snoc].
  destruct (SpdbVector_of_wf (SpdbVectorIterator_forward range))
    as [Hwf_new Hk_new].
  simpl. split; [| split; [| split; [| repeat split]]].
  - apply Forall_app. split; [exact Hwf_pre |]. now constructor.
  - rewrite Hsplit, !fmap_app, !concat_app. simpl. rewrite Hk_new.
    now rewrite (SpdbVectorIterator_forward_Permutation range Hwf_range).
  - rewrite Hpost.
    change (pre ++
            SpdbVector_of (SpdbVectorIterator_forward range)
              (Z.of_nat (length (SpdbVectorIterator_forward range)))
            :: drop e init ++ [back])
      with (pre ++
            (SpdbVector_of (SpdbVectorIterator_forward range)
              (Z.of_nat (length (SpdbVectorIterator_forward range)))
             :: drop e init) ++ [back]).
    rewrite app_assoc. apply last_snoc.
Qed.

(** The selection loop of [TryMergeVectors]. *)
Lemma TryMergeVectors_loop_spec (th : Z) (all : list (SpdbVector Key)) :
  forall (vs : list (SpdbVector Key)) (s start count last_ : nat),
  (forall j v, vs !! j = Some v -> all !! (s + j)%nat = Some v) ->
  (s + length vs = last_)%nat -> s = (start + count)%nat ->
  (count < kMergedVectorsMax)%nat ->
  (forall i, (start <= i < s)%nat ->
             exists v, all !! i = Some v /\ Size v <= th) ->
  forall start' last' count',
  TryMergeVectors_loop th vs s start count last_ = (start', last', count') ->
  last' = (start' + count')%nat /\ (count' <= kMergedVectorsMax)%nat /\
  (last' <= last_)%nat /\
  (forall i, (start' <= i < last')%nat ->
             exists v, all !! i = Some v /\ Size v <= th).
Proof.
  unfold kMergedVectorsMax.
  induction vs as [| v vs IH]; intros s start count last_ Hall Hlen Hs Hc Hsmall
    start' last' count' Hloop; simpl in *.
  - injection Hloop as <- <- <-. repeat split; try lia.
    intros i Hi. apply Hsmall. lia.
  - assert (Hall' : forall j v', vs !! j = Some v' ->
                                 all !! (S s + j)%nat = Some v').
    { intros j v' Hj. replace (S s + j)%nat with (s + S j)%nat by lia.
      now apply Hall. }
    assert (Hv : all !! s = Some v).
    { replace s with (s + 0)%nat by lia. now apply Hall. }
    destruct (Z.ltb_spec th (Size v)) as [Hbig | Hsm].
    + destruct (Nat.ltb_spec 1 count) as [Hc1 | Hc1].
      * injection Hloop as <- <- <-. repeat split; try lia.
        intros i Hi. apply Hsmall. lia.
      * apply (IH (S s) (S s) 0%nat last_ Hall' ltac:(lia) ltac:(lia)
                 ltac:(lia) ltac:(intros i Hi; lia) _ _ _ Hloop).
    + destruct (Nat.eqb_spec count 7) as [H8 | H8].
      * injection Hloop as <- <- <-. repeat split; try lia.
        intros i Hi. destruct (decide (i = s)) as [-> | Hne]; [eauto |].
        apply Hsmall. lia.
      * refine (IH (S s) start (S count) last_ Hall' ltac:(lia) ltac:(lia)
                  ltac:(lia) _ _ _ _ Hloop).
        intros i Hi. destruct (decide (i = s)) as [-> | Hne]; [eauto |].
        apply Hsmall. lia.
Qed.

Lemma TryMergeVectors_spec (c c' : SpdbVectorContainer Key) (last_ b e : nat) :
  (last_ <= length (spdb_vectors_ c))%nat ->
  TryMergeVectors c last_ = (Some (b, e), c') ->
  c' = Merge c b e /\ (2 <= e - b <= kMergedVectorsMax)%nat /\ (b <= e)%nat /\
  (e <= last_)%nat /\
  (forall i, (b <= i < e)%nat ->
     exists v, spdb_vectors_ c !! i = Some v /\ Size v <= merge_threshold c).
Proof.
  intros Hlast. unfold TryMergeVectors.
  destruct (TryMergeVectors_loop _ _ _ _ _ _) as [[start last'] count] eqn:Hloop.
  destruct (Nat.ltb_spec 1 count) as [Hc | Hc]; [| discriminate].
  intros [= <- <- <-].
  assert (Hall : forall j v, take last_ (spdb_vectors_ c) !! j = Some v ->
                             spdb_vectors_ c !! (0 + j)%nat = Some v).
  { intros j v Hj. now apply lookup_take_Some in Hj as [Hj _]. }
  destruct (TryMergeVectors_loop_spec (merge_threshold c) (spdb_vectors_ c)
              (take last_ (spdb_vectors_ c)) 0%nat 0%nat 0%nat last_ Hall
              ltac:(rewrite length_take; simpl; lia) eq_refl
              ltac:(unfold kMergedVectorsMax; lia)
              ltac:(intros i Hi; lia) _ _ _ Hloop)
    as (Hl & Hc8 & Hle & Hsmall).
  repeat split; try lia. exact Hsmall.
Qed.

Lemma TryMergeVectors_None (c c' : SpdbVectorContainer Key) (last_ : nat) :
  TryMergeVectors c last_ = (None, c') -> c' = c.
Proof.
  unfold TryMergeVectors.
  destruct (TryMergeVectors_loop _ _ _ _ _ _) as [[start last'] count].
  destruct (Nat.ltb 1 count); [discriminate | now intros [= <-]].
Qed.


Lemma Merge_last (c : SpdbVectorContainer Key) (b e : nat) :
  (e < length (spdb_vectors_ c))%nat ->
  last (spdb_vectors_ (Merge c b e)) = last (spdb_vectors_ c).
Proof.
  intros He. unfold Merge.
  destruct (0 <? Merge_num_elements _); [| reflexivity].
  destruct (last (spdb_vectors_ c)) as [back |] eqn:Hlast.
  2: { apply last_None in Hlast. rewrite Hlast in He. simpl in He. lia. }
  apply last_Some in Hlast as [init Hinit].
  assert (Hpost : drop e (spdb_vectors_ c) = drop e init ++ [back]).
  { rewrite Hinit. apply drop_app_le.
    rewrite Hinit, length_app in He. simpl in He. lia. }
  simpl. rewrite Hpost, app_comm_cons, app_assoc. apply last_snoc.
Qed.

(** One turn of the sort thread. *)
Lemma SortThread_wake_ok (limit : Z) (c : SpdbVectorContainer Key) :
  cont_ok limit c ->
  cont_ok limit (fst (SortThread_wake c)) /\
  container_keys (fst (SortThread_wake c)) ≡ₚ container_keys c /\
  num_elements_ (fst (SortThread_wake c)) = num_elements_ c.
Proof.
  intros Hok. pose proof Hok as (Hlimit & Hmut & Hwf & back & Hlast & Htail).
  unfold SortThread_wake. rewrite Hmut.
  destruct (Nat.eqb _ _); [simpl; split; [exact Hok | split; reflexivity] |].
  set (last_ := pred (length (spdb_vectors_ c))).
  assert (Hlen : (last_ < length (spdb_vectors_ c))%nat).
  { pose proof Hlast as Hinit. apply last_Some in Hinit as [init Hinit].
    unfold last_. rewrite Hinit, length_app. simpl. lia. }
  destruct (sort_range_ok (spdb_vectors_ c) (sort_iter_anchor c) last_ Hwf)
    as [Hwf1 Hk1].
  assert (Hlast1 : last (spdb_vectors_ (SortThread_sort c last_)) = Some back).
  { simpl. unfold last_. now rewrite sort_range_last. }
  assert (Hok1 : cont_ok limit (SortThread_sort c last_)).
  { split; [exact Hlimit |]. split; [exact Hmut |]. split; [exact Hwf1 |].
    exists back. now split. }
  destruct (Nat.ltb _ _);
    [| simpl; split; [exact Hok1 | split; [exact Hk1 | reflexivity]]].
  destruct (TryMergeVectors (SortThread_sort c last_) last_)
    as [[[b e] |] c2] eqn:Htry.
  - apply TryMergeVectors_spec in Htry as (-> & Hbe & Hle & He & _);
      [| simpl; rewrite sort_range_length; lia].
    assert (He' : (e < length (spdb_vectors_ (SortThread_sort c last_)))%nat).
    { simpl. rewrite sort_range_length. lia. }
    destruct (Merge_ok (SortThread_sort c last_) b e Hle He' Hwf1)
      as (Hwf2 & Hk2 & Hlast2 & Hlimit2 & Hmut2 & Hnum2).
    cbn [fst]. split; [| split].
    + split; [| split; [| split]].
      * change (switch_spdb_vector_limit_
                  (Merge (SortThread_sort c last_) b e) = limit).
        now rewrite Hlimit2.
      * change (immutable_ (Merge (SortThread_sort c last_) b e) = false).
        now rewrite Hmut2.
      * exact Hwf2.
      * exists back. split; [| exact Htail].
        change (last (spdb_vectors_ (Merge (SortThread_sort c last_) b e))
                = Some back).
        now rewrite Hlast2.
    + change (container_keys (Merge (SortThread_sort c last_) b e)
              ≡ₚ container_keys c).
      rewrite Hk2. exact Hk1.
    + exact Hnum2.
  - apply TryMergeVectors_None in Htry as ->.
    simpl; split; [exact Hok1 | split; [exact Hk1 | reflexivity]].
Qed.

Lemma InitIterator_ok (limit : Z) (c : SpdbVectorContainer Key) :
  0 <= limit -> cont_ok limit c ->
  cont_ok limit (fst (InitIterator c)) /\
  container_keys (fst (InitIterator c)) = container_keys c /\
  num_elements_ (fst (InitIterator c)) = num_elements_ c /\
  Forall vec_wf (snd (InitIterator c)) /\
  concat (vector_keys <$> snd (InitIterator c)) = container_keys c.
Proof.
  intros Hpos Hok. pose proof Hok as (Hlimit & Hmut & Hwf & back & Hlast & Htail).
  unfold InitIterator. rewrite Hmut, Hlast.
  pose proof Hlast as Hlast'. apply last_Some in Hlast' as [init Hinit].
  destruct (IsEmpty back) eqn:Hempty; simpl.
  - split; [exact Hok |]. split; [reflexivity |]. split; [reflexivity |].
    rewrite Hinit in *. rewrite length_app. simpl.
    rewrite Nat.add_1_r. simpl. rewrite take_app_length.
    apply Forall_app in Hwf as [Hwf_init Hwf_back].
    rewrite Forall_singleton in Hwf_back.
    split; [exact Hwf_init |].
    unfold container_keys. rewrite Hinit, fmap_app, concat_app. simpl.
    destruct Hwf_back as (ks & m & Hitems & Hn & _).
    rewrite (vector_keys_prefix back ks m Hitems).
    unfold IsEmpty in Hempty. apply Z.eqb_eq in Hempty.
    destruct ks; [now rewrite !app_nil_r | simpl in Hn; lia].
  - split; [| split; [| split; [reflexivity | split; [exact Hwf | reflexivity]]]].
    + split; [exact Hlimit |]. split; [exact Hmut |]. split.
      * apply Forall_app. split; [exact Hwf |].
        apply Forall_singleton, SpdbVector_new_wf.
      * exists (SpdbVector_new (switch_spdb_vector_limit_ c)).
        split; [apply last_snoc |].
        unfold tail_ok. simpl. rewrite length_replicate, Hlimit. lia.
    + unfold container_keys. simpl. rewrite fmap_app, concat_app. simpl.
      now rewrite SpdbVector_new_keys, !app_nil_r.
Qed.


(** *** The memtable *)

Lemma Inv_cont_ok (limit : Z) (rep : HashSpdRep Key) :
  Inv limit rep -> cont_ok limit (spdb_vectors_cont_ rep).
Proof.
  intros [_ _ _ Hlimit Hmut Hwf Htail _]. now repeat split.
Qed.

Lemma Inv_new (nb : nat) (limit : Z) :
  0 <= limit -> Inv limit (@HashSpdRep_new Key nb limit).
Proof.
  intros Hpos. split; simpl.
  - apply Forall_replicate. constructor.
  - intros i b e Hb He. apply lookup_replicate in Hb as [-> _].
    simpl in He. inversion He.
  - unfold table_keys, container_keys. simpl.
    rewrite SpdbVector_new_keys. simpl.
    induction nb as [| nb IH]; [reflexivity | exact IH].
  - reflexivity.
  - reflexivity.
  - apply Forall_singleton, SpdbVector_new_wf.
  - exists (SpdbVector_new limit). split; [reflexivity |].
    unfold tail_ok. simpl. rewrite length_replicate. lia.
  - unfold container_keys. simpl. now rewrite SpdbVector_new_keys.
Qed.

Lemma Inv_InsertKey (limit : Z) (rep : HashSpdRep Key) (handle : Key) :
  0 < limit -> limit + 2 < SizeT.modulus ->
  Inv limit rep -> Inv limit (snd (InsertKey rep handle)).
Proof.
  intros Hpos Hmax HI. pose proof HI as [Hs Hhome Hkeys Hlimit Hmut Hwf Htail Hcount].
  unfold InsertKey.
  destruct (SpdbHashTable_Add (spdb_hash_table_ rep) handle) as [[|] t'] eqn:Hadd;
    simpl; [| exact HI].
  destruct (SpdbVectorContainer_Insert_ok limit (spdb_vectors_cont_ rep) handle
              Hpos Hmax (Inv_cont_ok _ _ HI))
    as ((Hlimit' & Hmut' & Hwf' & Htail') & Hk' & Hnum').
  split; simpl; try assumption.
  - apply (SpdbHashTable_Add_sorted _ _ _ _ Hs Hadd).
  - apply (SpdbHashTable_Add_home _ _ _ _ Hs Hhome Hadd).
  - rewrite (SpdbHashTable_Add_keys _ _ _ Hs Hadd), Hk', Hkeys.
    apply Permutation_cons_append.
  - rewrite Hnum', Hk', Hcount, length_app. simpl.
    unfold SizeT.add, SizeT.wrap.
    rewrite Zplus_mod_idemp_l. f_equal. lia.
Qed.

Lemma Inv_step (limit : Z) (rep : HashSpdRep Key) (op : Op Key) :
  0 < limit -> limit + 2 < SizeT.modulus ->
  Inv limit rep -> Inv limit (step rep op).
Proof.
  intros Hpos Hmax HI. destruct op as [handle | |]; simpl.
  - now apply Inv_InsertKey.
  - pose proof HI as [Hs Hhome Hkeys Hlimit Hmut Hwf Htail Hcount].
    destruct (SortThread_wake_ok limit (spdb_vectors_cont_ rep)
                (Inv_cont_ok _ _ HI))
      as ((Hlimit' & Hmut' & Hwf' & Htail') & Hk' & Hnum').
    split; simpl; try assumption.
    + now rewrite Hk'.
    + rewrite Hnum', Hcount. now rewrite Hk'.
  - pose proof HI as [Hs Hhome Hkeys Hlimit Hmut Hwf Htail Hcount].
    unfold GetIterator.
    destruct (SpdbVectorContainer_IsEmpty _); [exact HI |].
    destruct (InitIterator_ok limit (spdb_vectors_cont_ rep) ltac:(lia)
                (Inv_cont_ok _ _ HI))
      as ((Hlimit' & Hmut' & Hwf' & Htail') & Hk' & Hnum' & _).
    destruct (InitIterator (spdb_vectors_cont_ rep)) as [c anchors].
    simpl in *. split; simpl; try assumption.
    + now rewrite Hk'.
    + now rewrite Hnum', Hk'.
Qed.

Lemma Inv_run (limit : Z) (ops : list (Op Key)) (rep : HashSpdRep Key) :
  0 < limit -> limit + 2 < SizeT.modulus ->
  Inv limit rep -> Inv limit (run ops rep).
Proof.
  intros Hpos Hmax. unfold run. revert rep.
  induction ops as [| op ops IH]; intros rep HI; simpl; [exact HI |].
  apply IH. now apply Inv_step.
Qed.

Lemma step_sorted (rep : HashSpdRep Key) (op : Op Key) :
  Forall bucket_sorted (buckets_ (spdb_hash_table_ rep)) ->
  Forall bucket_sorted (buckets_ (spdb_hash_table_ (step rep op))).
Proof.
  intros Hs. destruct op as [handle | |]; simpl; try exact Hs.
  - unfold InsertKey.
    destruct (SpdbHashTable_Add (spdb_hash_table_ rep) handle)
      as [[|] t'] eqn:Hadd; simpl; [| exact Hs].
    apply (SpdbHashTable_Add_sorted _ _ _ _ Hs Hadd).
  - unfold GetIterator. destruct (SpdbVectorContainer_IsEmpty _); [exact Hs |].
    now destruct (InitIterator (spdb_vectors_cont_ rep)).
Qed.

Lemma run_sorted (ops : list (Op Key)) (rep : HashSpdRep Key) :
  Forall bucket_sorted (buckets_ (spdb_hash_table_ rep)) ->
  Forall bucket_sorted (buckets_ (spdb_hash_table_ (run ops rep))).
Proof.
  unfold run. revert rep.
  induction ops as [| op ops IH]; intros rep Hs; simpl; [exact Hs |].
  apply IH. now apply step_sorted.
Qed.

Lemma linked_step (rep : HashSpdRep Key) (op : Op Key) (k : Key) :
  Forall bucket_sorted (buckets_ (spdb_hash_table_ rep)) ->
  linked (spdb_hash_table_ rep) k -> linked (spdb_hash_table_ (step rep op)) k.
Proof.
  intros Hs Hl. destruct op as [handle | |]; simpl; try exact Hl.
  - unfold InsertKey.
    destruct (SpdbHashTable_Add (spdb_hash_table_ rep) handle)
      as [[|] t'] eqn:Hadd; simpl; [| exact Hl].
    apply (SpdbHashTable_Add_linked _ _ _ _ _ Hs Hadd Hl).
  - unfold GetIterator. destruct (SpdbVectorContainer_IsEmpty _); [exact Hl |].
    now destruct (InitIterator (spdb_vectors_cont_ rep)).
Qed.

Lemma linked_run (ops : list (Op Key)) (rep : HashSpdRep Key) (k : Key) :
  Forall bucket_sorted (buckets_ (spdb_hash_table_ rep)) ->
  linked (spdb_hash_table_ rep) k ->
  linked (spdb_hash_table_ (run ops rep)) k.
Proof.
  unfold run. revert rep.
  induction ops as [| op ops IH]; intros rep Hs Hl; simpl; [exact Hl |].
  apply IH; [now apply step_sorted | now apply linked_step].
Qed.

Lemma filter_none {A : Type} (P : A -> Prop) `{forall x, Decision (P x)}
    (l : list A) :
  Forall (fun x => ~ P x) l -> filter P l = [].
Proof.
  induction 1 as [| x l Hx Hl IH]; [reflexivity |].
  now rewrite filter_cons_False.
Qed.

Lemma elem_of_concat {A : Type} (ls : list (list A)) (x : A) :
  x ∈ concat ls -> exists l, x ∈ l /\ l ∈ ls.
Proof.
  induction ls as [| l ls IH]; simpl; [intros Hx; inversion Hx |].
  rewrite elem_of_app. intros [Hx | Hx].
  - exists l. split; [exact Hx | left].
  - destruct (IH Hx) as (l' & Hl' & Hin). exists l'. split; [exact Hl' | now right].
Qed.

(** In a strictly sorted chain exactly one entry compares equal to a
    member. *)
Lemma sorted_chain_one_equal (l : list Key) (k : Key) :
  StronglySorted key_lt l -> k ∈ l ->
  length (filter (fun e => comparator e k = 0) l) = 1%nat.
Proof.
  intros Hs. induction l as [| e l IH]; intros Hin; [inversion Hin |].
  apply StronglySorted_inv in Hs as [Hs He]. rewrite Forall_forall in He.
  destruct (decide (comparator e k = 0)) as [Heq | Hne].
  - rewrite filter_cons_True by exact Heq. simpl. f_equal.
    rewrite filter_none; [reflexivity |].
    apply Forall_forall. intros x Hx Hx0.
    pose proof (cmp_lt_eq _ order _ _ _ (He x Hx) Hx0) as Hek. lia.
  - rewrite filter_cons_False by exact Hne.
    apply elem_of_cons in Hin as [-> | Hin].
    + contradict Hne. apply (cmp_refl _ order).
    + now apply IH.
Qed.

Lemma foreign_bucket_none_equal (t : SpdbHashTable Key) (k : Key)
    (bs : list (BucketHeader Key)) :
  HashRespectsComparator KC ->
  (forall b e, b ∈ bs -> e ∈ items_ b -> bucket_index t e <> bucket_index t k) ->
  filter (fun e => comparator e k = 0) (concat (items_ <$> bs)) = [].
Proof.
  intros Hhash Hbs. apply filter_none, Forall_forall.
  intros e He Heq. apply elem_of_concat in He as (l & He & Hl).
  apply list_elem_of_fmap in Hl as (b & -> & Hb).
  apply (Hbs b e Hb He). unfold bucket_index. now rewrite (Hhash _ _ Heq).
Qed.

Lemma table_keys_one_equal (limit : Z) (rep : HashSpdRep Key) (k : Key) :
  HashRespectsComparator KC ->
  Inv limit rep -> linked (spdb_hash_table_ rep) k ->
  length (filter (fun e => comparator e k = 0)
            (table_keys (spdb_hash_table_ rep))) = 1%nat.
Proof.
  intros Hhash [Hs Hhome _ _ _ _ _ _] (b & Hb & Hin).
  set (t := spdb_hash_table_ rep) in *.
  unfold table_keys. rewrite <- (take_drop_middle _ _ _ Hb).
  rewrite fmap_app, concat_app. simpl.
  rewrite !filter_app, !length_app.
  rewrite (foreign_bucket_none_equal t k (take _ _) Hhash).
  2: { intros b' e Hb' He Hidx.
       apply list_elem_of_lookup in Hb' as [j Hj].
       apply lookup_take_Some in Hj as [Hj Hlt].
       rewrite <- Hidx, (Hhome j b' e Hj He) in Hlt. lia. }
  rewrite (foreign_bucket_none_equal t k (drop _ _) Hhash).
  2: { intros b' e Hb' He Hidx.
       apply list_elem_of_lookup in Hb' as [j Hj].
       rewrite lookup_drop in Hj.
       pose proof (Hhome _ b' e Hj He) as Hj'. lia. }
  simpl. rewrite Nat.add_0_r.
  apply sorted_chain_one_equal; [| exact Hin].
  apply (Forall_lookup_1 _ _ _ _ Hs Hb).
Qed.


Lemma GetIterator_keys (limit : Z) (rep : HashSpdRep Key) :
  0 <= limit -> Inv limit rep ->
  num_elements_ (spdb_vectors_cont_ rep) <> 0 ->
  Iterator_keys (snd (GetIterator rep)) ≡ₚ table_keys (spdb_hash_table_ rep).
Proof.
  intros Hpos HI Hnum. unfold GetIterator, SpdbVectorContainer_IsEmpty.
  destruct (Z.eqb_spec (num_elements_ (spdb_vectors_cont_ rep)) 0);
    [contradiction |].
  destruct (InitIterator_ok limit (spdb_vectors_cont_ rep) Hpos
              (Inv_cont_ok _ _ HI)) as (_ & _ & _ & Hwf & Hk).
  destruct (InitIterator (spdb_vectors_cont_ rep)) as [c anchors].
  simpl in *. rewrite (SpdbVectorIterator_forward_Permutation anchors Hwf), Hk.
  symmetry. apply (inv_keys _ _ HI).
Qed.

(** C5: after every sequence of calls on a new memtable each bucket chain
    is strictly sorted by the comparator (no two entries compare equal), so
    the walk of [Contains] that stops at the first greater entry finds a
    key exactly when the chain holds an equal one, and the first loop of
    [Get] stops exactly at the entries not below the lookup key. *)
Theorem bucket_chains_stay_sorted (nb : nat) (limit : Z) (ops : list (Op Key))
    (i : nat) (b : BucketHeader Key) (probe : Key) :
  buckets_ (spdb_hash_table_ (run ops (HashSpdRep_new nb limit))) !! i = Some b ->
  StronglySorted key_lt (items_ b) /\
  (BucketHeader_Contains b probe = true <->
   exists e, e ∈ items_ b /\ comparator e probe = 0) /\
  Get_seek (items_ b) probe =
    filter (fun e => 0 <= comparator e probe) (items_ b).
Proof.
  intros Hb.
  assert (Hs : StronglySorted key_lt (items_ b)).
  { eapply (Forall_lookup_1 bucket_sorted); [| exact Hb].
    apply run_sorted. simpl. apply Forall_replicate. constructor. }
  split; [exact Hs |]. split.
  - now apply Contains_from_iff.
  - now apply Get_seek_filter.
Qed.

(** C4, amended: when keys that compare equal hash alike, once an insert
    of [k] has succeeded, an insert of a handle whose key compares equal to
    [k] returns [false] and leaves the memtable as it was (nothing is
    linked in a bucket, nothing is appended to a vector); [Contains] still
    finds the key, and an iterator yields exactly one entry equal to
    [k]. *)
Theorem InsertKey_duplicate_rejected (nb : nat) (limit : Z)
    (ops1 ops2 : list (Op Key)) (k k' : Key) :
  HashRespectsComparator KC ->
  (0 < nb)%nat -> 0 < limit -> limit + 2 < SizeT.modulus ->
  let rep0 := run ops1 (HashSpdRep_new nb limit) in
  let rep := run ops2 (snd (InsertKey rep0 k)) in
  fst (InsertKey rep0 k) = true ->
  comparator k k' = 0 ->
  Z.of_nat (length (table_keys (spdb_hash_table_ rep))) < SizeT.modulus ->
  InsertKey rep k' = (false, rep) /\
  Contains rep k = true /\ Contains rep k' = true /\
  length (filter (fun e => comparator e k = 0)
            (Iterator_keys (snd (GetIterator rep)))) = 1%nat.
Proof.
  intros Hhash Hnb Hpos Hmax rep0 rep Hins Heq Hfew.
  assert (HI0 : Inv limit rep0) by (apply Inv_run, Inv_new; lia).
  assert (HI1 : Inv limit (snd (InsertKey rep0 k))) by now apply Inv_InsertKey.
  assert (HI : Inv limit rep) by now apply Inv_run.
  assert (Hl1 : linked (spdb_hash_table_ (snd (InsertKey rep0 k))) k).
  { revert Hins. unfold InsertKey.
    destruct (SpdbHashTable_Add (spdb_hash_table_ rep0) k) as [[|] t'] eqn:Hadd;
      simpl; [intros _ | discriminate].
    apply (SpdbHashTable_Add_linked_new _ _ _ (inv_sorted _ _ HI0) Hadd). }
  assert (Hl : linked (spdb_hash_table_ rep) k).
  { apply linked_run; [apply (inv_sorted _ _ HI1) | exact Hl1]. }
  pose proof (inv_sorted _ _ HI) as Hs.
  split; [| split; [| split]].
  - pose proof (SpdbHashTable_Add_duplicate _ k k' Hhash Hs Hl Heq) as Hdup.
    unfold InsertKey.
    destruct (SpdbHashTable_Add (spdb_hash_table_ rep) k') as [added t'].
    simpl in Hdup. now rewrite Hdup.
  - apply (SpdbHashTable_Contains_linked _ k k Hhash Hs Hl).
    apply (cmp_refl _ order).
  - apply (SpdbHashTable_Contains_linked _ k k' Hhash Hs Hl Heq).
  - assert (Hone := table_keys_one_equal limit rep k Hhash HI Hl).
    rewrite GetIterator_keys with (limit := limit); [exact Hone | lia | exact HI |].
    rewrite (inv_count _ _ HI), <- (inv_keys _ _ HI).
    rewrite SizeT_wrap_small by (unfold SizeT.in_range; lia).
    destruct (table_keys (spdb_hash_table_ rep)); [discriminate Hone | simpl; lia].
Qed.

(** C6, amended: a turn of the sort thread merges only when the container
    holds more than [kMergedVectorsMax] vectors; the merged range is a run
    of 2 to [kMergedVectorsMax] consecutive sealed vectors, each of size at
    most the merge threshold (75% of the capacity, rounded down); the run
    stops before the tail, which stays the tail. *)
Theorem SortThread_merge_conditions (c c' : SpdbVectorContainer Key)
    (b e : nat) :
  SortThread_wake c = (c', Some (b, e)) ->
  let last_ := pred (length (spdb_vectors_ c)) in
  let sealed := SortThread_sort c last_ in
  (kMergedVectorsMax < length (spdb_vectors_ c))%nat /\
  (2 <= e - b <= kMergedVectorsMax)%nat /\
  (e <= last_)%nat /\
  (forall i, (b <= i < e)%nat ->
     exists v, spdb_vectors_ sealed !! i = Some v /\
               Size v <= merge_threshold c) /\
  c' = set_anchor (Merge sealed b e) 0 /\
  last (spdb_vectors_ c') = last (spdb_vectors_ c).
Proof.
  intros Hwake last_ sealed. unfold SortThread_wake in Hwake.
  destruct (immutable_ c); [discriminate |].
  fold last_ in Hwake.
  destruct (Nat.eqb last_ (sort_iter_anchor c)); [discriminate |].
  fold sealed in Hwake.
  assert (Hlen : length (spdb_vectors_ sealed) = length (spdb_vectors_ c)).
  { simpl. apply sort_range_length. }
  rewrite Hlen in Hwake.
  destruct (Nat.ltb_spec kMergedVectorsMax (length (spdb_vectors_ c)))
    as [Hmany | Hfew]; [| discriminate].
  destruct (TryMergeVectors sealed last_) as [[[b0 e0] |] c2] eqn:Htry;
    [| discriminate].
  injection Hwake as <- <- <-.
  apply TryMergeVectors_spec in Htry as (-> & Hbe & Hle & He & Hsmall);
    [| rewrite Hlen; unfold last_; lia].
  split; [exact Hmany |]. split; [exact Hbe |]. split; [exact He |].
  split; [exact Hsmall |]. split; [reflexivity |].
  change (last (spdb_vectors_ (Merge sealed b0 e0)) = last (spdb_vectors_ c)).
  rewrite Merge_last by (rewrite Hlen; unfold kMergedVectorsMax in Hmany;
                         unfold last_ in He; lia).
  simpl. unfold last_. apply sort_range_last.
Qed.

(** C9: the memtable reports no memory of its own, whatever its state. *)
Theorem ApproximateMemoryUsage_is_zero (rep : HashSpdRep Key) :
  ApproximateMemoryUsage rep = 0.
Proof. reflexivity. Qed.

End HashSpdFacts.

(** *** Integer keys *)

#[local] Existing Instance HashSpd.Z_KeyComparator.

(** After the sample execution the second of the two buckets holds the six
    odd keys in ascending order. *)
Lemma bucket_chains_stay_sorted_witness :
  StronglySorted (HashSpd.key_lt (KC := HashSpd.Z_KeyComparator))
    [1; 3; 5; 7; 9; 11].
Proof.
  refine (proj1 (bucket_chains_stay_sorted (KC := HashSpd.Z_KeyComparator) _
    2 3 (HashSpd.dup_ops1 ++ HashSpd.OpInsertKey 9 :: HashSpd.dup_ops2)
    1 {| HashSpd.items_ := [1; 3; 5; 7; 9; 11] |} 7 _)).
  - split; simpl; intros; lia.
  - reflexivity.
Defined.

(** Key 9 is inserted after [dup_ops1]; after [dup_ops2] a second insert of
    9 is refused and changes nothing. *)
Lemma InsertKey_duplicate_rejected_witness :
  HashSpd.InsertKey (KC := HashSpd.Z_KeyComparator)
    (HashSpd.run HashSpd.dup_ops2
       (snd (HashSpd.InsertKey
               (HashSpd.run HashSpd.dup_ops1 (HashSpd.HashSpdRep_new 2 3)) 9)))
    9 =
  (false,
   HashSpd.run HashSpd.dup_ops2
     (snd (HashSpd.InsertKey
             (HashSpd.run HashSpd.dup_ops1 (HashSpd.HashSpdRep_new 2 3)) 9))).
Proof.
  refine (proj1 (InsertKey_duplicate_rejected (KC := HashSpd.Z_KeyComparator)
    _ 2 3 HashSpd.dup_ops1 HashSpd.dup_ops2 9 9 _ _ _ _ _ _ _)).
  - split; simpl; intros; lia.
  - intros a b. simpl. lia.
  - lia.
  - lia.
  - unfold SizeT.modulus. lia.
  - reflexivity.
  - reflexivity.
  - vm_compute. reflexivity.
Defined.

(** C4, as stated, fails for a comparator under which keys that compare
    equal can hash apart.  Keys 10 and 11 compare equal by their tens and
    fall in buckets 1 and 2 of 3: after the insert of 10 has succeeded, the
    insert of 11 returns [true], links 11 in its own bucket and appends it
    to the tail vector, and an iterator yields two entries equal to 10. *)
Lemma InsertKey_claim_fails_across_buckets :
  let rep0 := HashSpd.HashSpdRep_new 3 4 in
  let rep := snd (HashSpd.InsertKey (KC := HashSpd.tens_KeyComparator) rep0 10)
  in
  let rep' := snd (HashSpd.InsertKey (KC := HashSpd.tens_KeyComparator) rep 11)
  in
  HashSpd.ComparatorOrder HashSpd.tens_KeyComparator /\
  fst (HashSpd.InsertKey (KC := HashSpd.tens_KeyComparator) rep0 10) = true /\
  HashSpd.comparator (KeyComparator := HashSpd.tens_KeyComparator) 10 11 = 0 /\
  fst (HashSpd.InsertKey (KC := HashSpd.tens_KeyComparator) rep 11) = true /\
  rep' <> rep /\
  HashSpd.buckets_ (HashSpd.spdb_hash_table_ rep') =
    [{| HashSpd.items_ := [] |}; {| HashSpd.items_ := [10] |};
     {| HashSpd.items_ := [11] |}] /\
  HashSpd.vector_keys <$>
    HashSpd.spdb_vectors_ (HashSpd.spdb_vectors_cont_ rep') = [[10; 11]] /\
  HashSpd.Iterator_keys (KC := HashSpd.tens_KeyComparator)
    (snd (HashSpd.GetIterator rep')) = [10; 11] /\
  length (filter
            (fun e => HashSpd.comparator
                        (KeyComparator := HashSpd.tens_KeyComparator) e 10 = 0)
            [10; 11]) = 2%nat.
Proof.
  cbn zeta. split; [split; simpl; intros; lia |].
  repeat split; try (vm_compute; reflexivity).
  vm_compute. discriminate.
Qed.

(** The sort thread wakes on ten vectors of 4 slots, nine of them holding 3
    keys: it merges the first eight and the tail stays the tail. *)
Lemma SortThread_merge_conditions_witness :
  last (HashSpd.spdb_vectors_
          (fst (HashSpd.SortThread_wake (KC := HashSpd.Z_KeyComparator)
                  HashSpd.merge_sample))) =
  last (HashSpd.spdb_vectors_ HashSpd.merge_sample).
Proof.
  refine (proj2 (proj2 (proj2 (proj2 (proj2
    (SortThread_merge_conditions (KC := HashSpd.Z_KeyComparator)
       HashSpd.merge_sample
       (fst (HashSpd.SortThread_wake (KC := HashSpd.Z_KeyComparator)
               HashSpd.merge_sample))
       0%nat 8%nat _)))))).
  vm_compute. reflexivity.
Defined.

(** C6, as stated, fails at the threshold: with a capacity of 4 the sort
    thread merges vectors 0 to 7, and the vector at position 0 holds 3
    keys, which is not less than 75% of 4. *)
Lemma SortThread_merges_vector_at_threshold :
  snd (HashSpd.SortThread_wake (KC := HashSpd.Z_KeyComparator)
         HashSpd.merge_sample) = Some (0%nat, 8%nat) /\
  HashSpd.switch_spdb_vector_limit_ HashSpd.merge_sample = 4 /\
  HashSpd.Size <$>
    (HashSpd.spdb_vectors_
       (HashSpd.SortThread_sort (KC := HashSpd.Z_KeyComparator)
          HashSpd.merge_sample 9) !! 0%nat) = Some 3 /\
  ~ (3 * 100 < 75 * 4).
Proof.
  split; [vm_compute; reflexivity |].
  split; [reflexivity |].
  split; [vm_compute; reflexivity | lia].
Qed.

(** The same selection at the capacity the factory passes: the threshold is
    7500 and sealed vectors of exactly 7500 keys are selected. *)
Lemma TryMergeVectors_selects_at_factory_threshold :
  HashSpd.merge_threshold HashSpd.factory_sample = 7500 /\
  HashSpd.TryMergeVectors_loop 7500
    (take 9 (HashSpd.spdb_vectors_ HashSpd.factory_sample)) 0 0 0 9 =
    (0%nat, 8%nat, 8%nat) /\
  ~ (7500 * 100 < 75 * 10000).
Proof. split; [reflexivity | split; [reflexivity | lia]]. Qed.

(** The sample container is the one the sample execution builds. *)
Lemma merge_sample_reached :
  HashSpd.merge_sample =
  HashSpd.spdb_vectors_cont_
    (HashSpd.run (KC := HashSpd.Z_KeyComparator) HashSpd.merge_ops
       (HashSpd.HashSpdRep_new 3 4)).
Proof. vm_compute. reflexivity. Qed.

(** ** Write Buffer Manager: flushes and flush initiation *)

Section WBMMore.

Import WBM.

(** X1: [ShouldFlush] answers [true] only on an enabled manager with flush
    initiation off, and (for a buffer of 2 bytes or more) only while part
    of the used memory is still mutable: it never asks for a flush when
    everything used is already scheduled to be freed. *)
Theorem ShouldFlush_needs_mutable_memory (w : WriteBufferManager) :
  ShouldFlush w = true ->
  initiate_flushes_ w = false /\ 0 < buffer_size_ w /\
  (2 <= buffer_size_ w -> 0 <= mutable_limit_ w ->
   memory_inactive_ w < memory_used_ w).
Proof.
  unfold ShouldFlush, enabled, buffer_size, SizeT.div.
  destruct (initiate_flushes_ w); simpl; [discriminate |].
  destruct (Z.ltb_spec 0 (buffer_size_ w)) as [Hen | Hdis]; [| discriminate].
  intros Hflush. split; [reflexivity |]. split; [exact Hen |].
  intros Hbig Hlimit.
  assert (Hpos : 0 < mutable_memtable_memory_usage w).
  { destruct (Z.ltb_spec (mutable_limit_ w) (mutable_memtable_memory_usage w));
      [lia |].
    destruct (Z.leb_spec (buffer_size_ w) (memory_usage w)); simpl in Hflush;
      [| discriminate].
    destruct (Z.leb_spec (buffer_size_ w / 2) (mutable_memtable_memory_usage w));
      [| discriminate].
    assert (1 <= buffer_size_ w / 2) by (apply Z.div_le_lower_bound; lia).
    lia. }
  unfold mutable_memtable_memory_usage, memory_usage in Hpos.
  destruct (Z.leb_spec (memory_used_ w) (memory_inactive_ w)); lia.
Qed.

(** X2: with flush initiation off, once the used memory reaches the buffer
    size while at most half a buffer is scheduled to be freed, [ShouldFlush]
    answers [true]. *)
Theorem ShouldFlush_at_buffer_size (w : WriteBufferManager) :
  SizeT.in_range (memory_used_ w) -> 0 <= memory_inactive_ w ->
  initiate_flushes_ w = false ->
  0 < buffer_size_ w -> buffer_size_ w <= memory_used_ w ->
  memory_inactive_ w <= buffer_size_ w / 2 ->
  ShouldFlush w = true.
Proof.
  intros Hu Hi Hinit Hen Hfull Hhalf.
  assert (Hdiv : buffer_size_ w / 2 * 2 <= buffer_size_ w).
  { pose proof (Z.mul_div_le (buffer_size_ w) 2). lia. }
  assert (Hmut : mutable_memtable_memory_usage w =
                 memory_used_ w - memory_inactive_ w).
  { unfold mutable_memtable_memory_usage, memory_usage.
    destruct (Z.leb_spec (memory_used_ w) (memory_inactive_ w)); [lia |].
    unfold SizeT.sub. apply SizeT_wrap_small.
    unfold SizeT.in_range in *. lia. }
  unfold ShouldFlush, enabled, buffer_size, SizeT.div, memory_usage.
  rewrite Hinit, Hmut. simpl.
  destruct (Z.ltb_spec 0 (buffer_size_ w)); [| lia].
  destruct (Z.ltb_spec (mutable_limit_ w)
              (memory_used_ w - memory_inactive_ w)); [reflexivity |].
  destruct (Z.leb_spec (buffer_size_ w) (memory_used_ w)); [| lia].
  destruct (Z.leb_spec (buffer_size_ w / 2)
              (memory_used_ w - memory_inactive_ w)); [reflexivity | lia].
Qed.

(** X3: [SetBufferSize] stores the new size and seven eighths of it as the
    mutable limit; the limit never exceeds the size, even when the product
    by 7 wraps around. *)
Theorem SetBufferSize_limits
    (MaybeEndWriteStall : WriteBufferManager -> WriteBufferManager)
    (InitFlushInitiationVars : Z -> WriteBufferManager -> WriteBufferManager)
    (w : WriteBufferManager) (new_size : Z) :
  (forall w0, buffer_size_ (MaybeEndWriteStall w0) = buffer_size_ w0 /\
              mutable_limit_ (MaybeEndWriteStall w0) = mutable_limit_ w0) ->
  (forall q w0,
      buffer_size_ (InitFlushInitiationVars q w0) = buffer_size_ w0 /\
      mutable_limit_ (InitFlushInitiationVars q w0) = mutable_limit_ w0) ->
  SizeT.in_range new_size ->
  let w' := SetBufferSize MaybeEndWriteStall InitFlushInitiationVars w
              new_size in
  buffer_size_ w' = new_size /\
  0 <= mutable_limit_ w' <= new_size /\
  (7 * new_size < SizeT.modulus -> mutable_limit_ w' = 7 * new_size / 8) /\
  enabled w' = (0 <? new_size).
Proof.
  intros Hstall Hinit Hn w'.
  assert (Hfields : buffer_size_ w' = new_size /\
                    mutable_limit_ w' = SizeT.div (SizeT.mul new_size 7) 8).
  { subst w'. unfold SetBufferSize.
    match goal with
    | |- context [MaybeEndWriteStall ?x] =>
        set (w1 := x); destruct (Hstall w1) as [Hb1 Hm1]
    end.
    destruct (enabled (MaybeEndWriteStall w1));
      [destruct (initiate_flushes_ (MaybeEndWriteStall w1)) |];
      try (destruct (Hinit new_size (MaybeEndWriteStall w1)) as [-> ->]);
      rewrite ?Hb1, ?Hm1; split; reflexivity. }
  destruct Hfields as [Hb Hm].
  unfold SizeT.in_range, SizeT.modulus in *.
  assert (Hwrap : 0 <= SizeT.mul new_size 7 < 2 ^ 64).
  { unfold SizeT.mul, SizeT.wrap, SizeT.modulus. apply Z.mod_pos_bound. lia. }
  assert (Hle : SizeT.mul new_size 7 <= new_size * 7).
  { unfold SizeT.mul, SizeT.wrap, SizeT.modulus. apply Z.mod_le; lia. }
  split; [exact Hb |]. rewrite Hm. unfold SizeT.div. split; [| split].
  - split; [apply Z.div_pos; lia |].
    destruct (Z.le_gt_cases (2 ^ 61) new_size) as [Hbig | Hsmall].
    + assert (SizeT.mul new_size 7 / 8 < 2 ^ 61)
        by (apply Z.div_lt_upper_bound; lia).
      lia.
    + apply Z.div_le_upper_bound; lia.
  - intros Hno. unfold SizeT.mul. rewrite SizeT_wrap_small
      by (unfold SizeT.in_range, SizeT.modulus; lia).
    f_equal. lia.
  - unfold enabled, buffer_size. now rewrite Hb.
Qed.

(** X4: [ShouldInitiateAnotherFlushMemOnly] subtracts the bytes being freed
    from the used ones without a guard.  While no more is being freed than
    is used the test is the exact one; when more is being freed than is
    used the difference wraps around and is compared as
    [2^64 - (being_freed - used)]. *)
Theorem ShouldInitiateAnotherFlushMemOnly_wraps (w : WriteBufferManager)
    (fi : FlushInitiation) (curr_memory_used : Z) :
  SizeT.in_range curr_memory_used ->
  SizeT.in_range (memory_being_freed_ w) ->
  (memory_being_freed_ w <= curr_memory_used ->
   (ShouldInitiateAnotherFlushMemOnly w fi curr_memory_used = true <->
    additional_flush_step_size_ fi / 2 <=
      curr_memory_used - memory_being_freed_ w /\
    additional_flush_initiation_size_ fi <= curr_memory_used)) /\
  (curr_memory_used < memory_being_freed_ w ->
   (ShouldInitiateAnotherFlushMemOnly w fi curr_memory_used = true <->
    additional_flush_step_size_ fi / 2 <=
      SizeT.modulus - (memory_being_freed_ w - curr_memory_used) /\
    additional_flush_initiation_size_ fi <= curr_memory_used)).
Proof.
  intros Hu Hf. unfold ShouldInitiateAnotherFlushMemOnly, SizeT.div.
  unfold SizeT.in_range in *.
  split; intros Hcmp; rewrite andb_true_iff, !Z.leb_le.
  - unfold SizeT.sub. rewrite SizeT_wrap_small
      by (unfold SizeT.in_range; lia). reflexivity.
  - assert (Hsub : SizeT.sub curr_memory_used (memory_being_freed_ w) =
                   SizeT.modulus - (memory_being_freed_ w - curr_memory_used)).
    { unfold SizeT.sub, SizeT.wrap.
      replace (curr_memory_used - memory_being_freed_ w)
        with (SizeT.modulus - (memory_being_freed_ w - curr_memory_used)
              + (-1) * SizeT.modulus) by lia.
      rewrite Z.mod_add by (unfold SizeT.modulus; lia).
      apply Z.mod_small. lia. }
    now rewrite Hsub.
Qed.

(** X5: the rotating cursor of the flush initiators.  With at least one
    initiator registered the next candidate is always a valid position,
    whatever the cursor was: one more than a position that is not the last,
    position 0 after the last, and also position 0 when the cursor holds
    [kInvalidInitiatorIdx], whose increment wraps around. *)
Theorem CalcNextCandidateInitiatorIdx_rotates (fi : FlushInitiation) :
  let n := Z.of_nat (length (flush_initiators_ fi)) in
  let idx := next_candidate_initiator_idx_ fi in
  0 < n -> n < SizeT.modulus -> SizeT.in_range idx ->
  0 <= CalcNextCandidateInitiatorIdx fi < n /\
  IsInitiatorIdxValid (CalcNextCandidateInitiatorIdx fi) = true /\
  (idx + 1 < n -> CalcNextCandidateInitiatorIdx fi = idx + 1) /\
  (idx + 1 = n -> CalcNextCandidateInitiatorIdx fi = 0) /\
  (IsInitiatorIdxValid idx = false -> CalcNextCandidateInitiatorIdx fi = 0).
Proof.
  intros n idx Hn Hmax Hidx.
  assert (Hcalc : CalcNextCandidateInitiatorIdx fi = SizeT.add idx 1 mod n).
  { unfold CalcNextCandidateInitiatorIdx. subst n idx.
    destruct (flush_initiators_ fi); [simpl in Hn; lia | reflexivity]. }
  assert (Hrange : 0 <= CalcNextCandidateInitiatorIdx fi < n)
    by (rewrite Hcalc; apply Z.mod_pos_bound; exact Hn).
  unfold SizeT.in_range in Hidx.
  split; [exact Hrange |]. split; [| split; [| split]].
  - unfold IsInitiatorIdxValid, kInvalidInitiatorIdx.
    apply negb_true_iff, Z.eqb_neq. lia.
  - intros Hlt. rewrite Hcalc. unfold SizeT.add.
    rewrite SizeT_wrap_small by (unfold SizeT.in_range; lia).
    apply Z.mod_small. lia.
  - intros Hlast. rewrite Hcalc. unfold SizeT.add.
    rewrite SizeT_wrap_small by (unfold SizeT.in_range; lia).
    rewrite Hlast. apply Z.mod_same. lia.
  - unfold IsInitiatorIdxValid, kInvalidInitiatorIdx.
    rewrite negb_false_iff, Z.eqb_eq. intros Hinv.
    rewrite Hcalc, Hinv. unfold SizeT.add, SizeT.wrap.
    replace (SizeT.modulus - 1 + 1) with SizeT.modulus by lia.
    rewrite Z.mod_same by (unfold SizeT.modulus; lia).
    apply Z.mod_0_l. lia.
Qed.

End WBMMore.

Lemma ShouldFlush_needs_mutable_memory_witness :
  WBM.initiate_flushes_ WBM.full_wbm = false /\
  WBM.memory_inactive_ WBM.full_wbm < WBM.memory_used_ WBM.full_wbm.
Proof.
  destruct (ShouldFlush_needs_mutable_memory WBM.full_wbm eq_refl)
    as (Hinit & _ & Hmutable).
  split; [exact Hinit | apply Hmutable; by_evaluation].
Defined.

Lemma ShouldFlush_at_buffer_size_witness :
  WBM.ShouldFlush WBM.full_wbm = true.
Proof.
  apply ShouldFlush_at_buffer_size; by_evaluation.
Defined.

Lemma SetBufferSize_limits_witness :
  WBM.mutable_limit_
    (WBM.SetBufferSize (fun w => w) (fun _ w => w) WBM.full_wbm 4096) = 3584.
Proof.
  destruct (SetBufferSize_limits (fun w => w) (fun _ w => w) WBM.full_wbm 4096)
    as (_ & _ & Hlimit & _).
  - intros w0. split; reflexivity.
  - intros q w0. split; reflexivity.
  - by_evaluation.
  - apply Hlimit. by_evaluation.
Defined.

Lemma ShouldInitiateAnotherFlushMemOnly_wraps_witness :
  WBM.ShouldInitiateAnotherFlushMemOnly WBM.racing_wbm WBM.sample_initiation 10
    = true.
Proof.
  destruct (ShouldInitiateAnotherFlushMemOnly_wraps WBM.racing_wbm
              WBM.sample_initiation 10) as [_ Hwrapped].
  - by_evaluation.
  - by_evaluation.
  - apply Hwrapped; by_evaluation.
Defined.

Lemma CalcNextCandidateInitiatorIdx_rotates_witness :
  WBM.CalcNextCandidateInitiatorIdx WBM.sample_initiation = 2.
Proof.
  destruct (CalcNextCandidateInitiatorIdx_rotates WBM.sample_initiation)
    as (_ & _ & Hnext & _).
  - by_evaluation.
  - by_evaluation.
  - by_evaluation.
  - apply Hnext. by_evaluation.
Defined.

(** ** Pinning policies: budgets and tiers *)

Section PinningMore.

Import Pinning.

(** X6: the scoped policy is monotone.  When a pin of [size] bytes is
    accepted at [usage] (and their sum fits in [size_t]), every smaller pin
    at every lower usage is accepted for the same table, whatever its
    category and role. *)
Theorem CheckPin_monotone
    (options_ : ScopedPinningOptions) (tpi : TablePinningInfo)
    (category category' : HierarchyCategory) (role role' : CacheEntryRole)
    (size usage size' usage' : Z) :
  0 <= size' <= size -> 0 <= usage' <= usage ->
  usage + size < SizeT.modulus ->
  CheckPin options_ tpi category role size usage = true ->
  CheckPin options_ tpi category' role' size' usage' = true.
Proof.
  intros Hs Hu Hsum. unfold CheckPin, SizeT.add.
  rewrite !SizeT_wrap_small by (unfold SizeT.in_range; lia).
  destruct (is_last_level_with_data tpi &&
            (0 <? last_level_with_data_percent options_));
    [| destruct ((0 <? level tpi) && (0 <? mid_percent options_))];
    repeat match goal with
    | |- context [?a <? ?b] => destruct (Z.ltb_spec a b)
    end; try reflexivity; try discriminate; lia.
Qed.

(** X7: a [TablePinningInfo] built by its constructor is in the last level
    with data only at a level above 0; for a table built at level 0 or
    below the scoped policy therefore checks the whole capacity, whatever
    the two percentages and the flag passed to the constructor. *)
Theorem CheckPin_constructed_at_level_0
    (options_ : ScopedPinningOptions) (_level : Z) (_is_last : bool)
    (_owner _file_size _max : Z)
    (category : HierarchyCategory) (role : CacheEntryRole) (size usage : Z) :
  let tpi := TablePinningInfo_new _level _is_last _owner _file_size _max in
  (is_last_level_with_data tpi = true -> _is_last = true /\ 0 < level tpi) /\
  (_level <= 0 ->
   (CheckPin options_ tpi category role size usage = true <->
    SizeT.add usage size <= capacity options_)).
Proof.
  intros tpi. subst tpi. unfold TablePinningInfo_new. simpl. split.
  - destruct _is_last; [| discriminate].
    destruct (Z.leb_spec _level 0); [discriminate | intros _; split; [reflexivity | lia]].
  - intros Hlevel. unfold CheckPin. simpl.
    destruct (Z.leb_spec _level 0); [| lia].
    destruct (Z.ltb_spec 0 _level); [lia |].
    replace (if _is_last then false else false) with false
      by now destruct _is_last.
    simpl.
    destruct (Z.ltb_spec (capacity options_) (SizeT.add usage size));
      split; (discriminate || lia || reflexivity).
Qed.

(** X8: [IsPinned] returns after at most two fallbacks, also when the
    fallback tier is [kFallback] itself (which only the debug [assert]
    forbids); the answer is that of the effective tier, and a fallback to
    [kFallback] pins nothing. *)
Theorem IsPinned_total (fuel : nat) (tpi : TablePinningInfo)
    (pinning_tier fallback_pinning_tier : PinningTier) :
  IsPinned (3 + fuel) tpi pinning_tier fallback_pinning_tier =
    Some (match effective_tier pinning_tier fallback_pinning_tier with
          | kAll => true
          | kFlushedAndSimilar =>
              (level tpi =? 0) &&
              (file_size tpi <=? max_file_size_for_l0_meta_pin tpi)
          | kNone | kFallback => false
          end).
Proof.
  destruct pinning_tier, fallback_pinning_tier; reflexivity.
Qed.


End PinningMore.

Lemma CheckPin_monotone_witness :
  Pinning.CheckPin Pinning.sample_scoped Pinning.sample_tpi
    Pinning.PARTITION 0%nat 100 200 = true.
Proof.
  apply (CheckPin_monotone Pinning.sample_scoped Pinning.sample_tpi
           Pinning.TOP_LEVEL Pinning.PARTITION 1%nat 0%nat 300 500 100 200);
    by_evaluation.
Defined.

Lemma CheckPin_constructed_at_level_0_witness :
  Pinning.CheckPin Pinning.sample_scoped
    (Pinning.TablePinningInfo_new 0 true 1 4096 8192)
    Pinning.OTHER 0%nat 400 600 = true.
Proof.
  destruct (CheckPin_constructed_at_level_0 Pinning.sample_scoped 0 true 1
              4096 8192 Pinning.OTHER 0%nat 400 600) as [_ Hcapacity].
  apply Hcapacity; by_evaluation.
Defined.


(** ** Memtable: lookups after inserts *)

Section HashSpdLookup.

Import HashSpd.

Context {Key : Type} {KC : KeyComparator Key}.
Hypothesis order : ComparatorOrder KC.
Hypothesis hash_ok : HashRespectsComparator KC.

Lemma cmp_eq_trans (a b c : Key) :
  comparator a b = 0 -> comparator b c = 0 -> comparator a c = 0.
Proof.
  intros Hab Hbc.
  destruct (Z.lt_trichotomy (comparator a c) 0) as [Hlt | [Heq | Hgt]];
    [| exact Heq |].
  - pose proof (cmp_lt_eq KC order a c b Hlt (cmp_eq_sym KC order _ _ Hbc)).
    lia.
  - pose proof (cmp_antisym KC order a c ltac:(lia)) as Hca.
    pose proof (cmp_lt_eq KC order c a b Hca Hab) as Hcb.
    pose proof (cmp_eq_sym KC order _ _ Hbc). lia.
Qed.

Lemma cmp_eq_lt (a b c : Key) :
  comparator a b = 0 -> comparator b c < 0 -> comparator a c < 0.
Proof.
  intros Hab Hbc.
  destruct (Z.lt_trichotomy (comparator a c) 0) as [Hlt | [Heq | Hgt]];
    [exact Hlt | |].
  - pose proof (cmp_lt_eq KC order b c a Hbc (cmp_eq_sym KC order _ _ Heq)).
    pose proof (cmp_eq_sym KC order _ _ Hab). lia.
  - pose proof (cmp_antisym KC order a c ltac:(lia)) as Hca.
    pose proof (cmp_lt_eq KC order c a b Hca Hab) as Hcb.
    pose proof (cmp_trans KC order b c b Hbc Hcb).
    pose proof (cmp_refl KC order b). lia.
Qed.

Lemma elem_of_concat_2 {A : Type} (ls : list (list A)) (l : list A) (x : A) :
  x ∈ l -> l ∈ ls -> x ∈ concat ls.
Proof.
  intros Hx Hl. induction Hl as [l ls | l l' ls Hl IH]; simpl;
    apply elem_of_app; [now left | right; exact (IH Hx)].
Qed.

Lemma bucket_index_lt (t : SpdbHashTable Key) (k : Key) :
  (0 < length (buckets_ t))%nat ->
  (bucket_index t k < length (buckets_ t))%nat.
Proof.
  intros Hpos. unfold bucket_index.
  pose proof (Z.mod_pos_bound (bucket_hash k)
                (Z.of_nat (length (buckets_ t))) ltac:(lia)).
  lia.
Qed.

Lemma step_buckets_length (rep : HashSpdRep Key) (op : Op Key) :
  length (buckets_ (spdb_hash_table_ (step rep op))) =
  length (buckets_ (spdb_hash_table_ rep)).
Proof.
  destruct op as [handle | |]; simpl; try reflexivity.
  - unfold InsertKey.
    destruct (SpdbHashTable_Add (spdb_hash_table_ rep) handle)
      as [[|] t'] eqn:Hadd; simpl; [| reflexivity].
    apply (SpdbHashTable_Add_length _ _ _ _ Hadd).
  - unfold GetIterator. destruct (SpdbVectorContainer_IsEmpty _);
      [reflexivity |].
    now destruct (InitIterator (spdb_vectors_cont_ rep)).
Qed.

(** Every key linked by a step was linked before or is the inserted one. *)
Lemma step_table_keys (rep : HashSpdRep Key) (op : Op Key) (e : Key) :
  Forall bucket_sorted (buckets_ (spdb_hash_table_ rep)) ->
  e ∈ table_keys (spdb_hash_table_ (step rep op)) ->
  e ∈ table_keys (spdb_hash_table_ rep) \/ op = OpInsertKey e.
Proof.
  intros Hs. destruct op as [handle | |]; simpl.
  - unfold InsertKey.
    destruct (SpdbHashTable_Add (spdb_hash_table_ rep) handle)
      as [[|] t'] eqn:Hadd; simpl; [| now left].
    rewrite (SpdbHashTable_Add_keys order _ _ _ Hs Hadd).
    rewrite elem_of_cons. intros [-> | Hin]; [now right | now left].
  - now left.
  - unfold GetIterator. destruct (SpdbVectorContainer_IsEmpty _);
      [now left |].
    destruct (InitIterator (spdb_vectors_cont_ rep)). now left.
Qed.

Lemma run_table_keys (ops : list (Op Key)) (rep : HashSpdRep Key) (e : Key) :
  Forall bucket_sorted (buckets_ (spdb_hash_table_ rep)) ->
  e ∈ table_keys (spdb_hash_table_ (run ops rep)) ->
  e ∈ table_keys (spdb_hash_table_ rep) \/ OpInsertKey e ∈ ops.
Proof.
  unfold run. revert rep.
  induction ops as [| op ops IH]; intros rep Hs Hin; simpl in *;
    [now left |].
  destruct (IH _ (step_sorted order rep op Hs) Hin) as [Hstep | Hops].
  - destruct (step_table_keys rep op e Hs Hstep) as [Hrep | ->];
      [now left | right; left].
  - right. now right.
Qed.

(** An insert leaves an entry equal to the handle linked in the bucket the
    handle hashes to: the handle itself, or the entry that made the insert
    fail. *)
Lemma InsertKey_leaves_equal (rep : HashSpdRep Key) (h : Key) :
  Forall bucket_sorted (buckets_ (spdb_hash_table_ rep)) ->
  (0 < length (buckets_ (spdb_hash_table_ rep)))%nat ->
  exists e, linked (spdb_hash_table_ (step rep (OpInsertKey h))) e /\
            comparator e h = 0.
Proof.
  intros Hs Hpos. simpl. unfold InsertKey.
  destruct (SpdbHashTable_Add (spdb_hash_table_ rep) h) as [[|] t'] eqn:Hadd;
    simpl.
  - exists h. split; [| apply (cmp_refl KC order)].
    apply (SpdbHashTable_Add_linked_new order _ _ _ Hs Hadd).
  - unfold SpdbHashTable_Add in Hadd.
    destruct (lookup_lt_is_Some_2 _ _
                (bucket_index_lt (spdb_hash_table_ rep) h Hpos)) as [b Hb].
    rewrite Hb in Hadd. unfold BucketHeader_Add in Hadd.
    destruct (Add_from (items_ b) h) as [chain |] eqn:Hfrom;
      [discriminate |].
    apply Add_from_None in Hfrom. apply Exists_exists in Hfrom.
    destruct Hfrom as (e & Hin & Heq).
    exists e. split; [| exact Heq].
    exists b. split; [| exact Hin].
    unfold bucket_index. now rewrite (hash_ok _ _ Heq).
Qed.

Lemma run_inserted_linked (ops : list (Op Key)) (rep : HashSpdRep Key)
    (h : Key) :
  Forall bucket_sorted (buckets_ (spdb_hash_table_ rep)) ->
  (0 < length (buckets_ (spdb_hash_table_ rep)))%nat ->
  OpInsertKey h ∈ ops ->
  exists e, linked (spdb_hash_table_ (run ops rep)) e /\ comparator e h = 0.
Proof.
  revert rep.
  induction ops as [| op ops IH]; intros rep Hs Hpos Hin;
    [inversion Hin |].
  apply elem_of_cons in Hin. destruct Hin as [<- | Hin].
  - destruct (InsertKey_leaves_equal rep h Hs Hpos) as (e & Hl & Heq).
    exists e. split; [| exact Heq].
    apply (linked_run order ops _ e (step_sorted order rep _ Hs) Hl).
  - apply IH; [now apply step_sorted | | exact Hin].
    now rewrite step_buckets_length.
Qed.

Lemma new_table_sorted (nb : nat) (limit : Z) :
  Forall bucket_sorted
    (buckets_ (spdb_hash_table_ (@HashSpdRep_new Key nb limit))).
Proof.
  simpl. apply Forall_replicate. constructor.
Qed.

Lemma new_table_keys (nb : nat) (limit : Z) :
  table_keys (spdb_hash_table_ (@HashSpdRep_new Key nb limit)) = [].
Proof.
  unfold table_keys. simpl.
  induction nb as [| nb IH]; simpl; [reflexivity | exact IH].
Qed.

(** X10: insert/lookup round trip.  On a memtable with at least one bucket,
    after any sequence of inserts, sort-thread turns and iterator
    constructions, [Contains] answers [true] for a key exactly when a
    handle that compares equal to it has been passed to [InsertKey]
    (whether that insert was accepted or rejected as a duplicate). *)
Theorem Contains_iff_inserted (nb : nat) (limit : Z) (ops : list (Op Key))
    (k : Key) :
  (0 < nb)%nat ->
  Contains (run ops (HashSpdRep_new nb limit)) k = true <->
  exists h, OpInsertKey h ∈ ops /\ comparator h k = 0.
Proof.
  intros Hnb.
  pose proof (run_sorted order ops _ (new_table_sorted nb limit)) as Hs.
  split.
  - unfold Contains, SpdbHashTable_Contains.
    destruct (buckets_ _ !! bucket_index _ k) as [b |] eqn:Hb;
      [| discriminate].
    unfold BucketHeader_Contains. intros Hc.
    apply (Contains_from_iff order) in Hc;
      [| apply (Forall_lookup_1 _ _ _ _ Hs Hb)].
    destruct Hc as (e & Hin & Heq). exists e. split; [| exact Heq].
    assert (Hkeys : e ∈ table_keys
                      (spdb_hash_table_ (run ops (HashSpdRep_new nb limit)))).
    { unfold table_keys. apply (elem_of_concat_2 _ (items_ b)); [exact Hin |].
      apply list_elem_of_fmap_2, (list_elem_of_lookup_2 _ _ _ Hb). }
    destruct (run_table_keys ops _ e (new_table_sorted nb limit) Hkeys)
      as [Hnew | Hops]; [| exact Hops].
    rewrite new_table_keys in Hnew. inversion Hnew.
  - intros (h & Hin & Heq).
    destruct (run_inserted_linked ops (HashSpdRep_new nb limit) h
                (new_table_sorted nb limit)) as (e & Hl & Heh);
      [simpl; rewrite length_replicate; exact Hnb | exact Hin |].
    unfold Contains.
    apply (SpdbHashTable_Contains_linked order _ e k hash_ok Hs Hl).
    apply (cmp_eq_trans _ _ _ Heh Heq).
Qed.

Lemma Get_emit_traced {A : Type} (callback_func : A -> Key -> A * bool)
    (iter : list Key) (callback_args : A) (calls : list Key) :
  exists more,
    Get_emit (traced callback_func) (callback_args, calls) iter =
      (Get_emit callback_func callback_args iter, calls ++ more) /\
    more `prefix_of` iter /\ head more = head iter.
Proof.
  revert callback_args calls.
  induction iter as [| e next IH]; intros callback_args calls; simpl.
  - exists []. rewrite app_nil_r. repeat split. reflexivity.
  - unfold traced at 1. simpl.
    destruct (callback_func callback_args e) as [args' [|]].
    + destruct (IH args' (calls ++ [e])) as (more & Heq & Hpre & _).
      exists (e :: more). rewrite Heq, <- app_assoc. simpl.
      repeat split. now apply prefix_cons.
    + exists [e]. repeat split. apply prefix_cons, prefix_nil.
Qed.

Lemma Get_seek_suffix (l : list Key) (k : Key) :
  exists skipped, l = skipped ++ Get_seek l k.
Proof.
  induction l as [| e next (skipped & IH)]; simpl; [now exists [] |].
  destruct (0 <=? comparator e k); [now exists [] |].
  exists (e :: skipped). simpl. now f_equal.
Qed.

Lemma StronglySorted_app_inv {A : Type} (R : A -> A -> Prop) (l1 l2 : list A) :
  StronglySorted R (l1 ++ l2) -> StronglySorted R l1 /\ StronglySorted R l2.
Proof.
  induction l1 as [| x l1 IH]; simpl; intros Hs; [split; [constructor | exact Hs] |].
  apply StronglySorted_inv in Hs. destruct Hs as [Hs Hx].
  destruct (IH Hs) as [H1 H2]. split; [| exact H2].
  constructor; [exact H1 |].
  apply Forall_app in Hx. tauto.
Qed.

(** The first loop of [Get] stops at the entry that compares equal to the
    lookup key, when the chain holds one. *)
Lemma Get_seek_head (l : list Key) (e k : Key) :
  StronglySorted key_lt l -> e ∈ l -> comparator e k = 0 ->
  head (Get_seek l k) = Some e.
Proof.
  induction 1 as [| x l Hs IH Hx]; intros Hin Heq; [inversion Hin |].
  simpl. apply elem_of_cons in Hin. destruct Hin as [<- | Hin].
  - rewrite Heq. reflexivity.
  - assert (Hlt : comparator x k < 0).
    { apply (cmp_lt_eq KC order x e k); [| exact Heq].
      apply (proj1 (Forall_forall _ _) Hx e Hin). }
    destruct (Z.leb_spec 0 (comparator x k)); [lia |].
    now apply IH.
Qed.

(** A step only adds to a bucket. *)
Lemma step_keeps_in_bucket (rep : HashSpdRep Key) (op : Op Key) (i : nat)
    (b : BucketHeader Key) (e : Key) :
  Forall bucket_sorted (buckets_ (spdb_hash_table_ rep)) ->
  buckets_ (spdb_hash_table_ rep) !! i = Some b -> e ∈ items_ b ->
  exists b', buckets_ (spdb_hash_table_ (step rep op)) !! i = Some b' /\
             e ∈ items_ b'.
Proof.
  intros Hs Hb Hin. destruct op as [handle | |]; simpl.
  - unfold InsertKey.
    destruct (SpdbHashTable_Add (spdb_hash_table_ rep) handle)
      as [[|] t'] eqn:Hadd; simpl; [| now exists b].
    destruct (SpdbHashTable_Add_true order _ _ _ Hs Hadd)
      as (b0 & chain & Hb0 & _ & -> & Hp).
    destruct (decide (bucket_index (spdb_hash_table_ rep) handle = i))
      as [Heq | Hne].
    + subst i. rewrite Hb in Hb0. injection Hb0 as <-.
      exists {| items_ := chain |}. split.
      * apply list_lookup_insert_eq. now apply lookup_lt_Some in Hb.
      * simpl. rewrite Hp. now right.
    + exists b. split; [| exact Hin]. now rewrite list_lookup_insert_ne.
  - now exists b.
  - unfold GetIterator. destruct (SpdbVectorContainer_IsEmpty _);
      [now exists b |].
    destruct (InitIterator (spdb_vectors_cont_ rep)). now exists b.
Qed.

(** After its insert, an entry equal to the handle sits in the bucket the
    hash of the handle selects: the handle itself, or the entry that made
    the insert fail. *)
Lemma run_inserted_in_bucket (ops : list (Op Key)) (rep : HashSpdRep Key)
    (h : Key) :
  Forall bucket_sorted (buckets_ (spdb_hash_table_ rep)) ->
  (0 < length (buckets_ (spdb_hash_table_ rep)))%nat ->
  OpInsertKey h ∈ ops ->
  exists b e,
    buckets_ (spdb_hash_table_ (run ops rep))
      !! bucket_index (spdb_hash_table_ rep) h = Some b /\
    e ∈ items_ b /\ comparator e h = 0.
Proof.
  assert (Hkeep : forall (ops : list (Op Key)) (rep : HashSpdRep Key) i b e,
            Forall bucket_sorted (buckets_ (spdb_hash_table_ rep)) ->
            buckets_ (spdb_hash_table_ rep) !! i = Some b -> e ∈ items_ b ->
            exists b', buckets_ (spdb_hash_table_ (run ops rep)) !! i = Some b'
                       /\ e ∈ items_ b').
  { clear ops rep h. unfold run.
    induction ops as [| op ops IH]; intros rep i b e Hs Hb Hin; simpl;
      [now exists b |].
    destruct (step_keeps_in_bucket rep op i b e Hs Hb Hin) as (b1 & Hb1 & Hin1).
    apply (IH _ i b1 e); [now apply step_sorted | exact Hb1 | exact Hin1]. }
  revert rep.
  induction ops as [| op ops IH]; intros rep Hs Hpos Hin;
    [inversion Hin |].
  apply elem_of_cons in Hin. destruct Hin as [<- | Hin].
  - assert (Hfirst : exists b e,
              buckets_ (spdb_hash_table_ (step rep (OpInsertKey h)))
                !! bucket_index (spdb_hash_table_ rep) h = Some b /\
              e ∈ items_ b /\ comparator e h = 0).
    { simpl. unfold InsertKey.
      destruct (lookup_lt_is_Some_2 _ _
                  (bucket_index_lt (spdb_hash_table_ rep) h Hpos)) as [b Hb].
      destruct (SpdbHashTable_Add (spdb_hash_table_ rep) h) as [[|] t']
        eqn:Hadd; simpl.
      - destruct (SpdbHashTable_Add_true order _ _ _ Hs Hadd)
          as (b0 & chain & Hb0 & _ & -> & Hp).
        exists {| items_ := chain |}, h. split; [| split].
        + apply list_lookup_insert_eq. now apply lookup_lt_Some in Hb0.
        + simpl. rewrite Hp. now left.
        + apply (cmp_refl KC order).
      - unfold SpdbHashTable_Add in Hadd. rewrite Hb in Hadd.
        unfold BucketHeader_Add in Hadd.
        destruct (Add_from (items_ b) h) as [chain |] eqn:Hfrom;
          [discriminate |].
        apply Add_from_None in Hfrom. apply Exists_exists in Hfrom.
        destruct Hfrom as (e & Hine & Heq).
        exists b, e. repeat split; assumption. }
    destruct Hfirst as (b & e & Hb & Hine & Heq).
    destruct (Hkeep ops _ _ b e (step_sorted order rep _ Hs) Hb Hine)
      as (b' & Hb' & Hine').
    exists b', e. repeat split; assumption.
  - destruct (IH (step rep op)) as (b & e & Hb & Hine & Heq);
      [now apply step_sorted | now rewrite step_buckets_length | exact Hin |].
    exists b, e. split; [| split; assumption].
    unfold bucket_index in *. now rewrite step_buckets_length in Hb.
Qed.


Lemma step_table_keys_length (rep : HashSpdRep Key) (op : Op Key) :
  Forall bucket_sorted (buckets_ (spdb_hash_table_ rep)) ->
  (length (table_keys (spdb_hash_table_ (step rep op)))
   <= S (length (table_keys (spdb_hash_table_ rep))))%nat.
Proof.
  intros Hs. destruct op as [handle | |]; simpl.
  - unfold InsertKey.
    destruct (SpdbHashTable_Add (spdb_hash_table_ rep) handle)
      as [[|] t'] eqn:Hadd; simpl; [| lia].
    rewrite (SpdbHashTable_Add_keys order _ _ _ Hs Hadd). simpl. lia.
  - lia.
  - unfold GetIterator. destruct (SpdbVectorContainer_IsEmpty _);
      [simpl; lia |].
    destruct (InitIterator (spdb_vectors_cont_ rep)). simpl. lia.
Qed.

Lemma run_table_keys_length (ops : list (Op Key)) (rep : HashSpdRep Key) :
  Forall bucket_sorted (buckets_ (spdb_hash_table_ rep)) ->
  (length (table_keys (spdb_hash_table_ (run ops rep)))
   <= length (table_keys (spdb_hash_table_ rep)) + length ops)%nat.
Proof.
  unfold run. revert rep.
  induction ops as [| op ops IH]; intros rep Hs; simpl; [lia |].
  pose proof (IH _ (step_sorted order rep op Hs)) as Hrest.
  pose proof (step_table_keys_length rep op Hs). lia.
Qed.

(** X27: [GetIterator] hands out the empty iterator exactly on a memtable
    that never received a key.  On a memtable with at least one bucket,
    after fewer than 2^64 calls, the iterator returned is
    [SpdbVectorIteratorEmpty] if and only if no [InsertKey] is among the
    calls made so far. *)
Theorem GetIterator_empty_iff_no_insert (nb : nat) (limit : Z)
    (ops : list (Op Key)) :
  (0 < nb)%nat -> 0 < limit -> limit + 2 < SizeT.modulus ->
  Z.of_nat (length ops) < SizeT.modulus ->
  snd (GetIterator (run ops (HashSpdRep_new nb limit)))
    = SpdbVectorIteratorEmpty <->
  forall h, OpInsertKey h ∉ ops.
Proof.
  intros Hnb Hlimit Hmax Hops.
  set (rep := run ops (HashSpdRep_new nb limit)).
  assert (Hinv : Inv limit rep).
  { apply (Inv_run order); [exact Hlimit | exact Hmax |].
    apply Inv_new. lia. }
  pose proof (run_table_keys_length ops _ (new_table_sorted nb limit)) as Hlen.
  fold rep in Hlen. rewrite new_table_keys in Hlen. simpl in Hlen.
  assert (Hcount : num_elements_ (spdb_vectors_cont_ rep) =
                   Z.of_nat (length (table_keys (spdb_hash_table_ rep)))).
  { rewrite (inv_count limit rep Hinv), <- (inv_keys limit rep Hinv).
    apply SizeT_wrap_small. unfold SizeT.in_range. lia. }
  assert (Hempty : snd (GetIterator rep) = SpdbVectorIteratorEmpty <->
                   table_keys (spdb_hash_table_ rep) = []).
  { unfold GetIterator, SpdbVectorContainer_IsEmpty. rewrite Hcount.
    destruct (table_keys (spdb_hash_table_ rep)) as [| e l] eqn:Hkeys.
    - simpl. tauto.
    - replace (Z.of_nat (length (e :: l)) =? 0) with false
        by (symmetry; apply Z.eqb_neq; simpl; lia).
      destruct (InitIterator (spdb_vectors_cont_ rep)). simpl.
      split; discriminate. }
  rewrite Hempty. split.
  - intros Hkeys h Hin.
    destruct (run_inserted_linked ops (HashSpdRep_new nb limit) h
                (new_table_sorted nb limit)) as (e & (b & Hb & He) & _);
      [simpl; rewrite length_replicate; exact Hnb | exact Hin |].
    fold rep in Hb.
    assert (Hin' : e ∈ table_keys (spdb_hash_table_ rep)).
    { unfold table_keys. apply (elem_of_concat_2 _ (items_ b)); [exact He |].
      apply list_elem_of_fmap_2, (list_elem_of_lookup_2 _ _ _ Hb). }
    rewrite Hkeys in Hin'. inversion Hin'.
  - intros Hnone.
    destruct (table_keys (spdb_hash_table_ rep)) as [| e l] eqn:Hkeys;
      [reflexivity |].
    exfalso.
    destruct (run_table_keys ops (HashSpdRep_new nb limit) e
                (new_table_sorted nb limit)) as [Hnew | Hin].
    + fold rep. rewrite Hkeys. left.
    + rewrite new_table_keys in Hnew. inversion Hnew.
    + exact (Hnone e Hin).
Qed.

End HashSpdLookup.

(** The integer comparator of the examples meets both contracts. *)
Lemma Z_KeyComparator_order :
  HashSpd.ComparatorOrder HashSpd.Z_KeyComparator.
Proof. split; simpl; intros; lia. Qed.

Lemma Z_KeyComparator_hash :
  HashSpd.HashRespectsComparator HashSpd.Z_KeyComparator.
Proof. intros a b. simpl. lia. Qed.

Lemma Contains_iff_inserted_witness :
  HashSpd.Contains
    (HashSpd.run HashSpd.dup_ops1 (HashSpd.HashSpdRep_new 2 3)) 3 = true.
Proof.
  apply (Contains_iff_inserted Z_KeyComparator_order Z_KeyComparator_hash
           2 3 HashSpd.dup_ops1 3); [lia |].
  exists 3. split; [right; left | reflexivity].
Defined.


Lemma GetIterator_empty_iff_no_insert_witness :
  snd (HashSpd.GetIterator
         (HashSpd.run
            [HashSpd.OpSortThread; HashSpd.OpGetIterator]
            (HashSpd.HashSpdRep_new 2 3)))
    = HashSpd.SpdbVectorIteratorEmpty.
Proof.
  apply (GetIterator_empty_iff_no_insert Z_KeyComparator_order
           Z_KeyComparator_hash 2 3
           [HashSpd.OpSortThread; HashSpd.OpGetIterator]);
    try by_evaluation.
  intros h Hin. apply elem_of_cons in Hin. destruct Hin as [Hin | Hin];
    [discriminate |].
  apply elem_of_cons in Hin. destruct Hin as [Hin | Hin]; [discriminate |].
  inversion Hin.
Defined.

(** ** Memtable: the sorted vectors *)

Section HashSpdVector.

Import HashSpd.

Context {Key : Type} {KC : KeyComparator Key}.
Hypothesis order : ComparatorOrder KC.

Lemma key_le_trans (a b c : Key) : key_le a b -> key_le b c -> key_le a c.
Proof.
  unfold key_le. intros Hab Hbc.
  destruct (Z.eq_dec (comparator a b) 0) as [Hab0 | Hab0];
    destruct (Z.eq_dec (comparator b c) 0) as [Hbc0 | Hbc0].
  - rewrite (cmp_eq_trans order _ _ _ Hab0 Hbc0). lia.
  - pose proof (cmp_eq_lt order a b c Hab0 ltac:(lia)). lia.
  - pose proof (cmp_lt_eq KC order a b c ltac:(lia) Hbc0). lia.
  - pose proof (cmp_trans KC order a b c ltac:(lia) ltac:(lia)). lia.
Qed.

Lemma not_less_key_le (a b : Key) : 0 <= comparator a b -> key_le b a.
Proof.
  unfold key_le. intros Hge.
  destruct (Z.eq_dec (comparator a b) 0) as [Heq | Hne].
  - rewrite (cmp_eq_sym KC order _ _ Heq). lia.
  - pose proof (cmp_antisym KC order a b ltac:(lia)). lia.
Qed.

Lemma sort_insert_sorted (x : Key) (l : list Key) :
  StronglySorted key_le l ->
  StronglySorted key_le (sort_insert (fun a b => comparator a b <? 0) x l).
Proof.
  induction 1 as [| y l Hs IH Hy]; simpl; [repeat constructor |].
  destruct (Z.ltb_spec (comparator y x) 0) as [Hlt | Hge].
  - constructor; [exact IH |].
    rewrite sort_insert_Permutation. constructor; [| exact Hy].
    unfold key_le. lia.
  - pose proof (not_less_key_le y x Hge) as Hxy.
    constructor; [now constructor |].
    constructor; [exact Hxy |].
    eapply Forall_impl; [exact Hy |].
    intros z Hyz. exact (key_le_trans _ _ _ Hxy Hyz).
Qed.

Lemma std_sort_sorted (l : list Key) :
  StronglySorted key_le (std_sort (fun a b => comparator a b <? 0) l).
Proof.
  induction l as [| x l IH]; simpl; [constructor |].
  now apply sort_insert_sorted.
Qed.

Lemma sort_insert_fmap (x : Key) (l : list Key) :
  sort_insert slot_less (Some x) (Some <$> l) =
  Some <$> sort_insert (fun a b => comparator a b <? 0) x l.
Proof.
  induction l as [| y l IH]; simpl; [reflexivity |].
  destruct (comparator y x <? 0); simpl; [| reflexivity].
  f_equal. exact IH.
Qed.

Lemma std_sort_fmap (l : list Key) :
  std_sort slot_less (Some <$> l) =
  Some <$> std_sort (fun a b => comparator a b <? 0) l.
Proof.
  induction l as [| x l IH]; [reflexivity |].
  rewrite fmap_cons. unfold std_sort in *. cbn [foldr]. rewrite IH.
  apply sort_insert_fmap.
Qed.

(** X12: a vector keeps the keys that found a free slot and drops the
    others.  A run of [Add]s on a vector writes the keys in arrival order
    until the array is full, ignores the later ones, and still counts every
    attempt in [n_elements_]; the array itself never grows. *)
Theorem SpdbVector_Add_keeps_first_keys (v : SpdbVector Key) (ks : list Key) :
  vec_wf v ->
  Z.of_nat (length (vec_items_ v)) < SizeT.modulus ->
  n_elements_ v + Z.of_nat (length ks) < SizeT.modulus ->
  let v' := foldl (fun v0 k => snd (SpdbVector_Add v0 k)) v ks in
  vector_keys v' =
    vector_keys v ++
    take (length (vec_items_ v) - length (vector_keys v)) ks /\
  n_elements_ v' = n_elements_ v + Z.of_nat (length ks) /\
  length (vec_items_ v') = length (vec_items_ v).
Proof.
  revert v. induction ks as [| k ks IH]; intros v Hwf Hcap Hn;
    cbn [foldl length] in *.
  - rewrite take_nil, app_nil_r. repeat split. lia.
  - pose proof Hwf as (ks0 & m & Hitems & Hlen & Hm).
    assert (Hkeys : vector_keys v = ks0)
      by apply (vector_keys_prefix v ks0 m Hitems).
    assert (Hsize : length (vec_items_ v) = (length ks0 + m)%nat).
    { rewrite Hitems, length_app, length_fmap, length_replicate.
      reflexivity. }
    rewrite Nat2Z.inj_succ in *. rewrite Hkeys.
    destruct (Z.lt_ge_cases (n_elements_ v) (Z.of_nat (length (vec_items_ v))))
      as [Hroom | Hfull].
    + destruct (SpdbVector_Add_room v k Hwf Hroom Hcap)
        as (v1 & Hadd & Hwf1 & Hkeys1 & Hn1 & Hsize1).
      rewrite Hadd. simpl.
      destruct (IH v1 Hwf1) as (Hk & Hc & Hs); [rewrite Hsize1; lia | lia |].
      rewrite Hk, Hc, Hs, Hkeys1, Hsize1, Hkeys, Hn1, length_app, !Hsize.
      simpl.
      assert (Hm' : (0 < m)%nat) by lia.
      replace (length ks0 + m - length ks0)%nat with (S (m - 1)) by lia.
      replace (length ks0 + m - (length ks0 + 1))%nat with (m - 1)%nat by lia.
      simpl. rewrite <- app_assoc. simpl.
      split; [reflexivity | split; [lia | reflexivity]].
    + destruct (SpdbVector_Add_full v k Hwf Hfull) as (v1 & Hadd & Hwf1 & Hitems1 & Hn1);
        [lia |].
      rewrite Hadd. simpl.
      assert (Hkeys1 : vector_keys v1 = ks0).
      { rewrite !vector_keys_unfold in *. now rewrite Hitems1. }
      destruct (IH v1 Hwf1) as (Hk & Hc & Hs);
        [rewrite Hitems1; lia | lia |].
      rewrite Hk, Hc, Hs, Hkeys1, Hitems1, Hn1.
      assert (Hm0 : m = 0%nat) by lia. subst m.
      replace (length (vec_items_ v) - length ks0)%nat with 0%nat by lia.
      simpl. split; [reflexivity | split; [lia | reflexivity]].
Qed.

(** [Sort] on an unsealed vector that counts an element: the written
    slots are sorted and the rest of the array is dropped. *)
Lemma SpdbVector_Sort_unsealed (v : SpdbVector Key) :
  vec_wf v -> sorted_ v = false -> n_elements_ v <> 0 ->
  SpdbVector_Sort v =
    (true,
     {| vec_items_ :=
          Some <$> std_sort (fun a b => comparator a b <? 0) (vector_keys v);
        n_elements_ := Z.of_nat (length (vector_keys v));
        sorted_ := true |}).
Proof.
  intros Hwf Hunsealed Hnz.
  pose proof Hwf as (ks & m & Hitems & Hn & Hm).
  assert (Hlen : length (vec_items_ v) = (length ks + m)%nat).
  { rewrite Hitems, length_app, length_fmap, length_replicate. reflexivity. }
  rewrite (vector_keys_prefix v ks m Hitems).
  unfold SpdbVector_Sort. rewrite Hunsealed.
  destruct (Z.eqb_spec (n_elements_ v) 0); [contradiction |].
  set (size := Z.of_nat (length (vec_items_ v))).
  set (num := Z.min (n_elements_ v) size).
  assert (Hnum : num = Z.of_nat (length ks)) by (unfold num, size; lia).
  assert (Htrunc :
    (if num <? size then take (Z.to_nat num) (vec_items_ v)
     else vec_items_ v) = Some <$> ks).
  { destruct (Z.ltb_spec num size) as [Hlt | Hge].
    - rewrite Hnum, Nat2Z.id, Hitems.
      rewrite take_app_length' by (now rewrite length_fmap). reflexivity.
    - assert (m = 0%nat) by (unfold size in Hge; lia). subst m.
      rewrite Hitems. simpl. apply app_nil_r. }
  rewrite Htrunc, std_sort_fmap, Hnum. reflexivity.
Qed.

(** X13: what [Sort] does to an unsealed vector.  It reports [false]
    exactly on a vector that counts no element; otherwise it seals the
    vector, which then holds the same keys in ascending comparator order,
    no unwritten slot, and a count equal to the number of keys (the
    attempts that found the array full are forgotten); sorting the result
    again changes nothing. *)
Theorem SpdbVector_Sort_seals (v : SpdbVector Key) :
  vec_wf v -> sorted_ v = false ->
  let v' := snd (SpdbVector_Sort v) in
  (fst (SpdbVector_Sort v) = false <-> n_elements_ v = 0) /\
  (n_elements_ v <> 0 ->
   sorted_ v' = true /\
   vec_items_ v' = Some <$> vector_keys v' /\
   n_elements_ v' = Z.of_nat (length (vector_keys v')) /\
   vector_keys v' ≡ₚ vector_keys v /\
   StronglySorted key_le (vector_keys v')) /\
  snd (SpdbVector_Sort v') = v'.
Proof.
  intros Hwf Hunsealed v'. subst v'.
  destruct (Z.eqb_spec (n_elements_ v) 0) as [Hz | Hnz].
  { assert (Hsort : SpdbVector_Sort v = (false, v)).
    { unfold SpdbVector_Sort.
      destruct (Z.eqb_spec (n_elements_ v) 0); [reflexivity | contradiction]. }
    rewrite Hsort. simpl. rewrite Hsort. simpl.
    split; [tauto |]. split; [intros Hc; contradiction | reflexivity]. }
  rewrite (SpdbVector_Sort_unsealed v Hwf Hunsealed Hnz). cbn [fst snd].
  set (sorted := std_sort (fun a b => comparator a b <? 0) (vector_keys v)).
  assert (Hperm : sorted ≡ₚ vector_keys v) by apply std_sort_Permutation.
  assert (Hsk : vector_keys
                  {| vec_items_ := Some <$> sorted;
                     n_elements_ := Z.of_nat (length (vector_keys v));
                     sorted_ := true |} = sorted).
  { rewrite vector_keys_unfold. cbn [vec_items_]. apply omap_id_Some. }
  split; [split; [discriminate | intros; contradiction] |].
  split.
  - intros _. rewrite Hsk. cbn [sorted_ vec_items_ n_elements_].
    split; [reflexivity |]. split; [reflexivity |].
    split; [now rewrite Hperm |].
    split; [exact Hperm | apply std_sort_sorted].
  - unfold SpdbVector_Sort. cbn [sorted_ vec_items_ n_elements_].
    destruct (Z.of_nat (length (vector_keys v)) =? 0); reflexivity.
Qed.

Lemma key_le_lt_trans (a b c : Key) :
  key_le a b -> comparator b c < 0 -> comparator a c < 0.
Proof.
  unfold key_le. intros Hab Hbc.
  destruct (Z.eq_dec (comparator a b) 0) as [Hab0 | Hab0].
  - exact (cmp_eq_lt order a b c Hab0 Hbc).
  - exact (cmp_trans KC order a b c ltac:(lia) Hbc).
Qed.

Lemma key_lt_not_le (a b : Key) : comparator a b < 0 -> ~ comparator b a <= 0.
Proof.
  intros Hab Hba.
  pose proof (key_le_lt_trans b a b Hba Hab).
  pose proof (cmp_refl KC order b). lia.
Qed.

Lemma StronglySorted_lookup {A : Type} (R : A -> A -> Prop) (l : list A)
    (i j : nat) (a b : A) :
  StronglySorted R l -> (i < j)%nat -> l !! i = Some a -> l !! j = Some b ->
  R a b.
Proof.
  intros Hs. revert i j.
  induction Hs as [| x l Hs IH Hx]; intros i j Hij Ha Hb;
    [now rewrite lookup_nil in Ha |].
  destruct j as [| j]; [lia |]. simpl in Hb.
  destruct i as [| i]; simpl in Ha.
  - injection Ha as <-.
    apply (proj1 (Forall_forall _ _) Hx).
    apply (list_elem_of_lookup_2 _ _ _ Hb).
  - apply (IH i j); [lia | exact Ha | exact Hb].
Qed.

Lemma StronglySorted_lt_le (l : list Key) :
  StronglySorted key_lt l -> StronglySorted key_le l.
Proof.
  induction 1 as [| x l Hs IH Hx]; constructor; [exact IH |].
  eapply Forall_impl; [exact Hx |]. unfold key_lt, key_le. intros; lia.
Qed.

(** On keys in ascending order [lower_bound] is the partition point: the
    entries before it are below the key, the others are not. *)
Lemma lower_bound_partition (ks : list Key) (k : Key) :
  StronglySorted key_le ks ->
  (lower_bound (Some <$> ks) k <= length ks)%nat /\
  forall j e, ks !! j = Some e ->
    ((j < lower_bound (Some <$> ks) k)%nat <-> comparator e k < 0).
Proof.
  induction 1 as [| x l Hs [IHlen IH] Hx].
  - split; [simpl; lia |]. intros j e Hj. now rewrite lookup_nil in Hj.
  - rewrite fmap_cons. cbn [lower_bound slot_less length].
    destruct (Z.ltb_spec (comparator x k) 0) as [Hlt | Hge].
    + split; [lia |]. intros [| j] e Hj; simpl in Hj.
      * injection Hj as <-. split; [intros _; exact Hlt | lia].
      * rewrite <- (IH j e Hj). lia.
    + split; [lia |]. intros j e Hj. split; [lia |]. intros He. exfalso.
      destruct j as [| j]; simpl in Hj.
      * injection Hj as <-. lia.
      * pose proof (proj1 (Forall_forall _ _) Hx e
                      (list_elem_of_lookup_2 _ _ _ Hj)) as Hxe.
        pose proof (key_le_lt_trans x e k Hxe He). lia.
Qed.

Lemma lower_bound_all_below (ks : list Key) (k : Key) :
  Forall (fun e => comparator e k < 0) ks ->
  lower_bound (Some <$> ks) k = length ks.
Proof.
  induction 1 as [| x l Hx Hl IH]; [reflexivity |].
  rewrite fmap_cons. cbn [lower_bound slot_less length].
  destruct (Z.ltb_spec (comparator x k) 0); [now rewrite IH | lia].
Qed.

Lemma sorted_below_last (ks : list Key) (back : Key) :
  StronglySorted key_le ks -> last ks = Some back ->
  Forall (fun e => key_le e back) ks.
Proof.
  intros Hs Hlast. apply Forall_lookup. intros j e Hj.
  rewrite last_lookup in Hlast.
  destruct (Nat.eq_dec j (pred (length ks))) as [-> | Hne].
  - rewrite Hj in Hlast. injection Hlast as ->.
    unfold key_le. rewrite (cmp_refl KC order). lia.
  - apply (StronglySorted_lookup key_le ks j (pred (length ks)) e back Hs);
      [| exact Hj | exact Hlast].
    apply lookup_lt_Some in Hj. lia.
Qed.

Lemma sorted_above_head (ks : list Key) (front : Key) :
  StronglySorted key_le ks -> head ks = Some front ->
  Forall (fun e => key_le front e) ks.
Proof.
  intros Hs Hhead. destruct ks as [| x l]; [discriminate |].
  injection Hhead as ->. apply StronglySorted_inv in Hs.
  constructor; [| tauto].
  unfold key_le. rewrite (cmp_refl KC order). lia.
Qed.

(** In all its branches [Seek] returns the partition point. *)
Lemma SpdbVector_Seek_lower_bound (v : SpdbVector Key) (ks : list Key)
    (k : Key) :
  vec_items_ v = Some <$> ks ->
  n_elements_ v = Z.of_nat (length ks) ->
  StronglySorted key_le ks ->
  SpdbVector_Seek v (Some k) = Some (lower_bound (Some <$> ks) k).
Proof.
  intros Hitems Hn Hs. unfold SpdbVector_Seek, IsEmpty. rewrite Hitems, Hn.
  destruct ks as [| x l]; [reflexivity |].
  replace (Z.of_nat (length (x :: l)) =? 0) with false
    by (symmetry; apply Z.eqb_neq; simpl; lia).
  cbn [negb]. rewrite fmap_cons. cbn [head mbind option_bind id].
  cbn [lower_bound slot_less].
  destruct (Z.leb_spec 0 (comparator x k)) as [Hfront | Hfront].
  - destruct (Z.ltb_spec (comparator x k) 0); [lia | reflexivity].
  - rewrite <- fmap_cons, fmap_last.
    destruct (last (x :: l)) as [back |] eqn:Hback;
      [| now apply last_None in Hback].
    cbn [fmap option_fmap option_map mbind option_bind id].
    destruct (Z.leb_spec 0 (comparator back k)) as [Hb | Hb].
    + reflexivity.
    + f_equal. symmetry.
      change (lower_bound (Some <$> x :: l) k = length (Some <$> x :: l)).
      rewrite length_fmap.
      apply (lower_bound_all_below (x :: l) k).
      eapply Forall_impl; [apply (sorted_below_last _ back Hs Hback) |].
      intros e He. exact (key_le_lt_trans e back k He Hb).
Qed.

(** X14: [Seek] on a sealed vector.  When the vector holds its keys in
    ascending order, with no unwritten slot, [Seek] returns the position of
    the first entry that is not below the seek key, and [end()] when every
    entry is below it (in particular on an empty vector): the entries
    before the returned position are exactly those below the key. *)
Theorem SpdbVector_Seek_first_not_below (v : SpdbVector Key) (ks : list Key)
    (k : Key) :
  vec_items_ v = Some <$> ks ->
  n_elements_ v = Z.of_nat (length ks) ->
  StronglySorted key_le ks ->
  exists i,
    SpdbVector_Seek v (Some k) = Some i /\ (i <= length ks)%nat /\
    forall j e, ks !! j = Some e -> ((j < i)%nat <-> comparator e k < 0).
Proof.
  intros Hitems Hn Hs. exists (lower_bound (Some <$> ks) k).
  split; [now apply SpdbVector_Seek_lower_bound |].
  now apply lower_bound_partition.
Qed.

(** X15: [SeekBackword] on a sealed vector.  When the vector holds its
    keys in strictly ascending order, with no unwritten slot, [SeekBackword]
    returns the position of the last entry that is not above the seek key,
    and [end()] when every entry is above it (in particular on an empty
    vector); it never steps back from [begin()]. *)
Theorem SpdbVector_SeekBackword_last_not_above (v : SpdbVector Key)
    (ks : list Key) (k : Key) :
  vec_items_ v = Some <$> ks ->
  n_elements_ v = Z.of_nat (length ks) ->
  StronglySorted key_lt ks ->
  exists i,
    SpdbVector_SeekBackword v (Some k) = Some i /\
    ((exists e, e ∈ ks /\ comparator e k <= 0) ->
     (i < length ks)%nat /\
     forall j e, ks !! j = Some e -> ((j <= i)%nat <-> comparator e k <= 0)) /\
    ((forall e, e ∈ ks -> 0 < comparator e k) -> i = length ks).
Proof.
  intros Hitems Hn Hlt. pose proof (StronglySorted_lt_le ks Hlt) as Hle.
  unfold SpdbVector_SeekBackword, IsEmpty. rewrite Hitems, Hn.
  destruct ks as [| x l].
  { exists 0%nat. split; [reflexivity |]. split; [| reflexivity].
    intros (e & Hin & _). inversion Hin. }
  replace (Z.of_nat (length (x :: l)) =? 0) with false
    by (symmetry; apply Z.eqb_neq; simpl; lia).
  cbn [negb]. rewrite fmap_last, length_fmap.
  destruct (last (x :: l)) as [back |] eqn:Hback;
    [| now apply last_None in Hback].
  cbn [fmap option_fmap option_map mbind option_bind id].
  assert (Hback_in : back ∈ x :: l).
  { rewrite last_lookup in Hback. apply (list_elem_of_lookup_2 _ _ _ Hback). }
  assert (Hx_in : x ∈ x :: l) by left.
  destruct (Z.leb_spec (comparator back k) 0) as [Hb | Hb].
  { exists (pred (length (x :: l))). split; [reflexivity |]. split.
    - intros _. split; [simpl; lia |]. intros j e Hj. split.
      + intros _.
        pose proof (proj1 (Forall_forall _ _) (sorted_below_last _ back Hle Hback)
                      e (list_elem_of_lookup_2 _ _ _ Hj)) as Heb.
        exact (key_le_trans e back k Heb Hb).
      + intros _. apply lookup_lt_Some in Hj. simpl in *. lia.
    - intros Hall. specialize (Hall back Hback_in). lia. }
  rewrite fmap_cons. cbn [head mbind option_bind id]. rewrite <- fmap_cons.
  destruct (Z.leb_spec (comparator x k) 0) as [Hf | Hf].
  2:{ exists (length (x :: l)). split; [reflexivity |]. split; [| reflexivity].
      intros (e & Hin & Hek). exfalso.
      pose proof (proj1 (Forall_forall _ _)
                    (sorted_above_head _ x Hle eq_refl) e Hin) as Hxe.
      pose proof (key_le_trans x e k Hxe Hek) as Hxk. unfold key_le in Hxk.
      lia. }
  destruct (lower_bound_partition (x :: l) k Hle) as [_ Hpart].
  set (i0 := lower_bound (Some <$> x :: l) k) in *.
  assert (Hi0 : (i0 < length (x :: l))%nat).
  { rewrite last_lookup in Hback.
    destruct (Nat.lt_ge_cases (pred (length (x :: l))) i0) as [Hp | Hp];
      [| simpl in *; lia].
    apply (Hpart _ _ Hback) in Hp. lia. }
  destruct (lookup_lt_is_Some_2 _ _ Hi0) as [e0 He0].
  rewrite list_lookup_fmap, He0.
  cbn [fmap option_fmap option_map mbind option_bind id].
  assert (Hge0 : 0 <= comparator e0 k).
  { destruct (Z.lt_ge_cases (comparator e0 k) 0) as [Hc | Hc]; [| exact Hc].
    apply (Hpart _ _ He0) in Hc. lia. }
  assert (Hafter : forall j e, (x :: l) !! j = Some e -> (i0 < j)%nat ->
                               key_lt e0 e).
  { intros j e Hj Hij.
    exact (StronglySorted_lookup key_lt _ i0 j e0 e Hlt Hij He0 Hj). }
  destruct (Z.ltb_spec 0 (comparator e0 k)) as [Hgt | Heq].
  - destruct i0 as [| i'] eqn:Hi0eq.
    { simpl in He0. injection He0 as <-. lia. }
    exists i'. split; [reflexivity |]. split.
    + intros _. split; [lia |]. intros j e Hj. split.
      * intros Hji. assert (Hc : comparator e k < 0)
          by (apply (Hpart _ _ Hj); lia). lia.
      * intros Hek.
        destruct (Nat.le_gt_cases j i') as [Hok | Hbad]; [exact Hok |].
        exfalso.
        assert (He0e : key_le e0 e).
        { destruct (Nat.eq_dec j (S i')) as [-> | Hne].
          - rewrite He0 in Hj. injection Hj as <-.
            unfold key_le. rewrite (cmp_refl KC order). lia.
          - assert (Hs' : key_lt e0 e) by (apply (Hafter j e Hj); lia).
            unfold key_lt, key_le in *. lia. }
        pose proof (key_le_trans e0 e k He0e Hek) as Hc.
        unfold key_le in Hc. lia.
    + intros Hall. specialize (Hall x Hx_in). lia.
  - assert (Heq0 : comparator e0 k = 0) by lia.
    exists i0. split; [reflexivity |]. split.
    + intros _. split; [exact Hi0 |]. intros j e Hj. split.
      * intros Hji. destruct (Nat.eq_dec j i0) as [-> | Hne].
        -- rewrite He0 in Hj. injection Hj as <-. lia.
        -- assert (Hc : comparator e k < 0) by (apply (Hpart _ _ Hj); lia).
           lia.
      * intros Hek.
        destruct (Nat.le_gt_cases j i0) as [Hok | Hbad]; [exact Hok |].
        exfalso.
        pose proof (Hafter j e Hj Hbad) as He0e.
        pose proof (cmp_eq_sym KC order _ _ Heq0) as Hke0.
        assert (Hee0 : key_le e e0).
        { apply (key_le_trans e k e0 Hek). unfold key_le. lia. }
        exact (key_lt_not_le e0 e He0e Hee0).
    + intros Hall. specialize (Hall x Hx_in). lia.
Qed.

End HashSpdVector.

Lemma SpdbVector_Add_keeps_first_keys_witness :
  HashSpd.vector_keys
    (foldl (fun v0 k => snd (HashSpd.SpdbVector_Add v0 k))
       (HashSpd.SpdbVector_new 2) [5; 6; 7]) = [5; 6].
Proof.
  refine (proj1 (SpdbVector_Add_keeps_first_keys (HashSpd.SpdbVector_new 2)
                   [5; 6; 7] _ _ _)).
  - apply SpdbVector_new_wf.
  - by_evaluation.
  - by_evaluation.
Defined.

Lemma SpdbVector_Sort_seals_witness :
  HashSpd.sorted_ (snd (HashSpd.SpdbVector_Sort HashSpd.unsealed_sample))
    = true.
Proof.
  destruct (SpdbVector_Sort_seals Z_KeyComparator_order
              HashSpd.unsealed_sample) as (_ & Hsealed & _).
  - exists [3; 1], 1%nat. split; [reflexivity |]. split; [by_evaluation |].
    right. reflexivity.
  - reflexivity.
  - apply Hsealed. by_evaluation.
Defined.

Lemma SpdbVector_Seek_first_not_below_witness :
  exists i,
    HashSpd.SpdbVector_Seek HashSpd.sealed_sample (Some 4) = Some i /\
    (i <= 3)%nat.
Proof.
  destruct (SpdbVector_Seek_first_not_below Z_KeyComparator_order
              HashSpd.sealed_sample [1; 3; 5] 4) as (i & Hseek & Hi & _).
  - reflexivity.
  - reflexivity.
  - repeat constructor; by_evaluation.
  - exists i. split; [exact Hseek | exact Hi].
Defined.

Lemma SpdbVector_SeekBackword_last_not_above_witness :
  exists i,
    HashSpd.SpdbVector_SeekBackword HashSpd.sealed_sample (Some 4) = Some i /\
    (i < 3)%nat.
Proof.
  destruct (SpdbVector_SeekBackword_last_not_above Z_KeyComparator_order
              HashSpd.sealed_sample [1; 3; 5] 4) as (i & Hseek & Hfound & _).
  - reflexivity.
  - reflexivity.
  - repeat constructor; by_evaluation.
  - exists i. split; [exact Hseek |].
    apply Hfound. exists 3. split; [right; left | by_evaluation].
Defined.

(** ** Memtable: the vector container and its iterators *)

Section HashSpdContainer.

Import HashSpd.

Context {Key : Type} {KC : KeyComparator Key}.

Lemma SpdbVector_Add_sorted_ (v : SpdbVector Key) (key : Key) :
  sorted_ (snd (SpdbVector_Add v key)) = sorted_ v.
Proof.
  unfold SpdbVector_Add.
  now destruct (n_elements_ v <? Z.of_nat (length (vec_items_ v))).
Qed.

(** One [Insert] writes into the tail vector or appends one vector; the
    vectors before the tail are left as they are. *)
Lemma SpdbVectorContainer_Insert_shape (limit : Z)
    (c : SpdbVectorContainer Key) (init : list (SpdbVector Key))
    (back : SpdbVector Key) (key : Key) :
  0 < limit -> limit + 2 < SizeT.modulus ->
  cont_ok limit c -> spdb_vectors_ c = init ++ [back] ->
  exists back' more,
    spdb_vectors_ (SpdbVectorContainer_Insert c key) = init ++ back' :: more /\
    (length more <= 1)%nat /\
    (sorted_ back = false ->
     Forall (fun v => sorted_ v = false) (back' :: more)).
Proof.
  intros Hpos Hmax (Hlimit & Hmut & Hwf & back0 & Hlast & Hn & Hsize) Hvs.
  rewrite Hvs, last_snoc in Hlast. injection Hlast as <-.
  rewrite Hvs in Hwf. apply Forall_app in Hwf as [Hwf_init Hwf_back].
  rewrite Forall_singleton in Hwf_back.
  unfold SpdbVectorContainer_Insert.
  set (c0 := {| spdb_vectors_ := spdb_vectors_ c;
                switch_spdb_vector_limit_ := switch_spdb_vector_limit_ c;
                num_elements_ := SizeT.add (num_elements_ c) 1;
                immutable_ := immutable_ c;
                sort_iter_anchor := sort_iter_anchor c |}).
  rewrite (InternalInsert_snoc c0 init back key Hvs).
  destruct (Z.lt_ge_cases (n_elements_ back)
              (Z.of_nat (length (vec_items_ back)))) as [Hroom | Hfull].
  - destruct (SpdbVector_Add_room back key Hwf_back Hroom ltac:(lia))
      as (back' & Hadd & _).
    pose proof (SpdbVector_Add_sorted_ back key) as Hsorted.
    rewrite Hadd in *. cbn [fst snd] in *. exists back', [].
    split; [reflexivity |]. split; [simpl; lia |].
    intros Hunsealed. constructor; [congruence | constructor].
  - destruct (SpdbVector_Add_full back key Hwf_back Hfull ltac:(lia))
      as (back1 & Hadd1 & Hwf1 & Hitems1 & Hn1).
    pose proof (SpdbVector_Add_sorted_ back key) as Hsorted1.
    rewrite Hadd1 in *. cbn [fst snd] in *.
    erewrite InternalInsert_snoc by reflexivity.
    destruct (SpdbVector_Add_full back1 key Hwf1
                ltac:(rewrite Hitems1, Hn1; lia) ltac:(rewrite Hn1; lia))
      as (back2 & Hadd2 & Hwf2 & Hitems2 & Hn2).
    pose proof (SpdbVector_Add_sorted_ back1 key) as Hsorted2.
    rewrite Hadd2 in *. cbn [fst snd] in *.
    erewrite InternalInsert_snoc
      by (cbn [set_vectors spdb_vectors_]; reflexivity).
    cbn [fst snd set_vectors spdb_vectors_].
    eexists back2, [_]. rewrite <- app_assoc. simpl.
    split; [reflexivity |]. split; [lia |].
    intros Hunsealed. constructor; [congruence |].
    constructor; [| constructor].
    rewrite SpdbVector_Add_sorted_. reflexivity.
Qed.

Lemma SpdbVectorContainer_Insert_run (limit : Z) (keys : list Key)
    (c : SpdbVectorContainer Key) (n : nat) :
  0 < limit -> limit + 2 < SizeT.modulus ->
  cont_ok limit c -> (n < length (spdb_vectors_ c))%nat ->
  let c' := foldl SpdbVectorContainer_Insert c keys in
  cont_ok limit c' /\
  take n (spdb_vectors_ c') = take n (spdb_vectors_ c) /\
  (length (spdb_vectors_ c) <= length (spdb_vectors_ c')
   <= length (spdb_vectors_ c) + length keys)%nat /\
  container_keys c' = container_keys c ++ keys.
Proof.
  intros Hpos Hmax. revert c.
  induction keys as [| key keys IH]; intros c Hok Hn; cbn [foldl].
  - rewrite app_nil_r. split; [exact Hok |]. split; [reflexivity |].
    split; [simpl; lia | reflexivity].
  - destruct (SpdbVectorContainer_Insert_ok limit c key Hpos Hmax Hok)
      as (Hok1 & Hkeys1 & _).
    pose proof Hok as (_ & _ & _ & back & Hlast & _).
    apply last_Some in Hlast as [init Hvs].
    destruct (SpdbVectorContainer_Insert_shape limit c init back key
                Hpos Hmax Hok Hvs) as (back' & more & Hvs1 & Hmore & _).
    assert (Hlen : length (spdb_vectors_ c) = S (length init)).
    { rewrite Hvs, length_app. simpl. lia. }
    assert (Hlen1 : length (spdb_vectors_ (SpdbVectorContainer_Insert c key))
                    = (S (length init) + length more)%nat).
    { rewrite Hvs1, length_app. simpl. lia. }
    destruct (IH (SpdbVectorContainer_Insert c key) Hok1 ltac:(lia))
      as (Hok' & Htake & Hlens & Hkeys).
    split; [exact Hok' |]. split; [| split].
    + rewrite Htake, Hvs1, Hvs.
      rewrite !take_app_le by lia. reflexivity.
    + simpl. lia.
    + rewrite Hkeys, Hkeys1, <- app_assoc. reflexivity.
Qed.

(** X16: inserts touch the tail only.  After any number of [Insert]s the
    vectors that were before the tail are unchanged, the keys of the
    container are the old ones followed by the inserted ones in arrival
    order, and at most one vector per insert has been appended. *)
Theorem SpdbVectorContainer_Insert_touches_only_tail (limit : Z)
    (c : SpdbVectorContainer Key) (keys : list Key) :
  0 < limit -> limit + 2 < SizeT.modulus -> cont_ok limit c ->
  let c' := foldl SpdbVectorContainer_Insert c keys in
  let retired := pred (length (spdb_vectors_ c)) in
  take retired (spdb_vectors_ c') = take retired (spdb_vectors_ c) /\
  (length (spdb_vectors_ c) <= length (spdb_vectors_ c')
   <= length (spdb_vectors_ c) + length keys)%nat /\
  container_keys c' = container_keys c ++ keys.
Proof.
  intros Hpos Hmax Hok c' retired.
  pose proof Hok as (_ & _ & _ & back & Hlast & _).
  apply last_Some in Hlast as [init Hvs].
  assert (Hretired : (retired < length (spdb_vectors_ c))%nat).
  { subst retired. rewrite Hvs, length_app. simpl. lia. }
  destruct (SpdbVectorContainer_Insert_run limit keys c retired Hpos Hmax Hok
              Hretired) as (_ & Htake & Hlens & Hkeys).
  split; [exact Htake |]. split; [exact Hlens | exact Hkeys].
Qed.

(** X17: an iterator is a snapshot.  The vectors handed to a new iterator
    hold exactly the keys inserted so far and never include the tail that
    receives the inserts; whatever is inserted afterwards, these vectors
    stay in place, unchanged, at the front of the container, and the new
    keys land behind them. *)
Theorem InitIterator_snapshot (limit : Z) (c : SpdbVectorContainer Key)
    (keys : list Key) :
  0 < limit -> limit + 2 < SizeT.modulus -> cont_ok limit c ->
  let anchors := snd (InitIterator c) in
  let c' := foldl SpdbVectorContainer_Insert (fst (InitIterator c)) keys in
  concat (vector_keys <$> anchors) = container_keys c /\
  (length anchors < length (spdb_vectors_ (fst (InitIterator c))))%nat /\
  take (length anchors) (spdb_vectors_ c') = anchors /\
  container_keys c' = concat (vector_keys <$> anchors) ++ keys.
Proof.
  intros Hpos Hmax Hok anchors c'.
  destruct (InitIterator_ok limit c ltac:(lia) Hok)
    as (Hok1 & Hkeys1 & _ & _ & Hanchors).
  fold anchors in Hanchors.
  assert (Hprefix :
    (length anchors < length (spdb_vectors_ (fst (InitIterator c))))%nat /\
    take (length anchors) (spdb_vectors_ (fst (InitIterator c))) = anchors).
  { subst anchors. pose proof Hok as (_ & Hmut & _ & back & Hlast & _).
    unfold InitIterator. rewrite Hmut, Hlast.
    pose proof Hlast as Hlast'. apply last_Some in Hlast' as [init Hinit].
    destruct (IsEmpty back); cbn [negb fst snd set_vectors spdb_vectors_].
    - rewrite Hinit, length_app. simpl. rewrite Nat.add_1_r. simpl.
      rewrite !take_app_length. split; [lia | reflexivity].
    - rewrite length_app. simpl. split; [lia |].
      apply take_app_length. }
  destruct Hprefix as [Hlt Htake].
  destruct (SpdbVectorContainer_Insert_run limit keys (fst (InitIterator c))
              (length anchors) Hpos Hmax Hok1 Hlt)
    as (_ & Htake' & _ & Hkeys').
  fold c' in Htake', Hkeys'.
  split; [exact Hanchors |]. split; [exact Hlt |].
  split; [now rewrite Htake' |].
  now rewrite Hkeys', Hkeys1, Hanchors.
Qed.

(** X18: the capacity limit 0 is out of contract.  On a container built
    with [switch_spdb_vector_limit = 0], whose vectors have no slot,
    [Insert] takes its last branch (the one guarded by [assert(false)]): it
    appends one more vector, stores the key nowhere, and still counts
    it. *)
Theorem SpdbVectorContainer_Insert_limit_0_drops_key
    (c : SpdbVectorContainer Key) (init : list (SpdbVector Key))
    (back : SpdbVector Key) (key : Key) :
  switch_spdb_vector_limit_ c = 0 ->
  spdb_vectors_ c = init ++ [back] ->
  vec_items_ back = [] -> 0 <= n_elements_ back ->
  let c' := SpdbVectorContainer_Insert c key in
  container_keys c' = container_keys c /\
  length (spdb_vectors_ c') = S (length (spdb_vectors_ c)) /\
  num_elements_ c' = SizeT.add (num_elements_ c) 1.
Proof.
  intros Hlimit Hvs Hitems Hn c'. subst c'.
  assert (Hfail : forall v : SpdbVector Key,
             vec_items_ v = [] -> 0 <= n_elements_ v ->
             SpdbVector_Add v key =
               (false, {| vec_items_ := [];
                          n_elements_ := SizeT.add (n_elements_ v) 1;
                          sorted_ := sorted_ v |})).
  { intros v Hv Hv0. unfold SpdbVector_Add. rewrite Hv.
    change (Z.of_nat (length (@nil (option Key)))) with 0.
    destruct (Z.ltb_spec (n_elements_ v) 0); [lia | reflexivity]. }
  assert (Hwrap : forall z, 0 <= SizeT.add z 1).
  { intros z. unfold SizeT.add, SizeT.wrap.
    apply Z.mod_pos_bound. unfold SizeT.modulus. lia. }
  unfold SpdbVectorContainer_Insert.
  set (c0 := {| spdb_vectors_ := spdb_vectors_ c;
                switch_spdb_vector_limit_ := switch_spdb_vector_limit_ c;
                num_elements_ := SizeT.add (num_elements_ c) 1;
                immutable_ := immutable_ c;
                sort_iter_anchor := sort_iter_anchor c |}).
  rewrite (InternalInsert_snoc c0 init back key Hvs).
  rewrite (Hfail back Hitems Hn). cbn [fst snd].
  erewrite InternalInsert_snoc by reflexivity.
  rewrite Hfail by first [reflexivity | apply Hwrap].
  cbn [fst snd].
  erewrite InternalInsert_snoc
    by (cbn [set_vectors spdb_vectors_]; reflexivity).
  cbn [set_vectors spdb_vectors_ c0 switch_spdb_vector_limit_ fst snd].
  rewrite Hlimit.
  rewrite Hfail by first [reflexivity | simpl; lia].
  cbn [fst snd set_vectors spdb_vectors_ num_elements_].
  split; [| split; [| reflexivity]].
  - unfold container_keys. simpl.
    rewrite Hvs, !fmap_app, !concat_app. simpl.
    rewrite (vector_keys_unfold back), Hitems. simpl.
    now rewrite !app_nil_r.
  - simpl. rewrite Hvs, !length_app. simpl. lia.
Qed.

End HashSpdContainer.

Lemma SpdbVectorContainer_Insert_touches_only_tail_witness :
  HashSpd.container_keys
    (foldl HashSpd.SpdbVectorContainer_Insert
       (HashSpd.SpdbVectorContainer_new 2) [7; 8; 9]) = [7; 8; 9].
Proof.
  refine (proj2 (proj2 (SpdbVectorContainer_Insert_touches_only_tail 2
                          (HashSpd.SpdbVectorContainer_new 2) [7; 8; 9]
                          _ _ _))).
  - by_evaluation.
  - by_evaluation.
  - apply (Inv_cont_ok 2 (HashSpd.HashSpdRep_new 1 2)).
    apply Inv_new. by_evaluation.
Defined.

(** An iterator built after the inserts of [dup_ops1], then two more
    inserts: the iterator's vectors stay at the front of the container. *)
Lemma InitIterator_snapshot_witness :
  take 1
    (HashSpd.spdb_vectors_
       (foldl HashSpd.SpdbVectorContainer_Insert
          (fst (HashSpd.InitIterator
                  (HashSpd.spdb_vectors_cont_
                     (HashSpd.run HashSpd.dup_ops1
                        (HashSpd.HashSpdRep_new 2 3)))))
          [20; 21])) =
  snd (HashSpd.InitIterator
         (HashSpd.spdb_vectors_cont_
            (HashSpd.run HashSpd.dup_ops1 (HashSpd.HashSpdRep_new 2 3)))).
Proof.
  refine (proj1 (proj2 (proj2 (InitIterator_snapshot 3
    (HashSpd.spdb_vectors_cont_
       (HashSpd.run HashSpd.dup_ops1 (HashSpd.HashSpdRep_new 2 3)))
    [20; 21] _ _ _)))).
  - by_evaluation.
  - by_evaluation.
  - apply Inv_cont_ok.
    apply (Inv_run Z_KeyComparator_order); [by_evaluation | by_evaluation |].
    apply Inv_new. by_evaluation.
Defined.

Lemma SpdbVectorContainer_Insert_limit_0_drops_key_witness :
  HashSpd.container_keys
    (HashSpd.SpdbVectorContainer_Insert (HashSpd.SpdbVectorContainer_new 0) 7)
  = @nil Z.
Proof.
  refine (proj1 (SpdbVectorContainer_Insert_limit_0_drops_key
                   (HashSpd.SpdbVectorContainer_new 0) []
                   (HashSpd.SpdbVector_new 0) 7 _ _ _ _)).
  - reflexivity.
  - reflexivity.
  - reflexivity.
  - by_evaluation.
Defined.

(** ** Memtable: sealed vectors *)

Section HashSpdSealed.

Import HashSpd.

Context {Key : Type} {KC : KeyComparator Key}.
Hypothesis order : ComparatorOrder KC.

Lemma unsealed_ok (v : SpdbVector Key) : sorted_ v = false -> sealed_ok v.
Proof. intros Hv Hs. congruence. Qed.

Lemma SpdbVector_Sort_sealed_ok (v : SpdbVector Key) :
  vec_wf v -> sealed_ok v -> sealed_ok (snd (SpdbVector_Sort v)).
Proof.
  intros Hwf Hok.
  destruct (Z.eq_dec (n_elements_ v) 0) as [Hz | Hnz].
  { unfold SpdbVector_Sort.
    destruct (Z.eqb_spec (n_elements_ v) 0); [exact Hok | contradiction]. }
  destruct (sorted_ v) eqn:Hsorted.
  { unfold SpdbVector_Sort. rewrite Hsorted.
    destruct (Z.eqb_spec (n_elements_ v) 0); exact Hok. }
  rewrite (SpdbVector_Sort_unsealed v Hwf Hsorted Hnz). cbn [snd].
  intros _. eexists. cbn [vec_items_ n_elements_].
  split; [reflexivity |]. split; [| apply (std_sort_sorted order)].
  now rewrite std_sort_Permutation.
Qed.

Lemma sort_range_sealed_ok (vs : list (SpdbVector Key)) (anchor last_ : nat) :
  Forall vec_wf vs -> Forall sealed_ok vs ->
  Forall sealed_ok (sort_range vs anchor last_).
Proof.
  intros Hwf Hok. apply Forall_lookup. intros i v' Hi.
  unfold sort_range in Hi. rewrite list_lookup_imap in Hi.
  destruct (vs !! i) as [v |] eqn:Hv; [| discriminate].
  cbn in Hi. injection Hi as <-.
  pose proof (Forall_lookup_1 _ _ _ _ Hwf Hv) as Hwf_v.
  pose proof (Forall_lookup_1 _ _ _ _ Hok Hv) as Hok_v.
  destruct (bool_decide _); [now apply SpdbVector_Sort_sealed_ok | exact Hok_v].
Qed.

Lemma Merge_sealed_ok (c : SpdbVectorContainer Key) (b e : nat) :
  Forall sealed_ok (spdb_vectors_ c) ->
  Forall sealed_ok (spdb_vectors_ (Merge c b e)).
Proof.
  intros Hok. unfold Merge.
  destruct (0 <? Merge_num_elements _); [| exact Hok].
  cbn [set_vectors spdb_vectors_].
  apply Forall_app. split; [now apply Forall_take |].
  constructor; [| now apply Forall_drop].
  intros _. eexists. unfold SpdbVector_of. cbn [vec_items_ n_elements_].
  split; [reflexivity |]. split; [lia |].
  unfold SpdbVectorIterator_forward. apply (std_sort_sorted order).
Qed.

Lemma SpdbVectorContainer_Insert_sealed (limit : Z)
    (c : SpdbVectorContainer Key) (key : Key) :
  0 < limit -> limit + 2 < SizeT.modulus ->
  cont_ok limit c -> sealed_inv (spdb_vectors_ c) ->
  sealed_inv (spdb_vectors_ (SpdbVectorContainer_Insert c key)).
Proof.
  intros Hpos Hmax Hok (Hsealed & back & Hlast & Hback).
  apply last_Some in Hlast as [init Hvs].
  destruct (SpdbVectorContainer_Insert_shape limit c init back key Hpos Hmax
              Hok Hvs) as (back' & more & Hvs' & _ & Hunsealed).
  specialize (Hunsealed Hback).
  rewrite Hvs in Hsealed. apply Forall_app in Hsealed as [Hinit _].
  split.
  - rewrite Hvs'. apply Forall_app. split; [exact Hinit |].
    eapply Forall_impl; [exact Hunsealed |]. apply unsealed_ok.
  - rewrite Hvs'.
    destruct (last (back' :: more)) as [tail |] eqn:Htail;
      [| now apply last_None in Htail].
    exists tail. split.
    + rewrite last_app, Htail. reflexivity.
    + rewrite last_lookup in Htail.
      apply (Forall_lookup_1 _ _ _ _ Hunsealed Htail).
Qed.

Lemma InitIterator_sealed (limit : Z) (c : SpdbVectorContainer Key) :
  cont_ok limit c -> sealed_inv (spdb_vectors_ c) ->
  sealed_inv (spdb_vectors_ (fst (InitIterator c))).
Proof.
  intros (_ & Hmut & _ & back0 & Hlast0 & _) (Hsealed & back & Hlast & Hback).
  unfold InitIterator. rewrite Hmut, Hlast.
  destruct (IsEmpty back); cbn [negb fst].
  - split; [exact Hsealed | now exists back].
  - cbn [set_vectors spdb_vectors_]. split.
    + apply Forall_app. split; [exact Hsealed |].
      apply Forall_singleton, unsealed_ok. reflexivity.
    + eexists. split; [apply last_snoc | reflexivity].
Qed.

Lemma SortThread_wake_sealed (limit : Z) (c : SpdbVectorContainer Key) :
  cont_ok limit c -> sealed_inv (spdb_vectors_ c) ->
  sealed_inv (spdb_vectors_ (fst (SortThread_wake c))).
Proof.
  intros (_ & Hmut & Hwf & _) (Hsealed & back & Hlast & Hback).
  unfold SortThread_wake. rewrite Hmut.
  set (last_ := pred (length (spdb_vectors_ c))).
  destruct (Nat.eqb last_ (sort_iter_anchor c));
    [split; [exact Hsealed | now exists back] |].
  set (c1 := SortThread_sort c last_).
  assert (Hvs1 : spdb_vectors_ c1 =
                 sort_range (spdb_vectors_ c) (sort_iter_anchor c) last_)
    by reflexivity.
  assert (Hsealed1 : Forall sealed_ok (spdb_vectors_ c1))
    by (rewrite Hvs1; now apply sort_range_sealed_ok).
  assert (Hlast1 : last (spdb_vectors_ c1) = Some back)
    by (rewrite Hvs1; unfold last_; now rewrite sort_range_last).
  assert (Hlen1 : length (spdb_vectors_ c1) = length (spdb_vectors_ c))
    by (rewrite Hvs1; apply sort_range_length).
  assert (Hpos : (0 < length (spdb_vectors_ c))%nat).
  { destruct (spdb_vectors_ c); [discriminate | simpl; lia]. }
  destruct (Nat.ltb kMergedVectorsMax (length (spdb_vectors_ c1)));
    [| split; [exact Hsealed1 | now exists back]].
  destruct (TryMergeVectors c1 last_) as [[[b e] |] c2] eqn:Hmerge.
  - destruct (TryMergeVectors_spec c1 c2 last_ b e ltac:(unfold last_; lia)
                Hmerge) as (-> & _ & _ & He & _).
    cbn [fst set_anchor spdb_vectors_]. split.
    + now apply Merge_sealed_ok.
    + exists back. split; [| exact Hback].
      rewrite Merge_last by (unfold last_ in He; lia). exact Hlast1.
  - apply TryMergeVectors_None in Hmerge. subst c2. cbn [fst].
    split; [exact Hsealed1 | now exists back].
Qed.

Lemma step_sealed (limit : Z) (rep : HashSpdRep Key) (op : Op Key) :
  0 < limit -> limit + 2 < SizeT.modulus ->
  Inv limit rep -> sealed_inv (spdb_vectors_ (spdb_vectors_cont_ rep)) ->
  sealed_inv (spdb_vectors_ (spdb_vectors_cont_ (step rep op))).
Proof.
  intros Hpos Hmax Hinv Hsealed.
  pose proof (Inv_cont_ok limit rep Hinv) as Hok.
  destruct op as [handle | |]; cbn [step].
  - unfold InsertKey.
    destruct (SpdbHashTable_Add (spdb_hash_table_ rep) handle) as [[|] t'];
      cbn [negb snd spdb_vectors_cont_]; [| exact Hsealed].
    now apply (SpdbVectorContainer_Insert_sealed limit).
  - cbn [spdb_vectors_cont_]. now apply (SortThread_wake_sealed limit).
  - unfold GetIterator.
    destruct (SpdbVectorContainer_IsEmpty _); [exact Hsealed |].
    pose proof (InitIterator_sealed limit _ Hok Hsealed) as Hinit.
    destruct (InitIterator (spdb_vectors_cont_ rep)). exact Hinit.
Qed.


End HashSpdSealed.


(** ** Memtable: allocation of a key handle *)

Section HashSpdAllocate.

Import HashSpd.

(** X26: [Allocate] asks for enough memory.  Whatever the layout of
    [SpdbKeyHandle] (its [key] member lies inside the struct), as long as
    the sum of the key length and the struct size fits in [size_t], the
    requested block holds the whole struct and leaves at least [len] bytes
    from the [key] member on: it is [max(len, inline bytes)] past the
    offset of [key]. *)
Theorem Allocate_reserves_key_bytes (sizeof_handle offsetof_key len : Z) :
  0 <= offsetof_key <= sizeof_handle -> 0 <= len ->
  len + sizeof_handle < SizeT.modulus ->
  let alloc_size := Allocate_alloc_size sizeof_handle offsetof_key len in
  alloc_size = Z.max len (sizeof_handle - offsetof_key) + offsetof_key /\
  sizeof_handle <= alloc_size /\
  len <= alloc_size - offsetof_key.
Proof.
  intros Hlayout Hlen Hfit alloc_size. subst alloc_size.
  unfold Allocate_alloc_size, SizeT.add, SizeT.sub.
  rewrite (SizeT_wrap_small (sizeof_handle - offsetof_key))
    by (unfold SizeT.in_range; lia).
  rewrite (SizeT_wrap_small (Z.max _ _ - _)) by (unfold SizeT.in_range; lia).
  rewrite SizeT_wrap_small by (unfold SizeT.in_range; lia).
  lia.
Qed.

End HashSpdAllocate.

Lemma Allocate_reserves_key_bytes_witness :
  HashSpd.Allocate_alloc_size 16 8 100 = 108.
Proof.
  refine (proj1 (Allocate_reserves_key_bytes 16 8 100 _ _ _)); by_evaluation.
Defined.

(** ** Hybrid compaction picker: rearranging a hyper-level *)

Section HybridRearange.

Import Hybrid.

Variable FirstLevelInHyper : Z -> Z.
Variable LastLevelInHyper : Z -> Z.
Variable PrevPlace_empty : PrevPlace -> bool.

Lemma uint_small (l : Z) :
  0 <= l < 2 ^ 31 - 1 ->
  int_of_uint l = l /\ uint_add l 1 = l + 1 /\ (0 < l -> uint_sub l 1 = l - 1).
Proof.
  intros Hl. unfold int_of_uint, uint_add, uint_sub.
  destruct (Z.ltb_spec l (2 ^ 31)); [| lia].
  split; [reflexivity |]. split; [| intros Hpos]; apply Z.mod_small; lia.
Qed.

Section Levels.

Variable vstorage : VersionStorageInfo.
Variables firstLevel lastLevel : Z.
Hypothesis first_pos : 0 <= firstLevel.
Hypothesis last_small : lastLevel < 2 ^ 31 - 1.
Hypothesis levels_defined :
  forall l, firstLevel <= l <= lastLevel -> is_Some (LevelFiles vstorage l).

Lemma level_empty_or_nonempty (l : Z) :
  firstLevel <= l <= lastLevel ->
  (LevelFiles vstorage l = Some [] /\ ~ level_nonempty vstorage l) \/
  (level_nonempty vstorage l /\ LevelFiles vstorage l <> Some []).
Proof.
  intros Hl. destruct (levels_defined l Hl) as [[| f files] Hf].
  - left. split; [exact Hf |]. intros (f & files & Hne). congruence.
  - right. split; [now exists f, files | congruence].
Qed.

Lemma LevelNeedsRearange_loop_spec (fuel : nat) (level : Z)
    (foundNonEmpty : bool) :
  firstLevel <= level -> Z.max 0 (lastLevel - level + 1) < Z.of_nat fuel ->
  exists b,
    LevelNeedsRearange_loop fuel vstorage level lastLevel foundNonEmpty
      = Some b /\
    (b = true <->
     (foundNonEmpty = true /\
      exists j, level <= j <= lastLevel /\ LevelFiles vstorage j = Some []) \/
     (exists i j, level <= i /\ i < j /\ j <= lastLevel /\
                  level_nonempty vstorage i /\
                  LevelFiles vstorage j = Some [])).
Proof.
  revert level foundNonEmpty.
  induction fuel as [| fuel IH]; intros level found Hlevel Hfuel; [lia |].
  cbn [LevelNeedsRearange_loop].
  destruct (Z.leb_spec level lastLevel) as [Hin | Hout].
  2:{ exists false. split; [reflexivity |]. split; [discriminate |].
      intros [(_ & j & Hj & _) | (i & j & Hi & Hij & Hj & _)]; lia. }
  destruct (uint_small level ltac:(lia)) as (-> & -> & _).
  destruct (levels_defined level ltac:(lia)) as [files Hfiles].
  rewrite Hfiles. cbn [mbind option_bind].
  destruct (IH (level + 1) (negb (files_empty files)) ltac:(lia) ltac:(lia))
    as (b1 & Hrun1 & Hb1).
  destruct (IH (level + 1) found ltac:(lia) ltac:(lia))
    as (b2 & Hrun2 & Hb2).
  assert (Hhere : forall i, level <= i -> i = level \/ level + 1 <= i) by lia.
  destruct found; cbn [negb].
  - destruct files as [| f files]; cbn [files_empty].
    + exists true. split; [reflexivity |]. split; [| reflexivity].
      intros _. left. split; [reflexivity |]. exists level. split; [lia |].
      exact Hfiles.
    + exists b2. split; [exact Hrun2 |]. rewrite Hb2. split.
      * intros [(_ & j & Hj & Hempty) | (i & j & Hi & Hij & Hj & Hne & Hempty)].
        -- left. split; [reflexivity |]. exists j. split; [lia | exact Hempty].
        -- right. exists i, j. repeat split; try lia; assumption.
      * intros [(_ & j & Hj & Hempty) | (i & j & Hi & Hij & Hj & Hne & Hempty)].
        -- left. split; [reflexivity |]. exists j. split; [| exact Hempty].
           destruct (Hhere j ltac:(lia)) as [-> | Hj']; [congruence | lia].
        -- destruct (Hhere i Hi) as [-> | Hi'].
           ++ left. split; [reflexivity |]. exists j.
              split; [lia | exact Hempty].
           ++ right. exists i, j. repeat split; try lia; assumption.
  - exists b1. split; [exact Hrun1 |]. rewrite Hb1. split.
    + intros [(Hfound & j & Hj & Hempty) | (i & j & Hi & Hij & Hj & Hne & Hempty)].
      * right. exists level, j. repeat split; try lia; [| exact Hempty].
        destruct files as [| f files]; [discriminate |]. now exists f, files.
      * right. exists i, j. repeat split; try lia; assumption.
    + intros [(Hfound & _) | (i & j & Hi & Hij & Hj & Hne & Hempty)];
        [discriminate |].
      destruct (Hhere i Hi) as [-> | Hi'].
      * left. split.
        -- destruct Hne as (f & fs & Hne). rewrite Hfiles in Hne.
           injection Hne as ->. reflexivity.
        -- exists j. split; [lia | exact Hempty].
      * right. exists i, j. repeat split; try lia; assumption.
Qed.

Lemma RearangeLevel_inputs_spec (fuel : nat) (lo hi : Z) :
  firstLevel <= lo -> hi <= lastLevel + 1 ->
  Z.max 0 (hi - lo) < Z.of_nat fuel ->
  exists inputs,
    RearangeLevel_inputs fuel vstorage lo hi = Some inputs /\
    forall x, x ∈ inputs <->
      lo <= input_level x < hi /\
      LevelFiles vstorage (input_level x) = Some (input_files x) /\
      input_files x <> [].
Proof.
  revert lo. induction fuel as [| fuel IH]; intros lo Hlo Hhi Hfuel; [lia |].
  cbn [RearangeLevel_inputs].
  destruct (Z.ltb_spec lo hi) as [Hin | Hout].
  2:{ exists []. split; [reflexivity |]. intros x. split.
      - intros Hx. inversion Hx.
      - intros ([Hx1 Hx2] & _). lia. }
  destruct (uint_small lo ltac:(lia)) as (-> & -> & _).
  destruct (levels_defined lo ltac:(lia)) as [files Hfiles].
  rewrite Hfiles. cbn [mbind option_bind].
  destruct (IH (lo + 1) ltac:(lia) Hhi ltac:(lia)) as (rest & -> & Hrest).
  cbn [mbind option_bind]. eexists. split; [reflexivity |].
  intros x. destruct files as [| f files]; cbn [files_empty negb].
  - rewrite Hrest. split.
    + intros (Hx & Hf & Hne). split; [lia | split; assumption].
    + intros (Hx & Hf & Hne). split; [| split; assumption].
      destruct (Z.eq_dec (input_level x) lo) as [Heq | Hneq]; [| lia].
      rewrite Heq in Hf. congruence.
  - rewrite elem_of_cons, Hrest. split.
    + intros [-> | (Hx & Hf & Hne)]; cbn [input_level input_files].
      * split; [lia |]. split; [exact Hfiles | discriminate].
      * split; [lia | split; assumption].
    + intros (Hx & Hf & Hne).
      destruct (Z.eq_dec (input_level x) lo) as [Heq | Hneq].
      * left. destruct x as [xl xf]. cbn [input_level input_files] in *.
        subst xl. rewrite Hfiles in Hf. now injection Hf as <-.
      * right. split; [lia | split; assumption].
Qed.

Hypothesis first_ge_1 : 1 <= firstLevel.

Lemma RearangeLevel_loop_spec (fuel : nat) (o : Z) :
  o <= lastLevel ->
  Z.max 0 (o - firstLevel + 1) + 1 < Z.of_nat fuel ->
  exists r,
    RearangeLevel_loop fuel vstorage firstLevel o = Some r /\
    match r with
    | Some (inputs, o') =>
        firstLevel <= o' <= o /\
        LevelFiles vstorage o' = Some [] /\
        (forall l, o' < l <= o -> level_nonempty vstorage l) /\
        inputs <> [] /\
        forall x, x ∈ inputs <->
          firstLevel <= input_level x < o' /\
          LevelFiles vstorage (input_level x) = Some (input_files x) /\
          input_files x <> []
    | None =>
        forall i j, firstLevel <= i -> i < j -> j <= o ->
                    level_nonempty vstorage i ->
                    LevelFiles vstorage j = Some [] -> False
    end.
Proof.
  revert o. induction fuel as [| fuel IH]; intros o Ho Hfuel; [lia |].
  cbn [RearangeLevel_loop].
  destruct (Z.leb_spec firstLevel o) as [Hin | Hout].
  2:{ exists None. split; [reflexivity |]. intros i j Hi Hij Hj. lia. }
  destruct (uint_small o ltac:(lia)) as (-> & _ & Hsub).
  rewrite (Hsub ltac:(lia)).
  destruct (levels_defined o ltac:(lia)) as [files Hfiles].
  rewrite Hfiles. cbn [mbind option_bind].
  destruct files as [| f files]; cbn [files_empty].
  - destruct (RearangeLevel_inputs_spec fuel firstLevel o ltac:(lia)
                ltac:(lia) ltac:(lia)) as (inputs & -> & Hinputs).
    cbn [mbind option_bind]. destruct inputs as [| x inputs].
    + exists None. split; [reflexivity |].
      intros i j Hi Hij Hj (fi & fs & Hne) Hempty.
      assert (Hx : {| input_level := i; input_files := fi :: fs |} ∈ [])
        by (apply Hinputs; cbn [input_level input_files];
            split; [lia | split; [exact Hne | discriminate]]).
      inversion Hx.
    + eexists. split; [reflexivity |]. cbn beta iota.
      split; [lia |]. split; [exact Hfiles |].
      split; [intros l Hl; lia |]. split; [discriminate | exact Hinputs].
  - destruct (IH (o - 1) ltac:(lia) ltac:(lia)) as (r & -> & Hr).
    exists r. split; [reflexivity |].
    assert (Ho_ne : level_nonempty vstorage o) by now exists f, files.
    destruct r as [[inputs o'] |].
    + destruct Hr as (Ho' & Hempty & Habove & Hne & Hinputs).
      split; [lia |]. split; [exact Hempty |].
      split; [| split; [exact Hne | exact Hinputs]].
      intros l Hl. destruct (Z.eq_dec l o) as [-> | Hlo]; [exact Ho_ne |].
      apply Habove. lia.
    + intros i j Hi Hij Hj Hne Hempty.
      destruct (Z.eq_dec j o) as [-> | Hjo]; [congruence |].
      apply (Hr i j Hi Hij ltac:(lia) Hne Hempty).
Qed.

End Levels.

(** X19: [LevelNeedsRearange] does what its comment says.  For a hyper-level
    other than 0 whose physical levels all exist, within a number of
    iterations bounded by the number of levels, the answer is [true]
    exactly when some level of the range holds files and a later level of
    the range is empty; for hyper-level 0 the answer is [false]. *)
Theorem LevelNeedsRearange_iff (fuel : nat) (hyperLevelNum : Z)
    (vstorage : VersionStorageInfo) (firstLevel : Z) :
  let lastLevel := LastLevelInHyper hyperLevelNum in
  (hyperLevelNum = 0 ->
   LevelNeedsRearange LastLevelInHyper fuel hyperLevelNum vstorage firstLevel
     = Some false) /\
  (hyperLevelNum <> 0 ->
   0 <= firstLevel -> lastLevel < 2 ^ 31 - 1 ->
   (forall l, firstLevel <= l <= lastLevel ->
              is_Some (LevelFiles vstorage l)) ->
   Z.max 0 (lastLevel - firstLevel + 1) < Z.of_nat fuel ->
   exists b,
     LevelNeedsRearange LastLevelInHyper fuel hyperLevelNum vstorage firstLevel
       = Some b /\
     (b = true <->
      exists i j, firstLevel <= i /\ i < j /\ j <= lastLevel /\
                  level_nonempty vstorage i /\
                  LevelFiles vstorage j = Some [])).
Proof.
  intros lastLevel. unfold LevelNeedsRearange. split.
  - intros ->. reflexivity.
  - intros Hh Hfirst Hlast Hdef Hfuel.
    destruct (Z.eqb_spec hyperLevelNum 0); [contradiction |].
    destruct (LevelNeedsRearange_loop_spec vstorage firstLevel lastLevel
                Hfirst Hlast Hdef fuel firstLevel false ltac:(lia) Hfuel)
      as (b & Hrun & Hb).
    exists b. split; [exact Hrun |]. rewrite Hb. split.
    + intros [(Hfound & _) | Hpair]; [discriminate | exact Hpair].
    + intros Hpair. now right.
Qed.

(** X20: [RearangeLevel] succeeds exactly when a rearrange is needed.  Let
    [first] be the level [RearangeLevel] starts from: the first level of
    the hyper-level, or the level after the cursor of the hyper-level above
    when that cursor is set.  When the levels from [first] to the last
    level of the hyper-level exist, [RearangeLevel] returns a compaction
    exactly when [LevelNeedsRearange] answers [true] for the same range;
    the compaction outputs to the lowest empty level of the range and
    takes as inputs exactly the non-empty levels above it. *)
Theorem RearangeLevel_iff_LevelNeedsRearange (fuel : nat)
    (p : HybridCompactionPicker) (hyperLevelNum : Z)
    (vstorage : VersionStorageInfo) (prev : PrevPlace) :
  let lastLevel := LastLevelInHyper hyperLevelNum in
  let first :=
    if PrevPlace_empty prev then FirstLevelInHyper hyperLevelNum
    else uint_add (outputLevel prev) 1 in
  hyperLevelNum <> 0 ->
  prevSubCompaction_ p !! Z.to_nat (uint_sub hyperLevelNum 1) = Some prev ->
  1 <= first -> lastLevel < 2 ^ 31 - 1 ->
  (forall l, first <= l <= lastLevel -> is_Some (LevelFiles vstorage l)) ->
  Z.max 0 (lastLevel - first + 1) + 1 < Z.of_nat fuel ->
  exists b r,
    LevelNeedsRearange LastLevelInHyper fuel hyperLevelNum vstorage first
      = Some b /\
    RearangeLevel FirstLevelInHyper LastLevelInHyper PrevPlace_empty fuel p
      hyperLevelNum vstorage = Some r /\
    (b = true <-> r <> None) /\
    forall inputs o, r = Some (inputs, o) ->
      first < o <= lastLevel /\
      LevelFiles vstorage o = Some [] /\
      (forall l, o < l <= lastLevel -> level_nonempty vstorage l) /\
      forall x, x ∈ inputs <->
        first <= input_level x < o /\
        LevelFiles vstorage (input_level x) = Some (input_files x) /\
        input_files x <> [].
Proof.
  intros lastLevel first Hh Hprev Hfirst Hlast Hdef Hfuel.
  assert (Hspec : exists b,
            LevelNeedsRearange LastLevelInHyper fuel hyperLevelNum vstorage
              first = Some b /\
            (b = true <->
             exists i j, first <= i /\ i < j /\ j <= lastLevel /\
                         level_nonempty vstorage i /\
                         LevelFiles vstorage j = Some [])).
  { unfold LevelNeedsRearange.
    destruct (Z.eqb_spec hyperLevelNum 0); [contradiction |].
    destruct (LevelNeedsRearange_loop_spec vstorage first lastLevel
                ltac:(lia) Hlast Hdef fuel first false ltac:(lia) ltac:(lia))
      as (b & Hrun & Hb).
    exists b. split; [exact Hrun |]. rewrite Hb. split.
    - intros [(Hfound & _) | Hpair]; [discriminate | exact Hpair].
    - intros Hpair. now right. }
  destruct Hspec as (b & Hneeds & Hb).
  destruct (RearangeLevel_loop_spec vstorage first lastLevel ltac:(lia) Hlast
              Hdef Hfirst fuel lastLevel ltac:(lia) Hfuel) as (r & Hloop & Hr).
  assert (Hshape : forall inputs o, r = Some (inputs, o) ->
            first < o <= lastLevel /\
            LevelFiles vstorage o = Some [] /\
            (forall l, o < l <= lastLevel -> level_nonempty vstorage l) /\
            forall x, x ∈ inputs <->
              first <= input_level x < o /\
              LevelFiles vstorage (input_level x) = Some (input_files x) /\
              input_files x <> []).
  { intros inputs o ->. destruct Hr as (Ho & Hempty & Habove & Hne & Hinputs).
    split; [| split; [exact Hempty | split; [exact Habove | exact Hinputs]]].
    destruct inputs as [| x inputs]; [contradiction |].
    assert (Hx : x ∈ x :: inputs) by left.
    apply Hinputs in Hx. lia. }
  assert (Hiff : b = true <-> r <> None).
  { rewrite Hb. split.
    - intros (i & j & Hi & Hij & Hj & Hne & Hempty) ->.
      exact (Hr i j Hi Hij Hj Hne Hempty).
    - intros Hsome. destruct r as [[inputs o] |]; [| contradiction].
      destruct Hr as (Ho & Hempty & _ & Hne & Hinputs).
      destruct inputs as [| x inputs]; [contradiction |].
      assert (Hx : x ∈ x :: inputs) by left.
      apply Hinputs in Hx. destruct Hx as (Hx & Hf & Hfne).
      exists (input_level x), o. repeat split; try lia; [| exact Hempty].
      destruct (input_files x) as [| f fs]; [contradiction |].
      now exists f, fs. }
  unfold RearangeLevel. rewrite Hprev. cbn [mbind option_bind].
  subst first. destruct (PrevPlace_empty prev); cbn [negb].
  - exists b, r. split; [exact Hneeds |]. split; [exact Hloop |].
    split; [exact Hiff | exact Hshape].
  - fold lastLevel.
    destruct (Z.leb_spec lastLevel (uint_add (outputLevel prev) 1))
      as [Hshort | Hlong].
    + exists b, None. split; [exact Hneeds |]. split; [reflexivity |].
      split; [| intros inputs o Hc; discriminate].
      rewrite Hb. split; [| intros Hc; contradiction].
      intros (i & j & Hi & Hij & Hj & _). lia.
    + exists b, r. split; [exact Hneeds |]. split; [exact Hloop |].
      split; [exact Hiff | exact Hshape].
Qed.

(** X25: [MoveSstToLastLevel] never builds a compaction.  Its loop starts
    at the very level it must stay above (both bounds are
    [LastLevelInHyper(curNumOfHyperLevels_ - 1)]), so the body never runs
    and the call returns the null pointer whatever the picker and the
    version hold, without reading a single level. *)
Theorem MoveSstToLastLevel_returns_null (fuel : nat)
    (p : HybridCompactionPicker) (vstorage : VersionStorageInfo) :
  MoveSstToLastLevel LastLevelInHyper (S fuel) p vstorage = Some None.
Proof.
  unfold MoveSstToLastLevel. cbn [MoveSstToLastLevel_loop].
  now rewrite Z.ltb_irrefl.
Qed.

End HybridRearange.

Lemma gapped_levels_defined (l : Z) :
  1 <= l <= 4 -> is_Some (Hybrid.LevelFiles Hybrid.gapped_vstorage l).
Proof.
  intros Hl.
  assert (Hcases : l = 1 \/ l = 2 \/ l = 3 \/ l = 4) by lia.
  destruct Hcases as [-> | [-> | [-> | ->]]]; eexists; reflexivity.
Qed.

(** Hyper-level 1 of [gapped_vstorage]: level 1 holds a file and level 2
    is empty. *)
Lemma LevelNeedsRearange_iff_witness :
  exists b,
    Hybrid.LevelNeedsRearange Hybrid.sample_LastLevelInHyper 10 1
      Hybrid.gapped_vstorage 1 = Some b /\
    (b = true <->
     exists i j, 1 <= i /\ i < j /\ j <= 4 /\
                 Hybrid.level_nonempty Hybrid.gapped_vstorage i /\
                 Hybrid.LevelFiles Hybrid.gapped_vstorage j = Some []).
Proof.
  apply (proj2 (LevelNeedsRearange_iff Hybrid.sample_LastLevelInHyper 10 1
                  Hybrid.gapped_vstorage 1)).
  - discriminate.
  - by_evaluation.
  - by_evaluation.
  - exact gapped_levels_defined.
  - by_evaluation.
Defined.

Lemma RearangeLevel_iff_LevelNeedsRearange_witness :
  exists b r,
    Hybrid.LevelNeedsRearange Hybrid.sample_LastLevelInHyper 10 1
      Hybrid.gapped_vstorage 1 = Some b /\
    Hybrid.RearangeLevel Hybrid.sample_FirstLevelInHyper
      Hybrid.sample_LastLevelInHyper Hybrid.sample_empty 10
      Hybrid.sample_picker 1 Hybrid.gapped_vstorage = Some r /\
    (b = true <-> r <> None).
Proof.
  destruct (RearangeLevel_iff_LevelNeedsRearange
              Hybrid.sample_FirstLevelInHyper Hybrid.sample_LastLevelInHyper
              Hybrid.sample_empty 10 Hybrid.sample_picker 1
              Hybrid.gapped_vstorage Hybrid.unset_cursor)
    as (b & r & Hneeds & Hrearange & Hiff & _).
  - discriminate.
  - reflexivity.
  - by_evaluation.
  - by_evaluation.
  - exact gapped_levels_defined.
  - by_evaluation.
  - exists b, r. split; [exact Hneeds |]. split; [exact Hrearange | exact Hiff].
Defined.

(** ** Hybrid compaction picker: grandparents *)

Section HybridGrandparents.

Import Hybrid.

Context {File : Type} (fd_file_size : File -> Z).

Lemma buildGrandparents_loop_spec (grandparents files : list File)
    (minSize accSize : Z) :
  Forall (fun f => 0 <= fd_file_size f) files ->
  0 <= minSize -> 0 <= accSize ->
  accSize + foldr Z.add 0 (fd_file_size <$> files) < SizeT.modulus ->
  exists selected,
    buildGrandparents_loop fd_file_size grandparents files minSize accSize
      = grandparents ++ selected /\
    selected `sublist_of` files /\
    (minSize + 1) * Z.of_nat (length selected)
      <= accSize + foldr Z.add 0 (fd_file_size <$> files) /\
    forall f, f ∈ files -> minSize < fd_file_size f -> f ∈ selected.
Proof.
  intros Hsizes Hmin. revert grandparents accSize.
  induction Hsizes as [| f files Hf Hsizes IH];
    intros grandparents accSize Hacc Hsum.
  - exists []. rewrite app_nil_r. simpl in *.
    split; [reflexivity |]. split; [constructor |]. split; [lia |].
    intros f Hin. inversion Hin.
  - rewrite fmap_cons in Hsum. cbn [foldr] in Hsum.
    assert (Htail : 0 <= foldr Z.add 0 (fd_file_size <$> files)).
    { clear -Hsizes. induction Hsizes as [| g gs Hg Hgs IHg];
        [simpl; lia | rewrite fmap_cons; cbn [foldr]; lia]. }
    cbn [buildGrandparents_loop]. unfold SizeT.add.
    rewrite SizeT_wrap_small by (unfold SizeT.in_range; lia).
    rewrite fmap_cons. cbn [foldr].
    destruct (Z.ltb_spec minSize (accSize + fd_file_size f)) as [Hcut | Hkeep].
    + destruct (IH (grandparents ++ [f]) 0 ltac:(lia) ltac:(lia))
        as (selected & -> & Hsub & Hcount & Hbig).
      exists (f :: selected). rewrite <- app_assoc.
      split; [reflexivity |]. split; [now constructor |].
      split; [cbn [length]; lia |].
      intros g Hin Hg. apply elem_of_cons in Hin.
      destruct Hin as [-> | Hin]; [left | right; now apply Hbig].
    + destruct (IH grandparents (accSize + fd_file_size f) ltac:(lia)
                  ltac:(lia)) as (selected & -> & Hsub & Hcount & Hbig).
      exists selected. split; [reflexivity |].
      split; [now constructor |]. split; [lia |].
      intros g Hin Hg. apply elem_of_cons in Hin.
      destruct Hin as [-> | Hin]; [lia | now apply Hbig].
Qed.


End HybridGrandparents.


(** ** Hybrid compaction picker: the running descriptor *)

Section HybridDescriptors.

Import Hybrid.

Variable GetHyperLevelNum : Z -> Z.
Variable LastLevel : Z.

Lemma existsb_insert_or {A : Type} (f : A -> bool) (l : list A) (i : nat)
    (d d' : A) (r : bool) :
  l !! i = Some d -> f d' = f d || r ->
  existsb f (<[i := d']> l) = existsb f l || r.
Proof.
  revert i. induction l as [| x l IH]; intros i Hi Hf;
    [now rewrite lookup_nil in Hi |].
  destruct i as [| i]; simpl in *.
  - injection Hi as ->. rewrite Hf. now destruct (f d), r, (existsb f l).
  - rewrite (IH i Hi Hf). now destruct (f x), (existsb f l), r.
Qed.

Lemma total_compactions_insert (l : list HybridCompactionDescriptor)
    (i : nat) (d d' : HybridCompactionDescriptor) :
  l !! i = Some d ->
  total_compactions (<[i := d']> l) =
  total_compactions l - Z.of_nat (nCompactions d) + Z.of_nat (nCompactions d').
Proof.
  revert i. induction l as [| x l IH]; intros i Hi;
    [now rewrite lookup_nil in Hi |].
  destruct i as [| i]; simpl in *.
  - injection Hi as ->. lia.
  - rewrite (IH i Hi). lia.
Qed.

Lemma total_compactions_bound (l : list HybridCompactionDescriptor) (i : nat)
    (d : HybridCompactionDescriptor) :
  l !! i = Some d -> Z.of_nat (nCompactions d) <= total_compactions l.
Proof.
  revert i. induction l as [| x l IH]; intros i Hi;
    [now rewrite lookup_nil in Hi |].
  assert (Hpos : forall l', 0 <= total_compactions l')
    by (induction l' as [| y l' IH']; simpl; lia).
  destruct i as [| i]; simpl in *.
  - injection Hi as ->. specialize (Hpos l). lia.
  - specialize (IH i Hi). lia.
Qed.

Lemma BuildCompactionDescriptors_step_spec (p : HybridCompactionPicker)
    (out out' : HybridComactionsDescribtors) (compact : Compaction) :
  BuildCompactionDescriptors_step GetHyperLevelNum LastLevel p out compact
    = Some out' ->
  total_compactions (entries out) + 1 < 2 ^ 32 ->
  length (entries out') = length (entries out) /\
  manualComapctionRunning out' =
    manualComapctionRunning out ||
    CompactionReason_eqb (compaction_reason compact) kManualCompaction /\
  rearangeRunning out' = rearangeRunning out || counted_rearange compact /\
  existsb hasRearange (entries out') =
    existsb hasRearange (entries out) || counted_rearange compact /\
  total_compactions (entries out') =
    total_compactions (entries out) + (if counted compact then 1 else 0).
Proof.
  unfold BuildCompactionDescriptors_step, counted_rearange, counted.
  set (out1 := if CompactionReason_eqb (compaction_reason compact)
                    kManualCompaction then _ else out).
  assert (Hout1 : entries out1 = entries out /\
                  rearangeRunning out1 = rearangeRunning out /\
                  manualComapctionRunning out1 =
                    manualComapctionRunning out ||
                    CompactionReason_eqb (compaction_reason compact)
                      kManualCompaction).
  { subst out1.
    destruct (CompactionReason_eqb (compaction_reason compact)
                kManualCompaction); cbn;
      rewrite ?orb_true_r, ?orb_false_r; repeat split; reflexivity. }
  destruct Hout1 as (Hentries & Hrear & Hmanual). clearbody out1.
  destruct (uint_of_int (start_level compact) =? 0); cbn [negb].
  - intros Hstep Hbound. injection Hstep as <-.
    rewrite Hentries, Hrear, Hmanual, andb_false_r, !orb_false_r.
    repeat split; lia.
  - set (h := Z.to_nat _).
    destruct (entries out1 !! h) as [d |] eqn:Hd; cbn [mbind option_bind];
      [| discriminate].
    intros Hstep Hbound. injection Hstep as <-.
    cbn [entries rearangeRunning manualComapctionRunning].
    rewrite andb_true_r, Hrear, Hmanual.
    set (rearange := CompactionReason_eqb (compaction_reason compact)
                       kRearangeCompaction).
    split; [now rewrite length_insert, Hentries |].
    split; [reflexivity |].
    split; [now destruct rearange, (rearangeRunning out) |].
    split.
    + rewrite <- Hentries.
      apply (existsb_insert_or hasRearange _ h d); [exact Hd |].
      cbn [hasRearange]. now destruct rearange, (hasRearange d).
    + rewrite (total_compactions_insert _ h d _ Hd), Hentries.
      cbn [nCompactions].
      pose proof (total_compactions_bound _ h d Hd) as Hle.
      rewrite Hentries in Hle.
      unfold uint_add. rewrite Z.mod_small by lia.
      rewrite Z2Nat.id by lia. lia.
Qed.

Lemma BuildCompactionDescriptors_loop_spec (p : HybridCompactionPicker)
    (compactionInProgress : list Compaction)
    (out out' : HybridComactionsDescribtors) :
  BuildCompactionDescriptors_loop GetHyperLevelNum LastLevel p out
    compactionInProgress = Some out' ->
  total_compactions (entries out) + Z.of_nat (length compactionInProgress)
    < 2 ^ 32 ->
  length (entries out') = length (entries out) /\
  manualComapctionRunning out' =
    manualComapctionRunning out ||
    existsb (fun c => CompactionReason_eqb (compaction_reason c)
                        kManualCompaction) compactionInProgress /\
  rearangeRunning out' =
    rearangeRunning out || existsb counted_rearange compactionInProgress /\
  existsb hasRearange (entries out') =
    existsb hasRearange (entries out) ||
    existsb counted_rearange compactionInProgress /\
  total_compactions (entries out') =
    total_compactions (entries out) +
    Z.of_nat (length (filter (fun c => counted c = true)
                        compactionInProgress)).
Proof.
  revert out.
  induction compactionInProgress as [| compact rest IH]; intros out Hrun Hbound.
  - injection Hrun as <-. cbn [existsb]. rewrite !orb_false_r.
    repeat split. simpl. lia.
  - cbn [BuildCompactionDescriptors_loop] in Hrun.
    destruct (BuildCompactionDescriptors_step GetHyperLevelNum LastLevel p out
                compact) as [out1 |] eqn:Hstep; [| discriminate].
    cbn [mbind option_bind] in Hrun. cbn [length] in Hbound.
    destruct (BuildCompactionDescriptors_step_spec p out out1 compact Hstep
                ltac:(lia)) as (Hlen1 & Hman1 & Hrear1 & Hhas1 & Htot1).
    assert (Hone : 0 <= (if counted compact then 1 else 0) <= 1)
      by (destruct (counted compact); lia).
    destruct (IH out1 Hrun ltac:(lia)) as (Hlen & Hman & Hrear & Hhas & Htot).
    cbn [existsb].
    rewrite Hlen, Hman, Hrear, Hhas, Htot, Hlen1, Hman1, Hrear1, Hhas1, Htot1,
      !orb_assoc.
    repeat split.
    rewrite filter_cons. destruct (counted compact) eqn:Hc.
    + rewrite decide_True by reflexivity. cbn [length]. lia.
    + rewrite decide_False by discriminate. lia.
Qed.

Lemma BuildCompactionDescriptors_loop_total (p : HybridCompactionPicker)
    (compactionInProgress : list Compaction)
    (out : HybridComactionsDescribtors) :
  (Z.to_nat (curNumOfHyperLevels_ p) < length (entries out))%nat ->
  (forall c, c ∈ compactionInProgress ->
     uint_of_int (start_level c) < LastLevel ->
     (Z.to_nat (GetHyperLevelNum (uint_of_int (start_level c)))
      < length (entries out))%nat) ->
  is_Some (BuildCompactionDescriptors_loop GetHyperLevelNum LastLevel p out
             compactionInProgress).
Proof.
  revert out.
  induction compactionInProgress as [| compact rest IH]; intros out Hcur Hget;
    [now eexists |].
  cbn [BuildCompactionDescriptors_loop].
  assert (Hstep : exists out1,
            BuildCompactionDescriptors_step GetHyperLevelNum LastLevel p out
              compact = Some out1 /\
            length (entries out1) = length (entries out)).
  { unfold BuildCompactionDescriptors_step.
    set (out1 := if CompactionReason_eqb (compaction_reason compact)
                      kManualCompaction then _ else out).
    assert (Hentries : entries out1 = entries out)
      by (subst out1; now destruct (CompactionReason_eqb _ _)).
    clearbody out1.
    destruct (uint_of_int (start_level compact) =? 0); cbn [negb];
      [exists out1; split; [reflexivity | exact (f_equal length Hentries)] |].
    set (h := Z.to_nat _).
    assert (Hh : (h < length (entries out1))%nat).
    { subst h. rewrite Hentries.
      destruct (Z.leb_spec LastLevel (uint_of_int (start_level compact)));
        [exact Hcur | apply Hget; [left | assumption]]. }
    destruct (lookup_lt_is_Some_2 _ _ Hh) as [d Hd].
    rewrite Hd. cbn [mbind option_bind]. eexists. split; [reflexivity |].
    cbn [entries]. now rewrite length_insert, Hentries. }
  destruct Hstep as (out1 & -> & Hlen1). cbn [mbind option_bind].
  apply IH; rewrite Hlen1; [assumption |].
  intros c Hc. apply Hget. now right.
Qed.

(** X22: what [BuildCompactionDescriptors] records.  When the descriptor
    has an entry for the hyper-level of every compaction in progress, the
    call returns, keeps the number of entries, and: the manual flag is set
    exactly when a manual compaction is in progress; [rearangeRunning] is
    set exactly when a rearrange that did not start at level 0 is in
    progress, which is also exactly when some entry has [hasRearange];
    every compaction is counted once, the level-0 ones in entry 0; and
    while a rearrange is recorded [MayRunRearange] refuses a second one at
    every hyper-level. *)
Theorem BuildCompactionDescriptors_flags (p : HybridCompactionPicker)
    (level0_compactions_in_progress : Z)
    (compactions_in_progress : list Compaction)
    (out : HybridComactionsDescribtors) :
  (0 < length (entries out))%nat ->
  (Z.to_nat (curNumOfHyperLevels_ p) < length (entries out))%nat ->
  (forall c, c ∈ compactions_in_progress ->
     uint_of_int (start_level c) < LastLevel ->
     (Z.to_nat (GetHyperLevelNum (uint_of_int (start_level c)))
      < length (entries out))%nat) ->
  0 <= level0_compactions_in_progress ->
  level0_compactions_in_progress + Z.of_nat (length compactions_in_progress)
    < 2 ^ 32 ->
  exists out',
    BuildCompactionDescriptors GetHyperLevelNum LastLevel p
      level0_compactions_in_progress compactions_in_progress out = Some out' /\
    length (entries out') = length (entries out) /\
    (manualComapctionRunning out' = true <->
     exists c, c ∈ compactions_in_progress /\
               compaction_reason c = kManualCompaction) /\
    (rearangeRunning out' = true <->
     exists c, c ∈ compactions_in_progress /\
               compaction_reason c = kRearangeCompaction /\
               uint_of_int (start_level c) <> 0) /\
    (rearangeRunning out' = true <->
     exists d, d ∈ entries out' /\ hasRearange d = true) /\
    total_compactions (entries out') =
      level0_compactions_in_progress +
      Z.of_nat (length (filter (fun c => uint_of_int (start_level c) <> 0)
                          compactions_in_progress)) /\
    (rearangeRunning out' = true ->
     forall hyperLevelNum, MayRunRearange p hyperLevelNum out' <> Some true).
Proof.
  intros Hlen Hcur Hget Hl0 Hbound. unfold BuildCompactionDescriptors.
  set (blank := {| nCompactions := 0; startLevel := 2 ^ 32 - 1;
                   hasRearange := false |}).
  set (reset := (fun _ : HybridCompactionDescriptor => blank) <$> entries out).
  assert (Hreset_len : length reset = length (entries out))
    by (subst reset; apply length_fmap).
  assert (Hreset0 : reset !! 0%nat = Some blank).
  { subst reset. rewrite list_lookup_fmap.
    destruct (entries out); [simpl in Hlen; lia | reflexivity]. }
  rewrite Hreset0. cbn [mbind option_bind startLevel hasRearange blank].
  set (out0 := {| entries := _; rearangeRunning := false;
                  manualComapctionRunning := false |}).
  assert (Hreset_has : existsb hasRearange reset = false).
  { subst reset. generalize (entries out). intros l.
    induction l as [| d ds IH]; [reflexivity |].
    rewrite fmap_cons. cbn [existsb hasRearange blank]. exact IH. }
  assert (Hreset_total : total_compactions reset = 0).
  { subst reset. generalize (entries out). intros l.
    induction l as [| d ds IH]; [reflexivity |].
    rewrite fmap_cons. unfold total_compactions in *.
    cbn [foldr nCompactions blank]. rewrite IH. reflexivity. }
  assert (Hout0_len : length (entries out0) = length (entries out))
    by (subst out0; cbn [entries]; now rewrite length_insert).
  assert (Hout0_has : existsb hasRearange (entries out0) = false).
  { subst out0. cbn [entries].
    rewrite (existsb_insert_or hasRearange reset 0 blank _ false Hreset0);
      [now rewrite Hreset_has | reflexivity]. }
  assert (Hout0_total : total_compactions (entries out0) =
                        level0_compactions_in_progress).
  { subst out0. cbn [entries].
    rewrite (total_compactions_insert reset 0 blank _ Hreset0), Hreset_total.
    cbn [nCompactions blank]. rewrite Z.mod_small by lia.
    rewrite Z2Nat.id by lia. lia. }
  destruct (BuildCompactionDescriptors_loop_total p compactions_in_progress
              out0 ltac:(now rewrite Hout0_len)
              ltac:(intros c Hc Hs; rewrite Hout0_len; now apply Hget))
    as [out' Hrun].
  destruct (BuildCompactionDescriptors_loop_spec p compactions_in_progress
              out0 out' Hrun ltac:(rewrite Hout0_total; lia))
    as (Hlen' & Hman & Hrear & Hhas & Htot).
  rewrite Hout0_has, orb_false_l in Hhas.
  cbn [rearangeRunning manualComapctionRunning out0 orb] in Hman, Hrear.
  exists out'. split; [exact Hrun |].
  split; [now rewrite Hlen', Hout0_len |].
  assert (Hrear_iff : rearangeRunning out' = true <->
            exists c, c ∈ compactions_in_progress /\
                      compaction_reason c = kRearangeCompaction /\
                      uint_of_int (start_level c) <> 0).
  { rewrite Hrear, existsb_exists. split.
    - intros (c & Hin & Hc). exists c.
      split; [now apply list_elem_of_In |].
      unfold counted_rearange in Hc. apply andb_true_iff in Hc.
      destruct Hc as [Hreason Hstart]. split.
      + now destruct (compaction_reason c).
      + apply negb_true_iff, Z.eqb_neq in Hstart. exact Hstart.
    - intros (c & Hin & Hreason & Hstart). exists c.
      split; [now apply list_elem_of_In |].
      unfold counted_rearange. rewrite Hreason. cbn.
      apply negb_true_iff, Z.eqb_neq. exact Hstart. }
  split; [| split; [exact Hrear_iff | split; [| split]]].
  - rewrite Hman, existsb_exists. split.
    + intros (c & Hin & Hc). exists c. split; [now apply list_elem_of_In |].
      now destruct (compaction_reason c).
    + intros (c & Hin & Hc). exists c. split; [now apply list_elem_of_In |].
      now rewrite Hc.
  - rewrite Hrear, <- Hhas, existsb_exists. split.
    + intros (d & Hin & Hd). exists d. split; [now apply list_elem_of_In | exact Hd].
    + intros (d & Hin & Hd). exists d. split; [now apply list_elem_of_In | exact Hd].
  - rewrite Htot, Hout0_total. f_equal. f_equal.
    clear. induction compactions_in_progress as [| c cs IH]; [reflexivity |].
    rewrite !filter_cons.
    destruct (decide (counted c = true)) as [Hc | Hc];
      destruct (decide (uint_of_int (start_level c) <> 0)) as [Hs | Hs];
      cbn [length]; rewrite ?IH; try reflexivity; exfalso.
    + unfold counted in Hc. apply negb_true_iff, Z.eqb_neq in Hc. tauto.
    + apply Hc. unfold counted. now apply negb_true_iff, Z.eqb_neq.
  - intros Hrunning hyperLevelNum. unfold MayRunRearange.
    rewrite Hrunning.
    destruct (0 <? hyperLevelNum); cbn [negb]; discriminate.
Qed.

End HybridDescriptors.

(** With a rearrange started at level 5 in progress the descriptor is
    built, and it records the rearrange. *)
Lemma BuildCompactionDescriptors_flags_witness :
  exists out',
    Hybrid.BuildCompactionDescriptors Hybrid.sample_GetHyperLevelNum 9
      Hybrid.sample_picker 1 Hybrid.sample_in_progress Hybrid.sample_running
      = Some out' /\
    Hybrid.rearangeRunning out' = true.
Proof.
  destruct (BuildCompactionDescriptors_flags Hybrid.sample_GetHyperLevelNum 9
              Hybrid.sample_picker 1 Hybrid.sample_in_progress
              Hybrid.sample_running)
    as (out' & Hrun & _ & _ & Hrearange & _).
  - by_evaluation.
  - by_evaluation.
  - intros c Hc _. apply elem_of_cons in Hc. destruct Hc as [-> | Hc].
    + by_evaluation.
    + apply elem_of_cons in Hc. destruct Hc as [-> | Hc]; [by_evaluation |].
      inversion Hc.
  - by_evaluation.
  - by_evaluation.
  - exists out'. split; [exact Hrun |]. apply Hrearange.
    eexists. split; [left |]. split; [reflexivity | by_evaluation].
Defined.

(** ** Hybrid compaction picker: locating files *)

Section HybridLocate.

Import Hybrid.

Variable Compare : string -> string -> Z.
Hypothesis user_order : UserOrder Compare.

(** [locateFile_loop] stops at the first file whose largest key is not
    below the key. *)
Lemma locateFile_loop_spec (files : list FileMetaData) (key : string)
    (iter : nat) :
  let i := locateFile_loop Compare files key iter in
  (iter <= i <= iter + length files)%nat /\
  (forall j f, (iter + j < i)%nat -> files !! j = Some f ->
               Compare (largest f) key < 0) /\
  (forall f, files !! (i - iter)%nat = Some f ->
             0 <= Compare (largest f) key).
Proof.
  revert iter. induction files as [| f0 files IH]; intros iter; cbn zeta.
  - simpl. split; [lia |]. split; intros; now rewrite lookup_nil in *.
  - cbn [locateFile_loop length].
    destruct (Z.leb_spec 0 (Compare (largest f0) key)) as [Hge | Hlt].
    + split; [lia |]. split; [intros j f Hj; lia |].
      rewrite Nat.sub_diag. simpl. intros f Hf. now injection Hf as <-.
    + destruct (IH (S iter)) as (Hrange & Hbelow & Hat).
      split; [lia |]. split.
      * intros [| j] f Hj Hf; simpl in Hf.
        -- now injection Hf as <-.
        -- apply (Hbelow j f); [lia | exact Hf].
      * intros f Hf.
        replace (locateFile_loop Compare files key (S iter) - iter)%nat
          with (S (locateFile_loop Compare files key (S iter) - S iter))
          in Hf by lia.
        simpl in Hf. now apply Hat.
Qed.

(** X29: [Intersecting] answers [true] only for files that do not
    intersect.  For a level [f2] whose files are in key order and disjoint,
    if [Intersecting(f1, f2)] is [true] then no user key lies both in the
    range of [f1] and in the range of a file of [f2]: the comparison after
    [locateFile] is the opposite of an overlap test. *)
Theorem Intersecting_only_when_disjoint (f1 : FileMetaData)
    (f2 : list FileMetaData) :
  level_sorted Compare f2 ->
  Intersecting_file Compare f1 f2 = true ->
  forall g, g ∈ f2 -> ~ overlap Compare f1 g.
Proof.
  intros [Hbounds Hsorted] Hinter g Hg (k & Hk1 & Hk2 & Hk3 & Hk4).
  unfold Intersecting_file in Hinter.
  set (i := locateFile Compare f2 (smallest f1) 0) in *.
  destruct (f2 !! i) as [f |] eqn:Hf; [| discriminate].
  apply Z.ltb_lt in Hinter.
  pose proof (ucmp_antisym Compare user_order _ _ Hinter) as Hf1_below_f.
  assert (Hkk : Compare k k = 0) by apply (ucmp_refl Compare user_order).
  apply list_elem_of_lookup in Hg. destruct Hg as [j Hj].
  assert (Hbefore : (j < i)%nat -> Compare (largest g) (smallest f1) < 0).
  { intros Hji. subst i. unfold locateFile in Hji.
    destruct (negb (Nat.eqb (String.length (smallest f1)) 0)); [| lia].
    cbn [drop] in Hji.
    destruct (locateFile_loop_spec f2 (smallest f1) 0) as (_ & Hbelow & _).
    apply (Hbelow j g); [exact Hji | exact Hj]. }
  destruct (Nat.lt_trichotomy j i) as [Hji | [-> | Hij]].
  - (* [g] ends below [f1] *)
    pose proof (ucmp_le_lt Compare user_order _ _ _ Hk4 (Hbefore Hji)) as H1.
    pose proof (ucmp_lt_le Compare user_order _ _ _ H1 Hk1). lia.
  - (* [g] is the located file, which starts above [f1] *)
    rewrite Hf in Hj. injection Hj as ->.
    pose proof (ucmp_le_lt Compare user_order _ _ _ Hk2 Hf1_below_f) as H1.
    pose proof (ucmp_lt_le Compare user_order _ _ _ H1 Hk3). lia.
  - (* [g] comes after the located file *)
    pose proof (StronglySorted_lookup _ f2 i j f g Hsorted Hij Hf Hj) as Hfg.
    pose proof (Forall_lookup_1 _ _ _ _ Hbounds Hf) as Hf_bounds.
    pose proof (ucmp_le_lt Compare user_order _ _ _ Hk2 Hf1_below_f) as H1.
    pose proof (ucmp_lt_le Compare user_order _ _ _ H1 Hf_bounds) as H2.
    pose proof (ucmp_lt_le Compare user_order _ _ _ H2 (Z.lt_le_incl _ _ Hfg))
      as H3.
    pose proof (ucmp_lt_le Compare user_order _ _ _
                  (ucmp_le_lt Compare user_order _ _ _ (Z.lt_le_incl _ _ H2)
                     Hfg) Hk3) as H4.
    lia.
Qed.

End HybridLocate.

Lemma length_Compare_order : Hybrid.UserOrder Hybrid.length_Compare.
Proof. split; unfold Hybrid.length_Compare; intros; lia. Qed.

(** The file [a..a] lies below both files of the level, and [Intersecting]
    answers [true] for it. *)
Lemma Intersecting_only_when_disjoint_witness :
  ~ Hybrid.overlap Hybrid.length_Compare Hybrid.file_a_a
      Hybrid.file_dddd_eeeee.
Proof.
  apply (Intersecting_only_when_disjoint Hybrid.length_Compare
           length_Compare_order Hybrid.file_a_a
           [Hybrid.file_bb_ccc; Hybrid.file_dddd_eeeee]).
  - split; repeat constructor; by_evaluation.
  - reflexivity.
  - right. left.
Defined.

(** ** Iterator wrapper: the cache and the iterator agree *)

Section IterWrapperFacts.

Import IterWrapper.

Context {Iter Key : Type} {II : InternalIteratorBase Iter Key}.

Lemma Update_coherent (w : IteratorWrapperBase Iter Key) (it : Iter) :
  coherent (Update w it).
Proof.
  unfold coherent, Update, Valid, wrapper_key. exists it.
  destruct (iter_Valid it) eqn:Hvalid; cbn; rewrite ?Hvalid.
  - repeat split.
  - split; [reflexivity |]. split; [reflexivity | discriminate].
Qed.

Hypothesis contract : IteratorContract II.

Lemma step_coherent (w w' : IteratorWrapperBase Iter Key) (op : Op Iter Key) :
  coherent w -> step w op = Some w' -> coherent w'.
Proof.
  intros (it & Hit & Hvalid & Hkey).
  unfold Valid, wrapper_key in *.
  destruct op as [it0 | | | | | k | k | |]; cbn [step];
    unfold Set_, PrepareValue, Next, NextAndGetResult, Prev, Seek,
      SeekForPrev, SeekToFirst, SeekToLast;
    rewrite ?Hit; cbn [mbind option_bind fst].
  - intros Hstep. injection Hstep as <-. apply Update_coherent.
  - destruct (value_prepared (result_ w)).
    + cbn. intros Hstep. injection Hstep as <-. now exists it.
    + rewrite ?Hit. cbn [mbind option_bind].
      pose proof (prepare_keeps II contract it) as Hprepare.
      destruct (iter_PrepareValue it) as [it' [|]]; cbn;
        intros Hstep; injection Hstep as <-; exists it'; cbn.
      * destruct Hprepare as [Hv Hk].
        split; [reflexivity |]. split; [congruence |].
        intros Hw. rewrite Hk. now apply Hkey.
      * split; [reflexivity |]. split; [congruence | discriminate].
  - pose proof (next_reports II contract it (result_ w)) as Hnext.
    destruct (iter_NextAndGetResult it (result_ w)) as [[it' r'] valid].
    intros Hstep. injection Hstep as <-. exists it'. cbn.
    split; [reflexivity | exact Hnext].
  - pose proof (next_reports II contract it (result_ w)) as Hnext.
    destruct (iter_NextAndGetResult it (result_ w)) as [[it' r'] valid].
    cbn. intros Hstep. injection Hstep as <-. exists it'. cbn.
    split; [reflexivity | exact Hnext].
  - intros Hstep. injection Hstep as <-. apply Update_coherent.
  - intros Hstep. injection Hstep as <-. apply Update_coherent.
  - intros Hstep. injection Hstep as <-. apply Update_coherent.
  - intros Hstep. injection Hstep as <-. apply Update_coherent.
  - intros Hstep. injection Hstep as <-. apply Update_coherent.
Qed.

Lemma step_defined (w : IteratorWrapperBase Iter Key) (op : Op Iter Key) :
  is_Some (iter_ w) -> is_Some (step w op).
Proof.
  intros [it Hit].
  destruct op as [it0 | | | | | k | k | |]; cbn [step];
    unfold PrepareValue, Next, NextAndGetResult, Prev, Seek, SeekForPrev,
      SeekToFirst, SeekToLast;
    rewrite ?Hit; cbn [mbind option_bind]; try (now eexists).
  - destruct (value_prepared (result_ w)); [now eexists |].
    rewrite ?Hit. cbn [mbind option_bind].
    destruct (iter_PrepareValue it) as [it' [|]]; now eexists.
  - destruct (iter_NextAndGetResult it (result_ w)) as [[it' r'] valid].
    now eexists.
  - destruct (iter_NextAndGetResult it (result_ w)) as [[it' r'] valid].
    now eexists.
Qed.


End IterWrapperFacts.

Section IterWrapperPrepare.

Import IterWrapper.

Context {Iter Key : Type} {II : InternalIteratorBase Iter Key}.

(** X24: a prepared value is remembered until the wrapper moves.  Once
    [PrepareValue] has returned [true], [IsValuePrepared] holds and further
    calls return [true] without calling the underlying iterator; every
    repositioning through [Set], [Seek], [SeekForPrev], [SeekToFirst],
    [SeekToLast] or [Prev] that ends on a valid position forgets it and
    resets the bound check to [kUnknown]. *)
Theorem PrepareValue_remembered (w w1 : IteratorWrapperBase Iter Key) :
  PrepareValue w = Some (w1, true) ->
  IsValuePrepared w1 = true /\
  PrepareValue w1 = Some (w1, true) /\
  forall (op : Op Iter Key) (w2 : IteratorWrapperBase Iter Key),
    op <> OpPrepareValue -> op <> OpNext -> op <> OpNextAndGetResult ->
    step w1 op = Some w2 -> Valid w2 = true ->
    IsValuePrepared w2 = false /\ UpperBoundCheckResult w2 = kUnknown.
Proof.
  intros Hprepare.
  assert (Hprepared : IsValuePrepared w1 = true).
  { unfold PrepareValue, IsValuePrepared in *.
    destruct (value_prepared (result_ w)) eqn:Hw.
    - injection Hprepare as <-. exact Hw.
    - destruct (iter_ w) as [it |]; [| discriminate].
      cbn [mbind option_bind] in Hprepare.
      destruct (iter_PrepareValue it) as [it' [|]]; [| discriminate].
      injection Hprepare as <-. reflexivity. }
  split; [exact Hprepared |]. split.
  - unfold PrepareValue. unfold IsValuePrepared in Hprepared.
    now rewrite Hprepared.
  - assert (Hupdate : forall w0 it w2,
              Update w0 it = w2 -> Valid w2 = true ->
              IsValuePrepared w2 = false /\ UpperBoundCheckResult w2 = kUnknown).
    { intros w0 it w2 <-. unfold Update, Valid, IsValuePrepared,
        UpperBoundCheckResult.
      destruct (iter_Valid it); cbn; [now split | discriminate]. }
    intros op w2 Hp Hn Hr Hstep Hvalid.
    destruct op as [it0 | | | | | k | k | |]; try contradiction;
      cbn [step] in Hstep;
      unfold Set_, Prev, Seek, SeekForPrev, SeekToFirst, SeekToLast in Hstep;
      cbn [fst] in Hstep;
      try (destruct (iter_ w1) as [it1 |]; [| discriminate];
           cbn [mbind option_bind] in Hstep);
      injection Hstep as Hstep;
      exact (Hupdate _ _ _ Hstep Hvalid).
Qed.

End IterWrapperPrepare.

#[local] Existing Instance IterWrapper.cursor_iterator.

Lemma cursor_contract : IterWrapper.IteratorContract IterWrapper.cursor_iterator.
Proof.
  split.
  - intros it r. unfold IterWrapper.iter_NextAndGetResult,
      IterWrapper.iter_Valid, IterWrapper.iter_key,
      IterWrapper.cursor_iterator.
    split; [reflexivity |].
    intros Hvalid. rewrite Hvalid. reflexivity.
  - intros it. unfold IterWrapper.iter_PrepareValue, IterWrapper.iter_Valid,
      IterWrapper.iter_key, IterWrapper.cursor_iterator.
    destruct (IterWrapper.cursor_valid it) eqn:Hvalid;
      [split; reflexivity | reflexivity].
Qed.


(** A wrapper set on a cursor at key 4 of the keys 2, 4, 6: the value is
    not prepared after [Set]; [PrepareValue] asks the cursor and returns
    [true]; from then on the value stays prepared until the wrapper is
    repositioned. *)
Lemma PrepareValue_remembered_witness :
  let w := fst (IterWrapper.Set_ IterWrapper.blank_wrapper
                  (Some ([2; 4; 6], 1%nat))) in
  let w1 :=
    {| IterWrapper.iter_ := Some ([2; 4; 6], 1%nat);
       IterWrapper.result_ :=
         {| IterWrapper.key := 4;
            IterWrapper.bound_check_result := IterWrapper.kUnknown;
            IterWrapper.value_prepared := true |};
       IterWrapper.valid_ := true |} in
  (IterWrapper.Valid w = true /\ IterWrapper.IsValuePrepared w = false) /\
  IterWrapper.IsValuePrepared w1 = true /\
  IterWrapper.PrepareValue w1 = Some (w1, true) /\
  forall (op : IterWrapper.Op (list Z * nat) Z)
         (w2 : IterWrapper.IteratorWrapperBase (list Z * nat) Z),
    op <> IterWrapper.OpPrepareValue -> op <> IterWrapper.OpNext ->
    op <> IterWrapper.OpNextAndGetResult ->
    IterWrapper.step w1 op = Some w2 -> IterWrapper.Valid w2 = true ->
    IterWrapper.IsValuePrepared w2 = false /\
    IterWrapper.UpperBoundCheckResult w2 = IterWrapper.kUnknown.
Proof.
  cbn zeta. split; [split; reflexivity |].
  refine (PrepareValue_remembered (II := IterWrapper.cursor_iterator)
            (fst (IterWrapper.Set_ IterWrapper.blank_wrapper
                    (Some ([2; 4; 6], 1%nat))))
            _ _).
  reflexivity.
Defined.
